(** * simcraft.resources.queue: FIFO and priority queues with statistics

    A shallow embedding of [src/simcraft/resources/queue.py] and the
    properties its specification states about it.

    Conventions of the embedding.
    - Python [float] is IEEE binary64: Rocq's primitive [float].  Python
      [int] is unbounded: [Z].  A float is held by its value; where the
      source compares two float objects with [is] before [==] (the
      fields of the dataclasses), see [PriorityItem.lt_tuple].
    - [self._sim.now] is read-only for the queue; every operation takes
      the value it reads as its argument [now].
    - A method that mutates [self] takes the object and returns the new
      one next to its return value.
    - A callback is an opaque handle; invoking it appends an event to the
      trace the operation returns.  The callback is not run: what it
      does when it is called, to this queue or to anything else, is not
      part of the model.
    - A result of type [Optional[T]] is an [option T]: [None] is the
      [None] a method returns when it has no item to return, [Some x]
      the item [x], also when the item is Python's [None] itself, which
      a caller cannot tell from the first.
    - [heapq] (CPython's [Lib/heapq.py]) is embedded function by function
      on lists used as arrays. *)

From Stdlib Require Import ZArith Floats Lia ZifyNat Bool.
From stdpp Require Import base tactics option list strings sorting.

(* [lia] also decides goals with [/ 2] on indices. *)
Ltac Zify.zify_post_hook ::= Z.to_euclidean_division_equations.
Local Open Scope Z_scope.

(* ================================================================= *)
(** ** Python values the module relies on *)

Inductive PyExn : Set :=
| AttributeError
| TypeError.

Inductive PyResult (A : Type) : Type :=
| Ok (a : A)
| Raise (e : PyExn).
Arguments Ok {A} a.
Arguments Raise {A} e.

Module PyFloat.

(** [float(n)] for an [int] [n], also the conversion of the [int]
    operand of a mixed [int]/[float] operation: the nearest binary64,
    ties to even. *)
Definition of_int (n : Z) : float :=
  SF2Prim (binary_normalize prec emax n 0 false).

(** [x == y] on floats. *)
Definition eq (x y : float) : bool := PrimFloat.eqb x y.

(** [x < y] on floats. *)
Definition lt (x y : float) : bool := PrimFloat.ltb x y.

(** A number, as opposed to a NaN. *)
Definition is_number (x : float) : Prop := PrimFloat.is_nan x = false.

End PyFloat.

(** The item type [T] of [Generic[T]]: objects with an identity ([is])
    and a user-definable [__eq__] ([==]).  Two values of the model are
    the same object exactly when they are equal in Rocq. *)
Class PyObject (T : Type) := {
  py_is_dec :: EqDecision T;
  py_eq : T -> T -> bool
}.

(** [a is b or a == b] *)
Definition py_is_or_eq `{PyObject T} (a b : T) : bool :=
  bool_decide (a = b) || py_eq a b.

(** [seq.remove(x)] for the object [x] that sits at index [i] of [seq]
    (list and deque alike): the first element that is [x] or compares
    equal to it is taken out.  Position [i] holds [x] itself, so the scan
    stops there at the latest. *)
Fixpoint seq_remove {A} (eqb : A -> A -> bool) (x : A) (i : nat)
    (l : list A) : list A :=
  match l with
  | [] => []
  | y :: l' =>
      match i with
      | O => l'
      | S i' => if eqb y x then l' else y :: seq_remove eqb x i' l'
      end
  end.

(** Index of the first element a [for] loop over [l] finds with [p]. *)
Fixpoint find_index {A} (p : A -> bool) (l : list A) : option nat :=
  match l with
  | [] => None
  | y :: l' => if p y then Some O else S <$> find_index p l'
  end.

(* ================================================================= *)
(** ** QueueStats *)

Record QueueStats : Set := mkQueueStats {
  entries : Z;
  exits : Z;
  max_length : Z;
  total_wait_time : float;
  area : float;
  _last_change_time : float;
  _current_length : Z
}.

Module QueueStats.

(** The dataclass defaults. *)
Definition init : QueueStats :=
  mkQueueStats 0 0 0 0%float 0%float 0%float 0.

Definition _update_area (time : float) (self : QueueStats) : QueueStats :=
  let duration := (time - _last_change_time self)%float in
  mkQueueStats (entries self) (exits self) (max_length self)
    (total_wait_time self)
    (area self + PyFloat.of_int (_current_length self) * duration)%float
    time
    (_current_length self).

Definition record_entry (time : float) (self : QueueStats) : QueueStats :=
  let self := _update_area time self in
  let entries' := entries self + 1 in
  let current' := _current_length self + 1 in
  mkQueueStats entries' (exits self)
    (Z.max (max_length self) current')
    (total_wait_time self) (area self) (_last_change_time self)
    current'.

Definition record_exit (time wait_time : float) (self : QueueStats)
  : QueueStats :=
  let self := _update_area time self in
  mkQueueStats (entries self) (exits self + 1) (max_length self)
    (total_wait_time self + wait_time)%float
    (area self) (_last_change_time self)
    (_current_length self - 1).

Definition average_length (self : QueueStats) : float :=
  if PyFloat.eq (_last_change_time self) (PyFloat.of_int 0) then 0%float
  else (area self / _last_change_time self)%float.


Definition current_length (self : QueueStats) : Z := _current_length self.

Definition reset (self : QueueStats) : QueueStats :=
  mkQueueStats 0 0 0 0%float 0%float 0%float 0.

End QueueStats.

(* ================================================================= *)
(** ** heapq

    The functions of CPython's [heapq] the queue calls, on a list used
    as an array, for an element type with [<] given by [lt].  A [while]
    loop is a recursion on a step budget; the callers pass the length of
    the array, which the loop never uses up (see [_siftdown_loop_fuel]
    and [_siftup_loop_fuel]). *)

Module heapq.
Section Defs.
Context {A : Type} (lt : A -> A -> bool).

(** The [while pos > startpos] loop of [_siftdown]: parents larger
    than [newitem] move down; the result is the array and the final
    [pos]. *)
Fixpoint _siftdown_loop (fuel : nat) (heap : list A) (newitem : A)
    (startpos pos : nat) : list A * nat :=
  match fuel with
  | O => (heap, pos)
  | S fuel' =>
      if (startpos <? pos)%nat then
        let parentpos := ((pos - 1) / 2)%nat in
        match heap !! parentpos with
        | Some parent =>
            if lt newitem parent then
              _siftdown_loop fuel' (<[pos := parent]> heap) newitem
                startpos parentpos
            else (heap, pos)
        | None => (heap, pos)
        end
      else (heap, pos)
  end.

Definition _siftdown (heap : list A) (startpos pos : nat) : list A :=
  match heap !! pos with
  | Some newitem =>
      let '(heap, pos) :=
        _siftdown_loop (length heap) heap newitem startpos pos in
      <[pos := newitem]> heap
  | None => heap
  end.

(** The [while childpos < endpos] loop of [_siftup]: the smaller child
    moves up until [pos] is a leaf. *)
Fixpoint _siftup_loop (fuel : nat) (heap : list A) (endpos pos : nat)
    : list A * nat :=
  match fuel with
  | O => (heap, pos)
  | S fuel' =>
      let childpos := (2 * pos + 1)%nat in
      if (childpos <? endpos)%nat then
        let rightpos := (childpos + 1)%nat in
        match heap !! childpos with
        | Some child =>
            let childpos :=
              match heap !! rightpos with
              | Some rchild =>
                  if (rightpos <? endpos)%nat && negb (lt child rchild)
                  then rightpos else childpos
              | None => childpos
              end in
            match heap !! childpos with
            | Some smaller =>
                _siftup_loop fuel' (<[pos := smaller]> heap) endpos childpos
            | None => (heap, pos)
            end
        | None => (heap, pos)
        end
      else (heap, pos)
  end.

Definition _siftup (heap : list A) (pos : nat) : list A :=
  let endpos := length heap in
  let startpos := pos in
  match heap !! pos with
  | Some newitem =>
      let '(heap, pos) := _siftup_loop endpos heap endpos pos in
      _siftdown (<[pos := newitem]> heap) startpos pos
  | None => heap
  end.

Definition heappush (heap : list A) (item : A) : list A :=
  let heap := heap ++ [item] in
  _siftdown heap 0 (length heap - 1).

(** [heappop(heap)]: the popped element and the array left; [None]
    stands for the [IndexError] of [heap.pop()] on an empty list. *)
Definition heappop (heap : list A) : option (A * list A) :=
  match last heap with
  | None => None
  | Some lastelt =>
      let heap := take (length heap - 1) heap in
      match heap !! 0%nat with
      | Some returnitem => Some (returnitem, _siftup (<[0%nat := lastelt]> heap) 0)
      | None => Some (lastelt, heap)
      end
  end.

(** [for i in reversed(range(n//2)): _siftup(x, i)] *)
Definition heapify (x : list A) : list A :=
  let n := length x in
  foldl _siftup x (reverse (seq 0 (n / 2))).

End Defs.
End heapq.

(* ================================================================= *)
(** ** The wrappers *)

Module QueueEntry.
Record t (T : Type) : Type := mk { item : T; entry_time : float }.
Arguments mk {T} item entry_time.
Arguments item {T} _.
Arguments entry_time {T} _.

(** The [__eq__] a dataclass generates: the tuples of the fields are
    compared, each pair of components by [is] first and [==] next.
    (The identity of two float objects is not modelled; it only differs
    from [==] on a NaN.) *)
Definition __eq__ `{PyObject T} (self other : t T) : bool :=
  py_is_or_eq (item self) (item other)
  && PyFloat.eq (entry_time self) (entry_time other).
End QueueEntry.

Module PriorityItem.
Record t (T : Type) : Type := mk {
  priority : float;
  index : Z;
  item : T;
  entry_time : float
}.
Arguments mk {T} priority index item entry_time.
Arguments priority {T} _.
Arguments index {T} _.
Arguments item {T} _.
Arguments entry_time {T} _.

(** [order=True]: [(priority, index) < (other.priority, other.index)],
    the comparison of tuples: components are passed over while they are
    the same object or equal ([is] first, [==] next), and the first pair
    that is neither decides with [<]; tuples that agree throughout are
    not smaller.  [item] and [entry_time] have [compare=False].
    [same_priority] tells whether the two [priority] fields hold one
    object. *)
Definition lt_tuple {T} (same_priority : bool) (self other : t T) : bool :=
  if same_priority || PyFloat.eq (priority self) (priority other)
  then index self <? index other
  else PyFloat.lt (priority self) (priority other).

(** [(priority, index) == (other.priority, other.index)], with the same
    test on the components. *)
Definition eq_tuple {T} (same_priority : bool) (self other : t T) : bool :=
  (same_priority || PyFloat.eq (priority self) (priority other))
  && (index self =? index other).

(** The queue holds a priority as the value of a float, so the
    comparisons of its wrappers take the priorities of two wrappers as
    two objects.  One object has one value, and a number is equal to
    itself, so this is the comparison of the source for priorities
    that are numbers ([lt_tuple_number], [eq_tuple_number]) and for
    NaN priorities that are separate objects; two wrappers that share
    one NaN object as their priority are outside the model. *)
Definition __lt__ {T} (self other : t T) : bool := lt_tuple false self other.

Definition __eq__ {T} (self other : t T) : bool := eq_tuple false self other.
End PriorityItem.

(** What an attribute of one of the two queues evaluates to. *)
Inductive PyValue (T C : Type) : Type :=
| VSim
| VInt (n : Z)
| VBool (b : bool)
| VStr (s : string)
| VQueueEntry (e : QueueEntry.t T)
| VPriorityItem (e : PriorityItem.t T)
| VDeque (l : list (QueueEntry.t T))
| VList (l : list (PriorityItem.t T))
| VStats (s : QueueStats)
| VCallback (c : option C)
| VFunction (f : T -> float)
| VMethod (name : string).
Arguments VSim {T C}.
Arguments VInt {T C} n.
Arguments VBool {T C} b.
Arguments VStr {T C} s.
Arguments VQueueEntry {T C} e.
Arguments VPriorityItem {T C} e.
Arguments VDeque {T C} l.
Arguments VList {T C} l.
Arguments VStats {T C} s.
Arguments VCallback {T C} c.
Arguments VFunction {T C} f.
Arguments VMethod {T C} name.

(** Lookup of a name in the attributes of an object, in order. *)
Fixpoint attr_lookup {V} (name : string) (d : list (string * V)) : option V :=
  match d with
  | [] => None
  | (k, v) :: d' => if String.eqb k name then Some v else attr_lookup name d'
  end.

(** [list(v)] *)
Definition py_list {T C} (v : PyValue T C) : PyResult (list (PyValue T C)) :=
  match v with
  | VDeque l => Ok (VQueueEntry <$> l)
  | VList l => Ok (VPriorityItem <$> l)
  | VStr s => Ok ((fun c => VStr (String c EmptyString)) <$> String.list_ascii_of_string s)
  | _ => Raise TypeError
  end.

(** A call of a callback with its argument. *)
Inductive Event (T C : Type) : Type :=
| Called (callback : C) (arg : T).
Arguments Called {T C} callback arg.

(** [if cb: cb(item)] *)
Definition fire {T C} (cb : option C) (item : T) : list (Event T C) :=
  match cb with
  | Some f => [Called f item]
  | None => []
  end.

(* ================================================================= *)
(** ** Queue (FIFO) *)

Module Queue.
Section Defs.
Context {T C : Type} `{PyObject T}.

Record t : Type := mk {
  _capacity : Z;
  _name : string;
  _entries : list (QueueEntry.t T);
  _stats : QueueStats;
  _on_enqueue : option C;
  _on_dequeue : option C
}.

(** [auto_name] is the value of [f"Queue_{id(self)}"]. *)
Definition __init__ (auto_name : string) (capacity : Z) (name : string) : t :=
  mk capacity (if String.eqb name "" then auto_name else name)
     [] QueueStats.init None None.

Definition name (self : t) : string := _name self.
Definition stats (self : t) : QueueStats := _stats self.
Definition capacity (self : t) : Z := _capacity self.

Definition __len__ (self : t) : Z := Z.of_nat (length (_entries self)).

Definition is_empty (self : t) : bool := __len__ self =? 0.

Definition is_full (self : t) : bool :=
  if _capacity self =? 0 then false
  else __len__ self >=? _capacity self.

Definition with_content (self : t) (es : list (QueueEntry.t T))
    (st : QueueStats) : t :=
  mk (_capacity self) (_name self) es st (_on_enqueue self) (_on_dequeue self).

Definition enqueue (now : float) (item : T) (self : t)
  : bool * t * list (Event T C) :=
  if is_full self then (false, self, [])
  else
    let entry := QueueEntry.mk item now in
    let self := with_content self (_entries self ++ [entry])
                  (QueueStats.record_entry now (_stats self)) in
    (true, self, fire (_on_enqueue self) item).

Definition dequeue (now : float) (self : t)
  : option T * t * list (Event T C) :=
  if is_empty self then (None, self, [])
  else
    match _entries self with
    | entry :: rest =>
        let wait_time := (now - QueueEntry.entry_time entry)%float in
        let self := with_content self rest
                      (QueueStats.record_exit now wait_time (_stats self)) in
        (Some (QueueEntry.item entry), self,
         fire (_on_dequeue self) (QueueEntry.item entry))
    | [] => (None, self, [])
    end.

Definition peek (self : t) : option T :=
  if is_empty self then None
  else QueueEntry.item <$> (_entries self !! 0%nat).

(** The test of the loops of [remove] and [contains]. *)
Definition matches (item : T) (entry : QueueEntry.t T) : bool :=
  py_is_or_eq (QueueEntry.item entry) item.

Definition remove (now : float) (item : T) (self : t) : bool * t :=
  match find_index (matches item) (_entries self) with
  | Some i =>
      match _entries self !! i with
      | Some entry =>
          let es := seq_remove QueueEntry.__eq__ entry i (_entries self) in
          let wait_time := (now - QueueEntry.entry_time entry)%float in
          (true,
           with_content self es
             (QueueStats.record_exit now wait_time (_stats self)))
      | None => (false, self)
      end
  | None => (false, self)
  end.

Definition contains (item : T) (self : t) : bool :=
  existsb (matches item) (_entries self).

Definition on_enqueue (callback : C) (self : t) : t :=
  mk (_capacity self) (_name self) (_entries self) (_stats self)
     (Some callback) (_on_dequeue self).

Definition on_dequeue (callback : C) (self : t) : t :=
  mk (_capacity self) (_name self) (_entries self) (_stats self)
     (_on_enqueue self) (Some callback).

Definition reset_stats (self : t) : t :=
  let st := QueueStats.reset (_stats self) in
  let st := mkQueueStats (entries st) (exits st) (max_length st)
              (total_wait_time st) (area st) (_last_change_time st)
              (Z.of_nat (length (_entries self))) in
  with_content self (_entries self) st.

Definition __iter__ (self : t) : list T :=
  QueueEntry.item <$> _entries self.

(** The attributes [__init__] sets on the instance. *)
Definition __dict__ (self : t) : list (string * PyValue T C) :=
  [ ("_sim", VSim);
    ("_capacity", VInt (_capacity self));
    ("_name", VStr (_name self));
    ("_entries", VDeque (_entries self));
    ("_stats", VStats (_stats self));
    ("_on_enqueue", VCallback (_on_enqueue self));
    ("_on_dequeue", VCallback (_on_dequeue self)) ]%string.

(** The names the class body defines: the properties with their
    values, the methods bound to [self]. *)
Definition class_attrs (self : t) : list (string * PyValue T C) :=
  [ ("name", VStr (name self));
    ("stats", VStats (stats self));
    ("capacity", VInt (capacity self));
    ("is_empty", VBool (is_empty self));
    ("is_full", VBool (is_full self));
    ("__init__", VMethod "__init__");
    ("__len__", VMethod "__len__");
    ("enqueue", VMethod "enqueue");
    ("dequeue", VMethod "dequeue");
    ("peek", VMethod "peek");
    ("remove", VMethod "remove");
    ("clear", VMethod "clear");
    ("contains", VMethod "contains");
    ("on_enqueue", VMethod "on_enqueue");
    ("on_dequeue", VMethod "on_dequeue");
    ("reset_stats", VMethod "reset_stats");
    ("__iter__", VMethod "__iter__");
    ("__repr__", VMethod "__repr__") ]%string.

(** [self.<attr>] (what [object] itself provides is left out). *)
Definition getattr (self : t) (attr : string) : PyResult (PyValue T C) :=
  match attr_lookup attr (__dict__ self ++ class_attrs self) with
  | Some v => Ok v
  | None => Raise AttributeError
  end.

(** [for item in items: self.dequeue()] *)
Fixpoint dequeue_each {X} (now : float) (items : list X) (self : t)
  : t * list (Event T C) :=
  match items with
  | [] => (self, [])
  | _ :: items' =>
      let '(_, self, evs) := dequeue now self in
      let '(self, evs') := dequeue_each now items' self in
      (self, evs ++ evs')
  end.

Definition clear (now : float) (self : t)
  : PyResult (list (PyValue T C)) * t * list (Event T C) :=
  match getattr self "_items" with
  | Raise e => (Raise e, self, [])
  | Ok v =>
      match py_list v with
      | Raise e => (Raise e, self, [])
      | Ok items =>
          let '(self, evs) := dequeue_each now items self in
          (Ok items, self, evs)
      end
  end.

End Defs.
Arguments t : clear implicits.
End Queue.

(* ================================================================= *)
(** ** PriorityQueue *)

Module PriorityQueue.
Section Defs.
Context {T : Type} `{PyObject T}.

Record t : Type := mk {
  _priority_fn : T -> float;
  _capacity : Z;
  _name : string;
  _heap : list (PriorityItem.t T);
  _counter : Z;
  _stats : QueueStats
}.

(** [auto_name] is the value of [f"PriorityQueue_{id(self)}"]. *)
Definition __init__ (auto_name : string) (priority_fn : option (T -> float))
    (capacity : Z) (name : string) : t :=
  mk (match priority_fn with
      | Some f => f
      | None => fun x => 0%float
      end)
     capacity
     (if String.eqb name "" then auto_name else name)
     [] 0 QueueStats.init.

Definition name (self : t) : string := _name self.
Definition stats (self : t) : QueueStats := _stats self.

Definition __len__ (self : t) : Z := Z.of_nat (length (_heap self)).

Definition is_empty (self : t) : bool := __len__ self =? 0.

Definition is_full (self : t) : bool :=
  if _capacity self =? 0 then false
  else __len__ self >=? _capacity self.

Definition with_content (self : t) (heap : list (PriorityItem.t T))
    (counter : Z) (st : QueueStats) : t :=
  mk (_priority_fn self) (_capacity self) (_name self) heap counter st.

Definition enqueue (now : float) (item : T) (priority : option float)
    (self : t) : bool * t :=
  if is_full self then (false, self)
  else
    let priority :=
      match priority with
      | None => _priority_fn self item
      | Some p => p
      end in
    let counter := _counter self + 1 in
    let entry := PriorityItem.mk priority counter item now in
    (true,
     with_content self
       (heapq.heappush PriorityItem.__lt__ (_heap self) entry)
       counter
       (QueueStats.record_entry now (_stats self))).

Definition dequeue (now : float) (self : t) : option T * t :=
  if is_empty self then (None, self)
  else
    match heapq.heappop PriorityItem.__lt__ (_heap self) with
    | Some (entry, heap) =>
        let wait_time := (now - PriorityItem.entry_time entry)%float in
        (Some (PriorityItem.item entry),
         with_content self heap (_counter self)
           (QueueStats.record_exit now wait_time (_stats self)))
    | None => (None, self)
    end.

Definition peek (self : t) : option T :=
  if is_empty self then None
  else PriorityItem.item <$> (_heap self !! 0%nat).

Definition matches (item : T) (entry : PriorityItem.t T) : bool :=
  py_is_or_eq (PriorityItem.item entry) item.

(** The entry found, with the index it sits at (which stands for the
    identity of the wrapper object in what follows). *)
Definition _find_entry (item : T) (self : t)
  : option (nat * PriorityItem.t T) :=
  match find_index (matches item) (_heap self) with
  | Some i => (fun entry => (i, entry)) <$> (_heap self !! i)
  | None => None
  end.

Definition remove (now : float) (item : T) (self : t) : bool * t :=
  match _find_entry item self with
  | None => (false, self)
  | Some (i, entry) =>
      let heap := seq_remove PriorityItem.__eq__ entry i (_heap self) in
      let heap := heapq.heapify PriorityItem.__lt__ heap in
      let wait_time := (now - PriorityItem.entry_time entry)%float in
      (true,
       with_content self heap (_counter self)
         (QueueStats.record_exit now wait_time (_stats self)))
  end.

Definition update_priority (item : T) (new_priority : float) (self : t)
  : bool * t :=
  match _find_entry item self with
  | None => (false, self)
  | Some (i, entry) =>
      let heap := seq_remove PriorityItem.__eq__ entry i (_heap self) in
      let counter := _counter self + 1 in
      let new_entry :=
        PriorityItem.mk new_priority counter item
          (PriorityItem.entry_time entry) in
      (true,
       with_content self
         (heapq.heappush PriorityItem.__lt__ heap new_entry)
         counter (_stats self))
  end.

(** The attributes [__init__] sets on the instance. *)
Definition __dict__ {C} (self : t) : list (string * PyValue T C) :=
  [ ("_sim", VSim);
    ("_priority_fn", VFunction (_priority_fn self));
    ("_capacity", VInt (_capacity self));
    ("_name", VStr (_name self));
    ("_heap", VList (_heap self));
    ("_counter", VInt (_counter self));
    ("_stats", VStats (_stats self)) ]%string.

(** The names the class body defines. *)
Definition class_attrs {C} (self : t) : list (string * PyValue T C) :=
  [ ("name", VStr (name self));
    ("stats", VStats (stats self));
    ("is_empty", VBool (is_empty self));
    ("is_full", VBool (is_full self));
    ("__init__", VMethod "__init__");
    ("__len__", VMethod "__len__");
    ("enqueue", VMethod "enqueue");
    ("dequeue", VMethod "dequeue");
    ("peek", VMethod "peek");
    ("_find_entry", VMethod "_find_entry");
    ("remove", VMethod "remove");
    ("update_priority", VMethod "update_priority");
    ("__repr__", VMethod "__repr__") ]%string.

(** [self.<attr>] (what [object] itself provides is left out). *)
Definition getattr {C} (self : t) (attr : string) : PyResult (PyValue T C) :=
  match attr_lookup attr (__dict__ self ++ class_attrs self) with
  | Some v => Ok v
  | None => Raise AttributeError
  end.

End Defs.
Arguments t : clear implicits.
End PriorityQueue.


(* ================================================================= *)
(** ** Vocabulary of the properties *)

(** The heap order of [heapq]: no element is smaller than its parent. *)
Definition heap_edge {A} (lt : A -> A -> bool) (l : list A) (i : nat) : Prop :=
  forall x y, l !! i = Some x -> l !! ((i - 1) / 2)%nat = Some y -> lt x y = false.

Definition heap_ordered {A} (lt : A -> A -> bool) (l : list A) : Prop :=
  forall i, (0 < i)%nat -> heap_edge lt l i.

(** Heap order everywhere but between [pos] and its parent, where the
    children of [pos] are already in order with that parent. *)
Definition heap_ordered_but {A} (lt : A -> A -> bool) (l : list A)
    (pos : nat) : Prop :=
  (forall i, (0 < i)%nat -> i <> pos -> heap_edge lt l i)
  /\ (forall c x y, (0 < pos)%nat -> (0 < c)%nat -> ((c - 1) / 2)%nat = pos ->
        l !! c = Some x -> l !! ((pos - 1) / 2)%nat = Some y -> lt x y = false).

(** [not (b < a)] is a total preorder on the elements that satisfy [P]. *)
Record heap_preorder {A} (lt : A -> A -> bool) (P : A -> Prop) : Prop := {
  hp_irrefl : forall a, P a -> lt a a = false;
  hp_asym : forall a b, P a -> P b -> lt a b = true -> lt b a = false;
  hp_trans : forall a b c, P a -> P b -> P c ->
      lt b a = false -> lt c b = false -> lt c a = false
}.

(** The IEEE comparison behind [==] and [<]. *)
Definition float_cmp (x y : float) : option comparison :=
  SFcompare (Prim2SF x) (Prim2SF y).

(** *** Sequences of operations on a queue *)

Inductive queue_op (T C : Type) : Type :=
| QEnqueue (now : float) (item : T)
| QDequeue (now : float)
| QPeek
| QRemove (now : float) (item : T)
| QContains (item : T)
| QClear (now : float)
| QOnEnqueue (callback : C)
| QOnDequeue (callback : C)
| QResetStats.
Arguments QEnqueue {T C} now item.
Arguments QDequeue {T C} now.
Arguments QPeek {T C}.
Arguments QRemove {T C} now item.
Arguments QContains {T C} item.
Arguments QClear {T C} now.
Arguments QOnEnqueue {T C} callback.
Arguments QOnDequeue {T C} callback.
Arguments QResetStats {T C}.

(** The queue after one call (what the call returns is dropped; an
    exception is caught by the caller). *)
Definition queue_step {T C} `{PyObject T} (o : queue_op T C)
    (q : Queue.t T C) : Queue.t T C :=
  match o with
  | QEnqueue now item => (Queue.enqueue now item q).1.2
  | QDequeue now => (Queue.dequeue now q).1.2
  | QPeek => q
  | QRemove now item => (Queue.remove now item q).2
  | QContains item => q
  | QClear now => (Queue.clear now q).1.2
  | QOnEnqueue cb => Queue.on_enqueue cb q
  | QOnDequeue cb => Queue.on_dequeue cb q
  | QResetStats => Queue.reset_stats q
  end.

Definition queue_run {T C} `{PyObject T} (ops : list (queue_op T C))
    (q : Queue.t T C) : Queue.t T C :=
  foldl (fun q o => queue_step o q) q ops.

(** The number of items the queue held at its last [reset_stats] in
    [ops] ([r] when there is none). *)
Fixpoint held_at_reset {T C} `{PyObject T} (ops : list (queue_op T C))
    (q : Queue.t T C) (r : Z) : Z :=
  match ops with
  | [] => r
  | o :: ops' =>
      held_at_reset ops' (queue_step o q)
        (match o with QResetStats => Queue.__len__ q | _ => r end)
  end.

Inductive pqueue_op (T : Type) : Type :=
| PEnqueue (now : float) (item : T) (priority : option float)
| PDequeue (now : float)
| PPeek
| PRemove (now : float) (item : T)
| PUpdatePriority (item : T) (new_priority : float).
Arguments PEnqueue {T} now item priority.
Arguments PDequeue {T} now.
Arguments PPeek {T}.
Arguments PRemove {T} now item.
Arguments PUpdatePriority {T} item new_priority.

Definition pqueue_step {T} `{PyObject T} (o : pqueue_op T)
    (q : PriorityQueue.t T) : PriorityQueue.t T :=
  match o with
  | PEnqueue now item priority => (PriorityQueue.enqueue now item priority q).2
  | PDequeue now => (PriorityQueue.dequeue now q).2
  | PPeek => q
  | PRemove now item => (PriorityQueue.remove now item q).2
  | PUpdatePriority item p => (PriorityQueue.update_priority item p q).2
  end.

Definition pqueue_run {T} `{PyObject T} (ops : list (pqueue_op T))
    (q : PriorityQueue.t T) : PriorityQueue.t T :=
  foldl (fun q o => pqueue_step o q) q ops.

(** The tracker counts what the container holds, and [entries - exits]
    is off by [r]. *)
Definition accounted {T C} (q : Queue.t T C) (r : Z) : Prop :=
  QueueStats.current_length (Queue.stats q) = Queue.__len__ q
  /\ QueueStats.current_length (Queue.stats q)
     = entries (Queue.stats q) - exits (Queue.stats q) + r.

Definition pq_accounted {T} (q : PriorityQueue.t T) : Prop :=
  QueueStats.current_length (PriorityQueue.stats q) = PriorityQueue.__len__ q
  /\ QueueStats.current_length (PriorityQueue.stats q)
     = entries (PriorityQueue.stats q) - exits (PriorityQueue.stats q).

(** *** Enqueues followed by dequeues *)

(** An enqueue: the time it happens, the item, the priority argument. *)
Definition enq (T : Type) : Type := float * T * option float.

Definition enqueue_all {T} `{PyObject T} (es : list (enq T))
    (q : PriorityQueue.t T) : PriorityQueue.t T :=
  foldl (fun q '(now, item, p) => (PriorityQueue.enqueue now item p q).2) q es.

(** One [dequeue] per time of [nows]: what each returns, and the queue
    left. *)
Fixpoint dequeue_all {T} `{PyObject T} (nows : list float)
    (q : PriorityQueue.t T) : list (option T) * PriorityQueue.t T :=
  match nows with
  | [] => ([], q)
  | now :: nows' =>
      let '(r, q) := PriorityQueue.dequeue now q in
      let '(rs, q) := dequeue_all nows' q in
      (r :: rs, q)
  end.

(** The wrappers [n] successive [heappop]s take out. *)
Fixpoint pop_all {A} (lt : A -> A -> bool) (n : nat) (heap : list A) : list A :=
  match n with
  | O => []
  | S n' =>
      match heapq.heappop lt heap with
      | Some (r, heap') => r :: pop_all lt n' heap'
      | None => []
      end
  end.

(** The priority [enqueue] gives the wrapper. *)
Definition priority_of {T} (priority_fn : T -> float) (e : enq T) : float :=
  match e.2 with
  | Some p => p
  | None => priority_fn e.1.2
  end.

(** The wrappers of the enqueues [es], numbered from [k] on in the
    order of the enqueues. *)
Fixpoint stamped {T} (priority_fn : T -> float) (k : Z) (es : list (enq T))
    : list (PriorityItem.t T) :=
  match es with
  | [] => []
  | e :: es' =>
      PriorityItem.mk (priority_of priority_fn e) k e.1.2 e.1.1
      :: stamped priority_fn (k + 1) es'
  end.

(** The enqueues a new queue of capacity [capacity] accepts. *)
Definition accepted_by {X} (capacity : Z) (es : list X) : list X :=
  if capacity =? 0 then es else take (Z.to_nat capacity) es.

(** The wrappers of a priority queue carry distinct sequence numbers,
    none above the counter. *)
Definition stamps_ok {T} (q : PriorityQueue.t T) : Prop :=
  NoDup (PriorityItem.index <$> PriorityQueue._heap q)
  /\ Forall (fun w => PriorityItem.index w <= PriorityQueue._counter q)
       (PriorityQueue._heap q).

(** *** Items for the scenarios *)

(** An object with an [__eq__] that compares [size]: two jobs of one
    size are equal and still two objects. *)
Record Job : Set := mkJob { job_id : nat; size : Z }.

#[global] Instance Job_eq_dec : EqDecision Job.
Proof. solve_decision. Defined.

#[global] Instance Job_object : PyObject Job :=
  {| py_eq a b := size a =? size b |}.

Definition job1 : Job := mkJob 1 10.
Definition job2 : Job := mkJob 2 20.
Definition job3 : Job := mkJob 3 30.
Definition job4 : Job := mkJob 4 40.

(** Two jobs of one size: equal in value, two objects. *)
Definition twin1 : Job := mkJob 5 7.
Definition twin2 : Job := mkJob 6 7.

(** A measurement whose [__eq__] takes two values less than 10 apart
    as equal: an equality that is not transitive. *)
Record Reading : Set := mkReading { level : Z }.

#[global] Instance Reading_eq_dec : EqDecision Reading.
Proof. solve_decision. Defined.

#[global] Instance Reading_object : PyObject Reading :=
  {| py_eq a b := Z.abs (level a - level b) <? 10 |}.

(** Enqueues with the priorities 5, 1, 5, 3 at increasing times. *)
Definition enqueues_5_1_5_3 : list (enq Job) :=
  [ (0, job1, Some 5); (1, job2, Some 1); (2, job3, Some 5);
    (3, job4, Some 3) ]%float.

(** *** Heap order below a position *)

(** [p] lies in the subtree of the heap rooted at [s]. *)
Inductive heap_below (s : nat) : nat -> Prop :=
| heap_below_root : heap_below s s
| heap_below_left p : heap_below s p -> heap_below s (2 * p + 1)
| heap_below_right p : heap_below s p -> heap_below s (2 * p + 2).

(** Heap order between every element and its parent for the parents
    from position [s] on: what [heapify] has reached when it is done
    with position [s]. *)
Definition heap_ordered_from {A} (lt : A -> A -> bool) (s : nat)
    (l : list A) : Prop :=
  forall i, (0 < i)%nat -> (s <= (i - 1) / 2)%nat -> heap_edge lt l i.

(** *** Operations that keep the heap in order *)

(** Every operation but [update_priority], with number priorities for
    the enqueues. *)
Definition orderly_op {T} (priority_fn : T -> float) (o : pqueue_op T) : Prop :=
  match o with
  | PEnqueue now item p => PyFloat.is_number (priority_of priority_fn (now, item, p))
  | PUpdatePriority _ _ => False
  | _ => True
  end.

(** The heap list is in heap order and holds number priorities. *)
Definition pq_ordered {T} (q : PriorityQueue.t T) : Prop :=
  heap_ordered PriorityItem.__lt__ (PriorityQueue._heap q)
  /\ Forall (fun w => PyFloat.is_number (PriorityItem.priority w))
       (PriorityQueue._heap q).

(** Removals on a priority queue that holds the jobs 1 to 4 with the
    priorities 5, 1, 5, 3. *)
Definition enqueues_then_removes : list (pqueue_op Job) :=
  [ PEnqueue 0 job1 (Some 5); PEnqueue 1 job2 (Some 1);
    PEnqueue 2 job3 (Some 5); PEnqueue 3 job4 (Some 3);
    PRemove 4 job2; PDequeue 5; PEnqueue 6 job2 (Some 4) ]%float.

(** *** Enqueues followed by dequeues on the FIFO queue *)

Definition fifo_enqueue_all {T C} `{PyObject T} (xs : list (float * T))
    (q : Queue.t T C) : Queue.t T C :=
  foldl (fun q x => (Queue.enqueue x.1 x.2 q).1.2) q xs.

(** One [dequeue] per time of [nows]: what each returns, and the queue
    left. *)
Fixpoint fifo_dequeue_all {T C} `{PyObject T} (nows : list float)
    (q : Queue.t T C) : list (option T) * Queue.t T C :=
  match nows with
  | [] => ([], q)
  | now :: nows' =>
      let '(r, q, _) := Queue.dequeue now q in
      let '(rs, q) := fifo_dequeue_all nows' q in
      (r :: rs, q)
  end.

(** *** Bounds of the statistics *)

(** The counters are not negative, and the maximum covers the current
    length once an entry has been recorded. *)
Definition stats_bounded (s : QueueStats) : Prop :=
  0 <= entries s /\ 0 <= exits s /\ 0 <= max_length s
  /\ (0 < entries s -> QueueStats.current_length s <= max_length s).

(** How one operation other than [reset_stats] changes the statistics:
    not at all, by an entry, or by an exit. *)
Inductive stats_step (s : QueueStats) : QueueStats -> Prop :=
| stats_same : stats_step s s
| stats_entry now : stats_step s (QueueStats.record_entry now s)
| stats_exit now wait : stats_step s (QueueStats.record_exit now wait s).

(** *** What a scan finds first *)

(** [e], at index [i], is the first element of [l] that passes the
    test [p]. *)
Definition first_match {A} (p : A -> bool) (l : list A) (i : nat) (e : A)
  : Prop :=
  l !! i = Some e /\ p e = true
  /\ forall j e', (j < i)%nat -> l !! j = Some e' -> p e' = false.

(** *** Items that are equal only to themselves *)

(** No two of the objects [xs] are equal without being one object, as
    it is for a class that does not define [__eq__]. *)
Definition equal_only_to_itself {T} `{PyObject T} (xs : list T) : Prop :=
  Forall (fun x => Forall (fun y => py_is_or_eq x y = true -> x = y) xs) xs.

(** The items a run hands to [enqueue] and to [update_priority]. *)
Definition pq_items {T} (ops : list (pqueue_op T)) : list T :=
  omap (fun o => match o with
                 | PEnqueue _ item _ => Some item
                 | PUpdatePriority item _ => Some item
                 | _ => None
                 end) ops.


(** Enqueues with the priorities 1, NaN, 2, 0. *)
Definition enqueues_1_nan_2_0 : list (enq Job) :=
  [ (0, job1, Some 1); (1, job2, Some nan); (2, job3, Some 2);
    (3, job4, Some 0) ]%float.

(* ================================================================= *)
(** * Properties *)

(** ** Lists as arrays *)

Section array_facts.
Context {A : Type}.
Implicit Types l : list A.

Lemma insert_swap_cons l j a b :
  l !! j = Some b -> b :: <[j:=a]> l ≡ₚ a :: l.
Proof.
  revert j. induction l as [|y l IH]; intros [|j] Hj; simplify_eq/=.
  - apply perm_swap.
  - rewrite perm_swap. rewrite (IH j Hj). apply perm_swap.
Qed.

Lemma insert_swap l i j a b :
  l !! i = Some a -> l !! j = Some b -> <[i:=b]> (<[j:=a]> l) ≡ₚ l.
Proof.
  revert i j. induction l as [|y l IH]; intros [|i] [|j] Hi Hj; simplify_eq/=.
  - done.
  - by apply insert_swap_cons.
  - by apply insert_swap_cons.
  - f_equiv. by apply IH.
Qed.

Lemma seq_remove_length (eqb : A -> A -> bool) x i l :
  (i < length l)%nat -> length l = S (length (seq_remove eqb x i l)).
Proof.
  revert i. induction l as [|y l IH]; intros [|i] Hi; simpl in *; try lia.
  destruct (eqb y x); simpl; [done|]. rewrite <- IH; [done|lia].
Qed.

Lemma find_index_Some (p : A -> bool) l i :
  find_index p l = Some i ->
  exists x, l !! i = Some x /\ p x = true
            /\ forall j y, (j < i)%nat -> l !! j = Some y -> p y = false.
Proof.
  revert i. induction l as [|y l IH]; intros i Hi; simpl in *; [done|].
  destruct (p y) eqn:Hy.
  - simplify_eq. exists y. split_and!; [done..|]. intros; lia.
  - destruct (find_index p l) as [k|]; simplify_eq/=.
    destruct (IH k eq_refl) as (x & Hx & Hpx & Hlt).
    exists x. split_and!; [done..|].
    intros [|j] z Hj Hz; simplify_eq/=; [done|]. eapply Hlt; [|done]. lia.
Qed.

Lemma find_index_None (p : A -> bool) l :
  find_index p l = None <-> forall x, x ∈ l -> p x = false.
Proof.
  induction l as [|y l IH]; simpl.
  - split; [|done]. intros _ x Hx. by apply elem_of_nil in Hx.
  - destruct (p y) eqn:Hy.
    + split; [done|]. intros Hall. rewrite Hall in Hy; [done|]. left.
    + destruct (find_index p l); simpl.
      * split; [done|]. intros Hall.
        assert (Some n = None) as Hn; [|done].
        apply IH. intros x Hx. apply Hall. by right.
      * split; [|done]. intros _ x [->|Hx]%elem_of_cons; [done|].
        by apply IH.
Qed.

Lemma seq_remove_is_delete (eqb : A -> A -> bool) x i l :
  (i < length l)%nat ->
  exists j y, (j <= i)%nat /\ l !! j = Some y
              /\ seq_remove eqb x i l = delete j l.
Proof.
  revert i. induction l as [|z l IH]; intros [|i] Hi; simpl in *; try lia.
  - exists 0%nat, z. split_and!; [lia|done..].
  - destruct (eqb z x).
    + exists 0%nat, z. split_and!; [lia|done..].
    + destruct (IH i) as (j & y & Hj & Hy & Heq); [lia|].
      exists (S j), y. split_and!; [lia|done|]. simpl. by rewrite Heq.
Qed.

Lemma seq_remove_at (eqb : A -> A -> bool) x i l :
  (i < length l)%nat ->
  (forall j y, (j < i)%nat -> l !! j = Some y -> eqb y x = false) ->
  seq_remove eqb x i l = delete i l.
Proof.
  revert i. induction l as [|z l IH]; intros [|i] Hi Hnone; simpl in *;
    try lia; [done|].
  rewrite (Hnone 0%nat z) by (done || lia). f_equal.
  apply IH; [lia|]. intros j y Hj Hy. apply (Hnone (S j)); [lia|done].
Qed.

Lemma find_index_first (p : A -> bool) l i x :
  l !! i = Some x -> p x = true ->
  (forall j y, (j < i)%nat -> l !! j = Some y -> p y = false) ->
  find_index p l = Some i.
Proof.
  revert i. induction l as [|z l IH]; intros [|i] Hi Hx Hnone; simplify_eq/=.
  - by rewrite Hx.
  - rewrite (Hnone 0%nat z) by (done || lia).
    rewrite (IH i); [done..|]. intros j y Hj Hy. apply (Hnone (S j)); [lia|done].
Qed.

Lemma existsb_Exists (p : A -> bool) l :
  existsb p l = true <-> Exists (fun x => p x = true) l.
Proof.
  induction l as [|z l IH]; simpl.
  - split; [done|]. by intros ?%Exists_nil.
  - rewrite orb_true_iff, Exists_cons, IH. done.
Qed.

End array_facts.

(** ** The first match of a scan *)

Section first_matches.
Context {A : Type}.
Implicit Types l : list A.

Lemma first_match_find_index (p : A -> bool) l i e :
  first_match p l i e <-> find_index p l = Some i /\ l !! i = Some e.
Proof.
  split.
  - intros (Hi & He & Hnone). split; [|done]. by apply (find_index_first _ _ _ e).
  - intros [Hfind Hi]. destruct (find_index_Some _ _ _ Hfind) as (x & Hx & Hpx & Hlt).
    rewrite Hi in Hx. injection Hx as <-. by split_and!.
Qed.

Lemma find_index_Forall (p : A -> bool) l :
  find_index p l = None <-> Forall (fun x => p x = false) l.
Proof. rewrite find_index_None, Forall_forall. done. Qed.

(** [seq.remove(x)] takes out the first element that equals [x], and
    the element at [i], which is [x] itself, when none before it does. *)
Lemma seq_remove_first (eqb : A -> A -> bool) x i l :
  (i < length l)%nat ->
  exists j, (j <= i)%nat /\ seq_remove eqb x i l = delete j l
    /\ (forall k y, (k < j)%nat -> l !! k = Some y -> eqb y x = false)
    /\ ((j < i)%nat -> exists y, l !! j = Some y /\ eqb y x = true).
Proof.
  revert i. induction l as [|z l IH]; intros [|i] Hi; simpl in *; try lia.
  - exists 0%nat. split_and!; [lia|done|intros; lia|intros; lia].
  - destruct (eqb z x) eqn:Hz.
    + exists 0%nat. split_and!; [lia|done|intros; lia|]. intros _. by exists z.
    + destruct (IH i) as (j & Hj & Heq & Hbefore & Hat); [lia|].
      exists (S j). split_and!; [lia|by rewrite Heq| |].
      * intros [|k] y Hk Hy; simplify_eq/=; [done|]. apply (Hbefore k); [lia|done].
      * intros Hlt. destruct Hat as (y & Hy & Hyx); [lia|]. by exists y.
Qed.

End first_matches.

(** ** heapq keeps the elements *)

Ltac loop_exit := simplify_eq; split_and?; first [done | lia].

Section heapq_perm.
Context {A : Type} (lt : A -> A -> bool).
Implicit Types heap : list A.

Lemma _siftdown_loop_length fuel heap x startpos pos heap' pos' :
  heapq._siftdown_loop lt fuel heap x startpos pos = (heap', pos') ->
  length heap' = length heap /\ (pos' <= pos)%nat.
Proof.
  revert heap pos. induction fuel as [|fuel IH]; intros heap pos Hrun;
    cbn [heapq._siftdown_loop] in Hrun; [loop_exit|].
  destruct (startpos <? pos)%nat eqn:Hlt; [|loop_exit].
  destruct (heap !! ((pos - 1) / 2)%nat) as [parent|] eqn:Hpar; [|loop_exit].
  destruct (lt x parent); [|loop_exit].
  apply IH in Hrun as [Hlen Hle]. rewrite length_insert in Hlen.
  split; [done|]. lia.
Qed.

Lemma _siftdown_loop_perm fuel heap x startpos pos heap' pos' :
  heapq._siftdown_loop lt fuel heap x startpos pos = (heap', pos') ->
  (pos < length heap)%nat ->
  <[pos':=x]> heap' ≡ₚ <[pos:=x]> heap.
Proof.
  revert heap pos. induction fuel as [|fuel IH]; intros heap pos Hrun Hpos;
    cbn [heapq._siftdown_loop] in Hrun; [by simplify_eq|].
  destruct (startpos <? pos)%nat eqn:Hlt; [|by simplify_eq].
  apply Nat.ltb_lt in Hlt.
  destruct (heap !! ((pos - 1) / 2)%nat) as [parent|] eqn:Hpar; [|by simplify_eq].
  destruct (lt x parent); [|by simplify_eq].
  apply IH in Hrun.
  2:{ rewrite length_insert. by eapply lookup_lt_Some. }
  rewrite Hrun.
  rewrite <- (list_insert_insert_eq heap pos parent x).
  apply insert_swap.
  - rewrite list_lookup_insert_ne; [done|]. lia.
  - by apply list_lookup_insert_eq.
Qed.

Lemma _siftdown_length heap startpos pos :
  length (heapq._siftdown lt heap startpos pos) = length heap.
Proof.
  unfold heapq._siftdown. destruct (heap !! pos) as [x|]; [|done].
  destruct (heapq._siftdown_loop _ _ _ _ _ _) as [heap' pos'] eqn:Hrun.
  apply _siftdown_loop_length in Hrun as [Hlen _].
  by rewrite length_insert.
Qed.

Lemma _siftdown_perm heap startpos pos :
  heapq._siftdown lt heap startpos pos ≡ₚ heap.
Proof.
  unfold heapq._siftdown. destruct (heap !! pos) as [x|] eqn:Hx; [|done].
  destruct (heapq._siftdown_loop _ _ _ _ _ _) as [heap' pos'] eqn:Hrun.
  apply _siftdown_loop_perm in Hrun; [|by eapply lookup_lt_Some].
  rewrite Hrun. by rewrite list_insert_id.
Qed.

Lemma _siftup_loop_length fuel heap endpos pos heap' pos' :
  heapq._siftup_loop lt fuel heap endpos pos = (heap', pos') ->
  length heap' = length heap /\ (pos <= pos')%nat.
Proof.
  revert heap pos. induction fuel as [|fuel IH]; intros heap pos Hrun;
    cbn [heapq._siftup_loop] in Hrun; [loop_exit|].
  destruct (2 * pos + 1 <? endpos)%nat; [|loop_exit].
  destruct (heap !! (2 * pos + 1)%nat) as [child|]; [|loop_exit].
  destruct (heap !! (2 * pos + 1 + 1)%nat) as [rchild|].
  - destruct ((2 * pos + 1 + 1 <? endpos)%nat && negb (lt child rchild)).
    + destruct (heap !! (2 * pos + 1 + 1)%nat); [|loop_exit].
      apply IH in Hrun as [Hlen Hle]. rewrite length_insert in Hlen.
      split; [done|lia].
    + destruct (heap !! (2 * pos + 1)%nat); [|loop_exit].
      apply IH in Hrun as [Hlen Hle]. rewrite length_insert in Hlen.
      split; [done|lia].
  - destruct (heap !! (2 * pos + 1)%nat); [|loop_exit].
    apply IH in Hrun as [Hlen Hle]. rewrite length_insert in Hlen.
    split; [done|lia].
Qed.

Lemma _siftup_loop_bound fuel heap endpos pos heap' pos' :
  heapq._siftup_loop lt fuel heap endpos pos = (heap', pos') ->
  (pos < endpos)%nat -> (pos' < endpos)%nat.
Proof.
  revert heap pos. induction fuel as [|fuel IH]; intros heap pos Hrun Hpos;
    cbn [heapq._siftup_loop] in Hrun; [loop_exit|].
  destruct (2 * pos + 1 <? endpos)%nat eqn:Hlt; [|loop_exit].
  apply Nat.ltb_lt in Hlt.
  destruct (heap !! (2 * pos + 1)%nat) as [child|]; [|loop_exit].
  destruct (heap !! (2 * pos + 1 + 1)%nat) as [rchild|].
  - destruct (2 * pos + 1 + 1 <? endpos)%nat eqn:Hrlt; cbn [andb] in Hrun.
    + apply Nat.ltb_lt in Hrlt. destruct (negb (lt child rchild)).
      * destruct (heap !! (2 * pos + 1 + 1)%nat); [|loop_exit]. by eapply IH.
      * destruct (heap !! (2 * pos + 1)%nat); [|loop_exit]. by eapply IH.
    + destruct (heap !! (2 * pos + 1)%nat); [|loop_exit]. by eapply IH.
  - destruct (heap !! (2 * pos + 1)%nat); [|loop_exit]. by eapply IH.
Qed.

Lemma _siftup_loop_perm fuel heap endpos pos heap' pos' x :
  heapq._siftup_loop lt fuel heap endpos pos = (heap', pos') ->
  (pos < length heap)%nat ->
  <[pos':=x]> heap' ≡ₚ <[pos:=x]> heap.
Proof.
  revert heap pos. induction fuel as [|fuel IH]; intros heap pos Hrun Hpos;
    cbn [heapq._siftup_loop] in Hrun; [by simplify_eq|].
  destruct (2 * pos + 1 <? endpos)%nat; [|by simplify_eq].
  assert (forall c smaller,
    heap !! c = Some smaller -> c <> pos ->
    heapq._siftup_loop lt fuel (<[pos:=smaller]> heap) endpos c = (heap', pos') ->
    <[pos':=x]> heap' ≡ₚ <[pos:=x]> heap) as Hstep.
  { intros c smaller Hc Hne Hrun'. apply IH in Hrun'.
    2:{ rewrite length_insert. by eapply lookup_lt_Some. }
    rewrite Hrun'.
    rewrite <- (list_insert_insert_eq heap pos smaller x).
    apply insert_swap.
    - by rewrite list_lookup_insert_ne.
    - by apply list_lookup_insert_eq. }
  destruct (heap !! (2 * pos + 1)%nat) as [child|] eqn:Hc; [|by simplify_eq].
  destruct (heap !! (2 * pos + 1 + 1)%nat) as [rchild|] eqn:Hr.
  - destruct ((2 * pos + 1 + 1 <? endpos)%nat && negb (lt child rchild)).
    + rewrite Hr in Hrun. eapply Hstep; [exact Hr| lia |done].
    + rewrite Hc in Hrun. eapply Hstep; [exact Hc| lia |done].
  - rewrite Hc in Hrun. eapply Hstep; [exact Hc| lia |done].
Qed.

Lemma _siftup_perm heap pos : heapq._siftup lt heap pos ≡ₚ heap.
Proof.
  unfold heapq._siftup. destruct (heap !! pos) as [x|] eqn:Hx; [|done].
  destruct (heapq._siftup_loop _ _ _ _ _) as [heap' pos'] eqn:Hrun.
  rewrite _siftdown_perm.
  apply (_siftup_loop_perm _ _ _ _ _ _ x) in Hrun; [|by eapply lookup_lt_Some].
  rewrite Hrun. by rewrite list_insert_id.
Qed.

Lemma heapify_perm heap : heapq.heapify lt heap ≡ₚ heap.
Proof.
  unfold heapq.heapify. generalize (reverse (seq 0 (length heap / 2))).
  intros js. revert heap. induction js as [|j js IH]; intros heap; simpl; [done|].
  rewrite IH. apply _siftup_perm.
Qed.

Lemma heappush_perm heap item : heapq.heappush lt heap item ≡ₚ item :: heap.
Proof.
  unfold heapq.heappush. rewrite _siftdown_perm.
  by rewrite Permutation_app_comm.
Qed.

Lemma heappop_None heap : heapq.heappop lt heap = None <-> heap = [].
Proof.
  unfold heapq.heappop. destruct (last heap) as [lastelt|] eqn:Hlast.
  - split.
    + by destruct (take _ _ !! _).
    + intros ->. done.
  - apply last_None in Hlast. by subst.
Qed.

Lemma heappop_perm heap r heap' :
  heapq.heappop lt heap = Some (r, heap') -> r :: heap' ≡ₚ heap.
Proof.
  unfold heapq.heappop. destruct (last heap) as [lastelt|] eqn:Hlast; [|done].
  apply last_Some in Hlast as [body ->].
  rewrite length_app. simpl.
  replace (length body + 1 - 1)%nat with (length body) by lia.
  rewrite take_app_length.
  destruct body as [|r0 body]; simpl; intros ?; simplify_eq; [done|].
  rewrite _siftup_perm. simpl. f_equiv. by rewrite Permutation_app_comm.
Qed.

(** The step budget is never the reason a loop stops: any budget that
    covers the distance left gives the same result. *)
Lemma _siftdown_loop_fuel fuel fuel' heap x startpos pos :
  (pos <= fuel)%nat -> (pos <= fuel')%nat ->
  heapq._siftdown_loop lt fuel heap x startpos pos
  = heapq._siftdown_loop lt fuel' heap x startpos pos.
Proof.
  revert fuel' heap pos. induction fuel as [|fuel IH];
    intros [|fuel'] heap pos Hfuel Hfuel'; cbn [heapq._siftdown_loop]; try done.
  - replace pos with 0%nat by lia. by destruct (startpos <? 0)%nat eqn:Hlt;
      [apply Nat.ltb_lt in Hlt; lia|].
  - replace pos with 0%nat by lia. by destruct (startpos <? 0)%nat eqn:Hlt;
      [apply Nat.ltb_lt in Hlt; lia|].
  - destruct (startpos <? pos)%nat eqn:Hlt; [|done].
    apply Nat.ltb_lt in Hlt.
    destruct (heap !! ((pos - 1) / 2)%nat) as [parent|]; [|done].
    destruct (lt x parent); [|done]. apply IH; lia.
Qed.

Lemma _siftup_loop_fuel fuel fuel' heap endpos pos :
  (endpos <= pos + fuel)%nat -> (endpos <= pos + fuel')%nat ->
  heapq._siftup_loop lt fuel heap endpos pos
  = heapq._siftup_loop lt fuel' heap endpos pos.
Proof.
  revert fuel' heap pos. induction fuel as [|fuel IH];
    intros [|fuel'] heap pos Hfuel Hfuel'; cbn [heapq._siftup_loop]; try done.
  - by destruct (2 * pos + 1 <? endpos)%nat eqn:Hlt;
      [apply Nat.ltb_lt in Hlt; lia|].
  - by destruct (2 * pos + 1 <? endpos)%nat eqn:Hlt;
      [apply Nat.ltb_lt in Hlt; lia|].
  - destruct (2 * pos + 1 <? endpos)%nat eqn:Hlt; [|done].
    destruct (heap !! (2 * pos + 1)%nat) as [child|]; [|done].
    destruct (heap !! (2 * pos + 1 + 1)%nat) as [rchild|].
    + destruct ((2 * pos + 1 + 1 <? endpos)%nat && negb (lt child rchild)).
      * destruct (heap !! (2 * pos + 1 + 1)%nat); [|done]. apply IH; lia.
      * destruct (heap !! (2 * pos + 1)%nat); [|done]. apply IH; lia.
    + destruct (heap !! (2 * pos + 1)%nat); [|done]. apply IH; lia.
Qed.

End heapq_perm.

(** [heappop] returns the element at index 0. *)
Lemma heappop_head {A} (lt : A -> A -> bool) (heap : list A) r heap' :
  heapq.heappop lt heap = Some (r, heap') -> heap !! 0%nat = Some r.
Proof.
  unfold heapq.heappop. destruct (last heap) as [lastelt|] eqn:Hlast; [|done].
  apply last_Some in Hlast as [body ->].
  rewrite length_app. simpl.
  replace (length body + 1 - 1)%nat with (length body) by lia.
  rewrite take_app_length.
  destruct (body !! 0%nat) as [r0|] eqn:Hr0; intros [= <- <-].
  - by apply lookup_app_l_Some.
  - apply lookup_ge_None in Hr0. by destruct body; [|simpl in Hr0; lia].
Qed.

(** ** heapq keeps the heap order *)

Section heapq_order.
Context {A : Type} (lt : A -> A -> bool) (P : A -> Prop).
Context (Hord : heap_preorder lt P).
Implicit Types heap : list A.

Lemma heap_ordered_short heap : (length heap <= 1)%nat -> heap_ordered lt heap.
Proof.
  intros Hlen i Hi x y Hx _. apply lookup_lt_Some in Hx. lia.
Qed.

Lemma heap_ordered_app heap k : heap_ordered lt (heap ++ k) -> heap_ordered lt heap.
Proof.
  intros Hheap i Hi x y Hx Hy. apply (Hheap i Hi).
  - by apply lookup_app_l_Some.
  - by apply lookup_app_l_Some.
Qed.

Lemma heap_root_minimal heap r :
  heap_ordered lt heap -> Forall P heap -> heap !! 0%nat = Some r ->
  forall i x, heap !! i = Some x -> lt x r = false.
Proof.
  intros Hheap HP Hr i. induction (lt_wf i) as [i _ IH]. intros x Hx.
  destruct (decide (i = 0%nat)) as [->|Hi].
  - simplify_eq. apply (hp_irrefl _ _ Hord). by eapply Forall_lookup_1.
  - destruct (lookup_lt_is_Some_2 heap ((i - 1) / 2)%nat) as [y Hy].
    { apply lookup_lt_Some in Hx. lia. }
    apply (hp_trans _ _ Hord r y x); try by eapply Forall_lookup_1.
    + apply (IH ((i - 1) / 2)%nat); [lia|done].
    + apply (Hheap i); [lia|done..].
Qed.

Lemma _siftdown_loop_ordered fuel heap x pos heap' pos' :
  heapq._siftdown_loop lt fuel heap x 0 pos = (heap', pos') ->
  (pos <= fuel)%nat -> (pos < length heap)%nat ->
  Forall P heap -> P x ->
  heap_ordered_but lt (<[pos:=x]> heap) pos ->
  heap_ordered lt (<[pos':=x]> heap').
Proof.
  revert heap pos. induction fuel as [|fuel IH];
    intros heap pos Hrun Hfuel Hpos HP Hx [Hedges Hgrand];
    cbn [heapq._siftdown_loop] in Hrun.
  { simplify_eq. intros i Hi. apply Hedges; [done|lia]. }
  destruct (0 <? pos)%nat eqn:Hlt.
  2:{ apply Nat.ltb_ge in Hlt. simplify_eq. intros i Hi. apply Hedges; [done|lia]. }
  apply Nat.ltb_lt in Hlt.
  destruct (lookup_lt_is_Some_2 heap ((pos - 1) / 2)%nat) as [parent Hpar]; [lia|].
  rewrite Hpar in Hrun.
  assert (P parent) as Hparent by (by eapply Forall_lookup_1).
  assert (<[pos:=x]> heap !! pos = Some x) as Hat by (by apply list_lookup_insert_eq).
  assert (<[pos:=x]> heap !! ((pos - 1) / 2)%nat = Some parent) as Hat'.
  { rewrite list_lookup_insert_ne; [done|lia]. }
  destruct (lt x parent) eqn:Hcmp.
  2:{ simplify_eq. intros i Hi. destruct (decide (i = pos')) as [->|Hne].
      - intros x' y' Hx' Hy'. by simplify_eq.
      - by apply Hedges. }
  assert (lt parent x = false) as Hle by (by apply (hp_asym _ _ Hord)).
  assert (forall k z, <[pos:=x]> heap !! k = Some z -> P z) as HPL.
  { intros k z Hz. destruct (decide (pos = k)) as [->|Hk].
    - by simplify_eq.
    - rewrite list_lookup_insert_ne in Hz by done. by eapply Forall_lookup_1. }
  eapply IH; [exact Hrun|lia|rewrite length_insert; lia|by apply Forall_insert|done|].
  set (pp := ((pos - 1) / 2)%nat) in *.
  assert (forall k, k <> pp -> k <> pos ->
    <[pp:=x]> (<[pos:=parent]> heap) !! k = <[pos:=x]> heap !! k) as Hother.
  { intros k ? ?. by rewrite !list_lookup_insert_ne. }
  assert (<[pp:=x]> (<[pos:=parent]> heap) !! pp = Some x) as Hnew.
  { apply list_lookup_insert_eq. rewrite length_insert. lia. }
  assert (<[pp:=x]> (<[pos:=parent]> heap) !! pos = Some parent) as Hnew'.
  { rewrite list_lookup_insert_ne by lia. by apply list_lookup_insert_eq. }
  split.
  - intros i Hi Hne x' y' Hx' Hy'.
    destruct (decide (i = pos)) as [->|Hipos].
    { fold pp in Hy'. rewrite Hnew' in Hx'. rewrite Hnew in Hy'.
      by simplify_eq. }
    rewrite Hother in Hx' by done.
    destruct (decide (((i - 1) / 2)%nat = pp)) as [Heq|Hneq].
    { rewrite Heq, Hnew in Hy'. injection Hy' as <-.
      apply (hp_trans _ _ Hord x parent x'); eauto.
      apply (Hedges i Hi Hipos); [done|]. by rewrite Heq. }
    destruct (decide (((i - 1) / 2)%nat = pos)) as [Heq|Hneq'].
    { rewrite Heq, Hnew' in Hy'. injection Hy' as <-.
      destruct (lookup_lt_is_Some_2 (<[pos:=x]> heap) ((pp - 1) / 2)%nat)
        as [g Hg]; [rewrite length_insert; lia|].
      eapply (Hgrand i); eauto. }
    rewrite Hother in Hy' by done. by apply (Hedges i Hi Hipos).
  - intros c x' y' Hpp Hc Hcp Hx' Hy'.
    rewrite Hother in Hy' by lia.
    assert (lt parent y' = false) as Hup.
    { apply (Hedges pp); [lia|lia|done..]. }
    destruct (decide (c = pos)) as [->|Hcpos].
    { rewrite Hnew' in Hx'. by injection Hx' as <-. }
    rewrite Hother in Hx' by lia.
    apply (hp_trans _ _ Hord y' parent x'); eauto.
    apply (Hedges c Hc Hcpos); [done|]. by rewrite Hcp.
Qed.

Lemma _siftdown_ordered heap pos :
  (pos < length heap)%nat -> Forall P heap ->
  heap_ordered_but lt heap pos ->
  heap_ordered lt (heapq._siftdown lt heap 0 pos).
Proof.
  intros Hpos HP Hbut. unfold heapq._siftdown.
  destruct (lookup_lt_is_Some_2 heap pos Hpos) as [x Hx]. rewrite Hx.
  destruct (heapq._siftdown_loop _ _ _ _ _ _) as [heap' pos'] eqn:Hrun.
  eapply _siftdown_loop_ordered; [exact Hrun|lia|done|done|..].
  - by eapply Forall_lookup_1.
  - by rewrite list_insert_id.
Qed.

Lemma heappush_ordered heap item :
  heap_ordered lt heap -> Forall P heap -> P item ->
  heap_ordered lt (heapq.heappush lt heap item).
Proof.
  intros Hheap HP Hitem. unfold heapq.heappush.
  rewrite length_app. simpl.
  replace (length heap + 1 - 1)%nat with (length heap) by lia.
  apply _siftdown_ordered.
  - rewrite length_app. simpl. lia.
  - apply Forall_app. split; [done|]. by apply Forall_singleton.
  - split.
    + intros i Hi Hne x y Hx Hy.
      assert (i < length heap)%nat.
      { apply lookup_lt_Some in Hx. rewrite length_app in Hx. simpl in Hx. lia. }
      rewrite lookup_app_l in Hx by lia. rewrite lookup_app_l in Hy by lia.
      by apply (Hheap i).
    + intros c x y _ Hc Hcp Hx _. apply lookup_lt_Some in Hx.
      rewrite length_app in Hx. simpl in Hx. lia.
Qed.

Lemma _siftup_loop_ordered fuel heap pos heap' pos' :
  heapq._siftup_loop lt fuel heap (length heap) pos = (heap', pos') ->
  (pos < length heap)%nat -> (length heap <= pos + fuel)%nat ->
  Forall P heap ->
  (forall i, (0 < i)%nat -> (((i - 1) / 2)%nat = 0%nat -> pos <> 0%nat) ->
             heap_edge lt heap i) ->
  Forall P heap' /\ (length heap <= 2 * pos' + 1)%nat
  /\ (pos' <> 0%nat -> heap_ordered lt heap').
Proof.
  remember (length heap) as endpos eqn:Hend.
  revert heap pos Hend. induction fuel as [|fuel IH];
    intros heap pos Hend Hrun Hpos Hfuel HP Hinv;
    cbn [heapq._siftup_loop] in Hrun; [lia|].
  destruct (2 * pos + 1 <? endpos)%nat eqn:Hlt.
  2:{ apply Nat.ltb_ge in Hlt. simplify_eq. split_and!; [done|lia|].
      intros Hne i Hi. apply Hinv; [done|]. by intros _. }
  apply Nat.ltb_lt in Hlt.
  assert (forall c smaller,
    heap !! c = Some smaller -> (2 * pos + 1 <= c <= 2 * pos + 2)%nat ->
    (forall o z, (2 * pos + 1 <= o <= 2 * pos + 2)%nat -> heap !! o = Some z ->
                 lt z smaller = false) ->
    heapq._siftup_loop lt fuel (<[pos:=smaller]> heap) endpos c = (heap', pos') ->
    Forall P heap' /\ (endpos <= 2 * pos' + 1)%nat
    /\ (pos' <> 0%nat -> heap_ordered lt heap')) as Hstep.
  { intros c smaller Hc Hrange Hmin Hrun'.
    assert (P smaller) as Hsm by (by eapply Forall_lookup_1).
    eapply (IH (<[pos:=smaller]> heap) c); [by rewrite length_insert|exact Hrun'|..].
    - apply lookup_lt_Some in Hc. lia.
    - lia.
    - by apply Forall_insert.
    - intros i Hi _ x y Hx Hy.
      destruct (decide (((i - 1) / 2)%nat = pos)) as [Hpar|Hpar].
      + rewrite Hpar, list_lookup_insert_eq in Hy by lia. injection Hy as <-.
        rewrite list_lookup_insert_ne in Hx by lia.
        apply (Hmin i); [lia|done].
      + rewrite list_lookup_insert_ne in Hy by done.
        destruct (decide (i = pos)) as [->|Hipos].
        * rewrite list_lookup_insert_eq in Hx by lia. injection Hx as <-.
          destruct (lookup_lt_is_Some_2 heap pos) as [h Hh]; [lia|].
          assert (P h) by (by eapply Forall_lookup_1).
          assert (P y) by (by eapply Forall_lookup_1).
          apply (hp_trans _ _ Hord y h smaller); try done.
          -- apply (Hinv pos); [lia|lia|done..].
          -- apply (Hinv c); [lia|lia|done|].
             replace ((c - 1) / 2)%nat with pos by lia. done.
        * rewrite list_lookup_insert_ne in Hx by done.
          apply (Hinv i); [done|lia|done..]. }
  destruct (heap !! (2 * pos + 1)%nat) as [child|] eqn:Hc.
  2:{ apply lookup_ge_None in Hc. lia. }
  assert (P child) by (by eapply Forall_lookup_1).
  destruct (heap !! (2 * pos + 1 + 1)%nat) as [rchild|] eqn:Hr.
  - assert (P rchild) by (by eapply Forall_lookup_1).
    destruct (2 * pos + 1 + 1 <? endpos)%nat eqn:Hrlt.
    2:{ apply Nat.ltb_ge in Hrlt. apply lookup_lt_Some in Hr. lia. }
    destruct (lt child rchild) eqn:Hcmp; cbn [andb negb] in Hrun.
    + rewrite Hc in Hrun. eapply Hstep; [exact Hc|lia| |exact Hrun].
      intros o z Ho Hz.
      destruct (decide (o = 2 * pos + 1)%nat) as [->|Hne].
      * simplify_eq. by apply (hp_irrefl _ _ Hord).
      * replace o with (2 * pos + 1 + 1)%nat in Hz by lia. simplify_eq.
        by apply (hp_asym _ _ Hord).
    + rewrite Hr in Hrun. eapply Hstep; [exact Hr|lia| |exact Hrun].
      intros o z Ho Hz.
      destruct (decide (o = 2 * pos + 1)%nat) as [->|Hne].
      * by simplify_eq.
      * replace o with (2 * pos + 1 + 1)%nat in Hz by lia. simplify_eq.
        by apply (hp_irrefl _ _ Hord).
  - rewrite Hc in Hrun. eapply Hstep; [exact Hc|lia| |exact Hrun].
    intros o z Ho Hz.
    destruct (decide (o = 2 * pos + 1)%nat) as [->|Hne].
    * simplify_eq. by apply (hp_irrefl _ _ Hord).
    * replace o with (2 * pos + 1 + 1)%nat in Hz by lia. simplify_eq.
Qed.

Lemma _siftup_ordered heap :
  Forall P heap ->
  (forall i, (0 < i)%nat -> ((i - 1) / 2)%nat <> 0%nat -> heap_edge lt heap i) ->
  heap_ordered lt (heapq._siftup lt heap 0).
Proof.
  intros HP Hinv. unfold heapq._siftup.
  destruct (heap !! 0%nat) as [x|] eqn:Hx.
  2:{ apply heap_ordered_short. apply lookup_ge_None in Hx. lia. }
  assert (P x) as HPx by (by eapply Forall_lookup_1).
  pose proof (lookup_lt_Some _ _ _ Hx) as Hlen.
  destruct (heapq._siftup_loop _ _ _ _ _) as [heap' pos'] eqn:Hrun.
  pose proof (_siftup_loop_length _ _ _ _ _ _ _ Hrun) as [Hlen' _].
  pose proof (_siftup_loop_bound _ _ _ _ _ _ _ Hrun Hlen) as Hbound.
  apply _siftup_loop_ordered in Hrun as (HP' & Hleaf & Hheap'); [|lia|lia|done|].
  2:{ intros i Hi Hroot. apply Hinv; [done|]. intros Hz. by apply Hroot. }
  destruct (decide (pos' = 0%nat)) as [->|Hne].
  { apply heap_ordered_short. rewrite _siftdown_length, length_insert. lia. }
  apply _siftdown_ordered.
  - rewrite length_insert. lia.
  - by apply Forall_insert.
  - split.
    + intros i Hi Hip y z Hy Hz.
      rewrite list_lookup_insert_ne in Hy by done.
      assert (i < length heap)%nat.
      { apply lookup_lt_Some in Hy. lia. }
      rewrite list_lookup_insert_ne in Hz by lia.
      by apply (Hheap' Hne i).
    + intros c y z _ Hc Hcp Hy _. apply lookup_lt_Some in Hy.
      rewrite length_insert in Hy. lia.
Qed.

Lemma heappop_ordered heap r heap' :
  heap_ordered lt heap -> Forall P heap ->
  heapq.heappop lt heap = Some (r, heap') ->
  heap_ordered lt heap' /\ Forall (fun x => lt x r = false) heap'.
Proof.
  intros Hheap HP Hpop. pose proof (heappop_perm _ _ _ _ Hpop) as Hperm.
  revert Hpop. unfold heapq.heappop.
  destruct (last heap) as [lastelt|] eqn:Hlast; [|done].
  apply last_Some in Hlast as [body ->].
  rewrite length_app. simpl.
  replace (length body + 1 - 1)%nat with (length body) by lia.
  rewrite take_app_length.
  destruct (body !! 0%nat) as [r0|] eqn:Hr0; intros [= <- <-].
  2:{ apply lookup_ge_None in Hr0.
      split; [apply heap_ordered_short; lia|].
      destruct body; [by constructor|simpl in Hr0; lia]. }
  split.
  - apply _siftup_ordered.
    + apply Forall_app in HP as [HP Hl]. apply Forall_insert; [done|].
      by apply (Forall_lookup_1 _ _ 0%nat lastelt) in Hl.
    + intros i Hi Hpar x y Hx Hy.
      rewrite list_lookup_insert_ne in Hx by lia.
      rewrite list_lookup_insert_ne in Hy by lia.
      by apply (heap_ordered_app _ _ Hheap i).
  - apply Forall_forall. intros x Hx.
    assert (x ∈ body ++ [lastelt]) as [i Hi]%list_elem_of_lookup.
    { rewrite <- Hperm. by right. }
    apply (heap_root_minimal (body ++ [lastelt]) r0 Hheap HP) with i; [|done].
    by apply lookup_app_l_Some.
Qed.

End heapq_order.

(** ** Comparison of floats that are numbers *)

Section float_order.

Lemma float_eq_cmp x y :
  PyFloat.eq x y = match float_cmp x y with Some Eq => true | _ => false end.
Proof. unfold PyFloat.eq, float_cmp. by rewrite FloatAxioms.eqb_spec. Qed.

Lemma float_lt_cmp x y :
  PyFloat.lt x y = match float_cmp x y with Some Lt => true | _ => false end.
Proof. unfold PyFloat.lt, float_cmp. by rewrite FloatAxioms.ltb_spec. Qed.

Lemma number_not_nan x : PyFloat.is_number x -> Prim2SF x <> S754_nan.
Proof.
  unfold PyFloat.is_number, Prim2SF. intros Hx. rewrite Hx.
  destruct (is_zero x); [done|]. destruct (is_infinity x); [done|].
  destruct (Z.frexp x) as [r e].
  destruct (shr_fexp _ _ _ _ _) as [shr e'].
  by destruct (shr_m shr).
Qed.

Ltac sf_cases :=
  repeat match goal with
  | s : bool |- _ => destruct s
  end;
  cbn [SFcompare CompOpp] in *;
  change (Pos.compare_cont Eq) with Pos.compare in *;
  repeat match goal with
  | H : context [Z.compare ?a ?b] |- _ => destruct (Z.compare_spec a b)
  | |- context [Z.compare ?a ?b] => destruct (Z.compare_spec a b)
  | H : context [Pos.compare ?a ?b] |- _ => destruct (Pos.compare_spec a b)
  | |- context [Pos.compare ?a ?b] => destruct (Pos.compare_spec a b)
  end;
  cbn [CompOpp] in *; subst; try done; try lia.

Lemma SFcompare_refl a : a <> S754_nan -> SFcompare a a = Some Eq.
Proof. destruct a; intros Ha; try done; sf_cases. Qed.

Lemma SFcompare_opp a b c :
  SFcompare a b = Some c -> SFcompare b a = Some (CompOpp c).
Proof.
  destruct a, b; intros Hab; try done; sf_cases;
    by injection Hab as <-.
Qed.

Lemma SFcompare_trans a b c :
  SFcompare a b = Some Lt -> SFcompare b c = Some Lt -> SFcompare a c = Some Lt.
Proof. destruct a, b, c; intros Hab Hbc; try done; sf_cases. Qed.

Lemma SFcompare_eq_l a b c :
  SFcompare a b = Some Eq -> SFcompare a c = SFcompare b c.
Proof. destruct a, b, c; intros Hab; try done; sf_cases. Qed.

Lemma float_cmp_total x y :
  PyFloat.is_number x -> PyFloat.is_number y -> exists c, float_cmp x y = Some c.
Proof.
  intros Hx%number_not_nan Hy%number_not_nan. unfold float_cmp.
  destruct (Prim2SF x), (Prim2SF y); try done; simpl; eauto.
Qed.

Lemma float_cmp_refl x : PyFloat.is_number x -> float_cmp x x = Some Eq.
Proof. intros Hx%number_not_nan. by apply SFcompare_refl. Qed.

Lemma float_cmp_opp x y c :
  float_cmp x y = Some c -> float_cmp y x = Some (CompOpp c).
Proof. apply SFcompare_opp. Qed.

Lemma float_cmp_trans x y z :
  float_cmp x y = Some Lt -> float_cmp y z = Some Lt -> float_cmp x z = Some Lt.
Proof. apply SFcompare_trans. Qed.

Lemma float_cmp_eq_l x y z :
  float_cmp x y = Some Eq -> float_cmp x z = float_cmp y z.
Proof. apply SFcompare_eq_l. Qed.

Lemma float_cmp_eq_r x y z :
  PyFloat.is_number x -> PyFloat.is_number y -> PyFloat.is_number z ->
  float_cmp x y = Some Eq -> float_cmp z x = float_cmp z y.
Proof.
  intros Hx Hy Hz Hxy.
  destruct (float_cmp_total z x Hz Hx) as [c Hc].
  destruct (float_cmp_total z y Hz Hy) as [c' Hc'].
  apply float_cmp_opp in Hc as Hc1. apply float_cmp_opp in Hc' as Hc1'.
  rewrite (float_cmp_eq_l x y z Hxy) in Hc1.
  rewrite Hc, Hc'. f_equal. rewrite Hc1 in Hc1'.
  injection Hc1' as Heq. by destruct c, c'.
Qed.

(** On wrappers whose priority is a number, [__lt__] orders by priority
    first and by sequence number among equal priorities. *)
Lemma PriorityItem_lt_preorder {T} :
  heap_preorder (@PriorityItem.__lt__ T)
    (fun w => PyFloat.is_number (PriorityItem.priority w)).
Proof.
  split.
  - intros a Ha. unfold PriorityItem.__lt__, PriorityItem.lt_tuple. cbn [orb].
    rewrite float_eq_cmp, float_cmp_refl by done. lia.
  - intros a b Ha Hb. unfold PriorityItem.__lt__, PriorityItem.lt_tuple. cbn [orb].
    rewrite !float_eq_cmp, !float_lt_cmp.
    destruct (float_cmp_total _ _ Ha Hb) as [c Hc].
    rewrite Hc, (float_cmp_opp _ _ _ Hc). destruct c; simpl; try done. lia.
  - intros a b c Ha Hb Hc. unfold PriorityItem.__lt__, PriorityItem.lt_tuple. cbn [orb].
    rewrite !float_eq_cmp, !float_lt_cmp.
    destruct (float_cmp_total _ _ Hb Ha) as [c1 H1].
    destruct (float_cmp_total _ _ Hc Hb) as [c2 H2].
    rewrite H1, H2.
    destruct c1; try done; destruct c2; try done; intros Hba Hcb.
    + rewrite (float_cmp_eq_l _ _ _ H2), H1. lia.
    + by rewrite <- (float_cmp_eq_r _ _ _ Hb Ha Hc H1), H2.
    + by rewrite (float_cmp_eq_l _ _ _ H2), H1.
    + apply float_cmp_opp in H1, H2. simpl in H1, H2.
      pose proof (float_cmp_trans _ _ _ H1 H2) as H3.
      apply float_cmp_opp in H3. by rewrite H3.
Qed.

End float_order.

(** ** The comparison of the wrappers and the identity of priorities *)

Section tuple_comparison.
Context {T : Type}.

(** For a priority that is a number it makes no difference to the
    comparison of two wrappers whether their priorities are one object. *)
Lemma lt_tuple_number same (a b : PriorityItem.t T) :
  PyFloat.is_number (PriorityItem.priority a) ->
  (same = true -> PriorityItem.priority a = PriorityItem.priority b) ->
  PriorityItem.lt_tuple same a b = PriorityItem.__lt__ a b.
Proof.
  intros Ha Hsame. unfold PriorityItem.__lt__, PriorityItem.lt_tuple.
  destruct same; [|done]. rewrite <- Hsame by done. cbn [orb].
  by rewrite float_eq_cmp, float_cmp_refl.
Qed.

Lemma eq_tuple_number same (a b : PriorityItem.t T) :
  PyFloat.is_number (PriorityItem.priority a) ->
  (same = true -> PriorityItem.priority a = PriorityItem.priority b) ->
  PriorityItem.eq_tuple same a b = PriorityItem.__eq__ a b.
Proof.
  intros Ha Hsame. unfold PriorityItem.__eq__, PriorityItem.eq_tuple.
  destruct same; [|done]. rewrite <- Hsame by done. cbn [orb].
  by rewrite float_eq_cmp, float_cmp_refl.
Qed.

End tuple_comparison.

(** ** The statistics follow the content (FIFO queue) *)

Section queue_accounting.
Context {T C : Type} `{PyObject T}.
Implicit Types q : Queue.t T C.

Lemma clear_raises now q :
  Queue.clear now q = (Raise AttributeError, q, []).
Proof. reflexivity. Qed.

Lemma enqueue_full now item q :
  Queue.is_full q = true -> Queue.enqueue now item q = (false, q, []).
Proof. unfold Queue.enqueue. by intros ->. Qed.

Lemma enqueue_accepts now item q :
  Queue.is_full q = false ->
  Queue.enqueue now item q
  = (true,
     Queue.with_content q (Queue._entries q ++ [QueueEntry.mk item now])
       (QueueStats.record_entry now (Queue._stats q)),
     fire (Queue._on_enqueue q) item).
Proof. unfold Queue.enqueue. by intros ->. Qed.

Lemma dequeue_empty now q :
  Queue._entries q = [] -> Queue.dequeue now q = (None, q, []).
Proof. unfold Queue.dequeue, Queue.is_empty, Queue.__len__. by intros ->. Qed.

Lemma dequeue_head now q entry rest :
  Queue._entries q = entry :: rest ->
  Queue.dequeue now q
  = (Some (QueueEntry.item entry),
     Queue.with_content q rest
       (QueueStats.record_exit now (now - QueueEntry.entry_time entry)
          (Queue._stats q)),
     fire (Queue._on_dequeue q) (QueueEntry.item entry)).
Proof. unfold Queue.dequeue, Queue.is_empty, Queue.__len__. by intros ->. Qed.

Lemma remove_absent now item q :
  find_index (Queue.matches item) (Queue._entries q) = None ->
  Queue.remove now item q = (false, q).
Proof. unfold Queue.remove. by intros ->. Qed.

Lemma remove_found now item q i entry :
  find_index (Queue.matches item) (Queue._entries q) = Some i ->
  Queue._entries q !! i = Some entry ->
  Queue.remove now item q
  = (true,
     Queue.with_content q
       (seq_remove QueueEntry.__eq__ entry i (Queue._entries q))
       (QueueStats.record_exit now (now - QueueEntry.entry_time entry)
          (Queue._stats q))).
Proof. unfold Queue.remove. by intros -> ->. Qed.

Lemma queue_step_accounted o q r :
  accounted q r ->
  accounted (queue_step o q)
    (match o with QResetStats => Queue.__len__ q | _ => r end).
Proof.
  unfold accounted, QueueStats.current_length, Queue.stats, Queue.__len__.
  intros [Hlen Hbal]. destruct o as [now item|now| |now item|item|now|cb|cb|];
    cbn [queue_step]; try done.
  - destruct (Queue.is_full q) eqn:Hfull.
    + rewrite enqueue_full by done. by simpl.
    + rewrite enqueue_accepts by done. simpl. rewrite length_app. simpl. lia.
  - destruct (Queue._entries q) as [|entry rest] eqn:Hes.
    + rewrite dequeue_empty by done. simpl. by rewrite Hes.
    + rewrite (dequeue_head _ _ _ _ Hes). simpl in *. lia.
  - destruct (find_index (Queue.matches item) (Queue._entries q)) as [i|] eqn:Hfind.
    + destruct (find_index_Some _ _ _ Hfind) as (entry & Hentry & _).
      rewrite (remove_found _ _ _ _ _ Hfind Hentry). simpl.
      pose proof (seq_remove_length QueueEntry.__eq__ entry i (Queue._entries q)
                    (lookup_lt_Some _ _ _ Hentry)). lia.
    + rewrite remove_absent by done. by simpl.
Qed.

Lemma queue_run_accounted ops q r :
  accounted q r -> accounted (queue_run ops q) (held_at_reset ops q r).
Proof.
  revert q r. induction ops as [|o ops IH]; intros q r Hacc; simpl; [done|].
  apply IH. by apply queue_step_accounted.
Qed.

Lemma queue_init_accounted auto_name capacity name :
  accounted (Queue.__init__ (T:=T) (C:=C) auto_name capacity name) 0.
Proof. done. Qed.

End queue_accounting.

(** ** The entries of the FIFO queue and their enqueues *)

Section fifo_wrappers.
Context {T C : Type} `{PyObject T}.
Implicit Types q : Queue.t T C.

(** What [remove] does when the scan finds [e] at [i]. *)
Lemma remove_first_match now x q i e :
  first_match (Queue.matches x) (Queue._entries q) i e ->
  exists j, (j <= i)%nat
    /\ Queue.remove now x q
       = (true,
          Queue.with_content q (delete j (Queue._entries q))
            (QueueStats.record_exit now (now - QueueEntry.entry_time e)
               (Queue._stats q)))
    /\ (forall k e', (k < j)%nat -> Queue._entries q !! k = Some e' ->
                     QueueEntry.__eq__ e' e = false)
    /\ ((j < i)%nat ->
        exists e', Queue._entries q !! j = Some e'
                   /\ QueueEntry.__eq__ e' e = true).
Proof.
  intros [Hfind Hi]%first_match_find_index.
  rewrite (remove_found _ _ _ _ _ Hfind Hi).
  destruct (seq_remove_first QueueEntry.__eq__ e i (Queue._entries q))
    as (j & Hj & Heq & Hbefore & Hat); [by eapply lookup_lt_Some|].
  exists j. rewrite Heq. by split_and!.
Qed.




End fifo_wrappers.

(** ** The statistics follow the content (priority queue) *)

Section pqueue_accounting.
Context {T : Type} `{PyObject T}.
Implicit Types q : PriorityQueue.t T.

Local Abbreviation lt := (@PriorityItem.__lt__ T).

Lemma pq_enqueue_full now item p q :
  PriorityQueue.is_full q = true -> PriorityQueue.enqueue now item p q = (false, q).
Proof. unfold PriorityQueue.enqueue. by intros ->. Qed.

Lemma pq_enqueue_accepts now item p q :
  PriorityQueue.is_full q = false ->
  PriorityQueue.enqueue now item p q
  = (true,
     PriorityQueue.with_content q
       (heapq.heappush lt (PriorityQueue._heap q)
          (PriorityItem.mk
             (priority_of (PriorityQueue._priority_fn q) (now, item, p))
             (PriorityQueue._counter q + 1) item now))
       (PriorityQueue._counter q + 1)
       (QueueStats.record_entry now (PriorityQueue._stats q))).
Proof. unfold PriorityQueue.enqueue. intros ->. by destruct p. Qed.

Lemma pq_dequeue_empty now q :
  PriorityQueue._heap q = [] -> PriorityQueue.dequeue now q = (None, q).
Proof.
  unfold PriorityQueue.dequeue, PriorityQueue.is_empty, PriorityQueue.__len__.
  by intros ->.
Qed.

Lemma pq_dequeue_pop now q entry heap' :
  heapq.heappop lt (PriorityQueue._heap q) = Some (entry, heap') ->
  PriorityQueue.dequeue now q
  = (Some (PriorityItem.item entry),
     PriorityQueue.with_content q heap' (PriorityQueue._counter q)
       (QueueStats.record_exit now (now - PriorityItem.entry_time entry)
          (PriorityQueue._stats q))).
Proof.
  intros Hpop. unfold PriorityQueue.dequeue, PriorityQueue.is_empty,
    PriorityQueue.__len__.
  destruct (PriorityQueue._heap q) as [|w heap] eqn:Hheap; [done|].
  by rewrite Hpop.
Qed.

Lemma heappop_some (heap : list (PriorityItem.t T)) :
  heap <> [] -> exists entry heap', heapq.heappop lt heap = Some (entry, heap').
Proof.
  intros Hne. destruct (heapq.heappop lt heap) as [[entry heap']|] eqn:Hpop.
  - by eauto.
  - by apply heappop_None in Hpop.
Qed.

Lemma pq_find_entry_Some item q i entry :
  PriorityQueue._find_entry item q = Some (i, entry) <->
  find_index (PriorityQueue.matches item) (PriorityQueue._heap q) = Some i
  /\ PriorityQueue._heap q !! i = Some entry.
Proof.
  unfold PriorityQueue._find_entry.
  destruct (find_index _ _) as [j|] eqn:Hfind.
  - destruct (find_index_Some _ _ _ Hfind) as (e & He & _). rewrite He. simpl.
    split; [by intros [= <- <-]|]. intros [[= <-] Hi]. by simplify_eq.
  - split; [done|]. by intros [? _].
Qed.

Lemma pq_find_entry_None item q :
  PriorityQueue._find_entry item q = None <->
  find_index (PriorityQueue.matches item) (PriorityQueue._heap q) = None.
Proof.
  unfold PriorityQueue._find_entry.
  destruct (find_index _ _) as [j|] eqn:Hfind; [|done].
  destruct (find_index_Some _ _ _ Hfind) as (e & He & _). by rewrite He.
Qed.

Lemma pqueue_step_length o q :
  PriorityQueue.__len__ (pqueue_step o q)
  = PriorityQueue.__len__ q
    + (QueueStats.current_length (PriorityQueue.stats (pqueue_step o q))
       - QueueStats.current_length (PriorityQueue.stats q))
  /\ entries (PriorityQueue.stats (pqueue_step o q))
     - exits (PriorityQueue.stats (pqueue_step o q))
     = entries (PriorityQueue.stats q) - exits (PriorityQueue.stats q)
       + (QueueStats.current_length (PriorityQueue.stats (pqueue_step o q))
          - QueueStats.current_length (PriorityQueue.stats q)).
Proof.
  unfold QueueStats.current_length, PriorityQueue.stats, PriorityQueue.__len__.
  destruct o as [now item p|now| |now item|item p]; cbn [pqueue_step].
  - destruct (PriorityQueue.is_full q) eqn:Hfull.
    + rewrite pq_enqueue_full by done. simpl. lia.
    + rewrite pq_enqueue_accepts by done. simpl.
      rewrite (Permutation_length (heappush_perm _ _ _)). simpl. lia.
  - destruct (PriorityQueue._heap q) as [|w heap] eqn:Hheap.
    + rewrite pq_dequeue_empty by done. simpl. rewrite Hheap. simpl. lia.
    + destruct (heappop_some (w :: heap)) as (entry & heap' & Hpop); [done|].
      rewrite <- Hheap in Hpop. rewrite (pq_dequeue_pop _ _ _ _ Hpop). simpl.
      rewrite Hheap in Hpop.
      apply heappop_perm, Permutation_length in Hpop. simpl in *. lia.
  - lia.
  - unfold PriorityQueue.remove.
    destruct (PriorityQueue._find_entry item q) as [[i entry]|] eqn:Hfind.
    + apply pq_find_entry_Some in Hfind as [_ Hi]. simpl.
      rewrite (Permutation_length (heapify_perm _ _)).
      pose proof (seq_remove_length PriorityItem.__eq__ entry i _
                    (lookup_lt_Some _ _ _ Hi)). lia.
    + simpl. lia.
  - unfold PriorityQueue.update_priority.
    destruct (PriorityQueue._find_entry item q) as [[i entry]|] eqn:Hfind.
    + apply pq_find_entry_Some in Hfind as [_ Hi]. simpl.
      rewrite (Permutation_length (heappush_perm _ _ _)). simpl.
      pose proof (seq_remove_length PriorityItem.__eq__ entry i _
                    (lookup_lt_Some _ _ _ Hi)). lia.
    + simpl. lia.
Qed.

Lemma pqueue_run_accounted ops q :
  pq_accounted q -> pq_accounted (pqueue_run ops q).
Proof.
  revert q. induction ops as [|o ops IH]; intros q Hacc; simpl; [done|].
  apply IH. destruct Hacc as [Hlen Hbal].
  destruct (pqueue_step_length o q) as [Hl Hb].
  unfold pq_accounted. lia.
Qed.

End pqueue_accounting.

(** ** Capacity *)

Section capacity.
Context {T C : Type} `{PyObject T}.

Local Abbreviation lt := (@PriorityItem.__lt__ T).

Lemma queue_step_grows (o : queue_op T C) q :
  Queue._capacity (queue_step o q) = Queue._capacity q
  /\ (Queue.__len__ (queue_step o q) <= Queue.__len__ q
      \/ Queue.is_full q = false
         /\ Queue.__len__ (queue_step o q) = Queue.__len__ q + 1).
Proof.
  unfold Queue.__len__.
  destruct o as [now item|now| |now item|item|now|cb|cb|];
    cbn [queue_step]; try (split; [done|left; simpl; lia]).
  - destruct (Queue.is_full q) eqn:Hfull.
    + rewrite enqueue_full by done. split; [done|left; simpl; lia].
    + rewrite enqueue_accepts by done. split; [done|right]. split; [done|].
      simpl. rewrite length_app. simpl. lia.
  - destruct (Queue._entries q) as [|entry rest] eqn:Hes.
    + rewrite dequeue_empty by done. split; [done|left]. simpl.
      rewrite Hes. simpl. lia.
    + rewrite (dequeue_head _ _ _ _ Hes). split; [done|left]. simpl. lia.
  - destruct (find_index (Queue.matches item) (Queue._entries q)) as [i|] eqn:Hfind.
    + destruct (find_index_Some _ _ _ Hfind) as (entry & Hentry & _).
      rewrite (remove_found _ _ _ _ _ Hfind Hentry). split; [done|left]. simpl.
      pose proof (seq_remove_length QueueEntry.__eq__ entry i (Queue._entries q)
                    (lookup_lt_Some _ _ _ Hentry)). lia.
    + rewrite remove_absent by done. split; [done|left]. simpl. lia.
Qed.

Lemma pqueue_step_grows (o : pqueue_op T) q :
  PriorityQueue._capacity (pqueue_step o q) = PriorityQueue._capacity q
  /\ (PriorityQueue.__len__ (pqueue_step o q) <= PriorityQueue.__len__ q
      \/ PriorityQueue.is_full q = false
         /\ PriorityQueue.__len__ (pqueue_step o q) = PriorityQueue.__len__ q + 1).
Proof.
  unfold PriorityQueue.__len__.
  destruct o as [now item p|now| |now item|item p]; cbn [pqueue_step].
  - destruct (PriorityQueue.is_full q) eqn:Hfull.
    + rewrite pq_enqueue_full by done. split; [done|left; simpl; lia].
    + rewrite pq_enqueue_accepts by done. split; [done|right]. split; [done|].
      simpl. rewrite (Permutation_length (heappush_perm _ _ _)). simpl. lia.
  - destruct (PriorityQueue._heap q) as [|w heap] eqn:Hheap.
    + rewrite pq_dequeue_empty by done. split; [done|left]. simpl.
      rewrite Hheap. simpl. lia.
    + destruct (heappop_some (w :: heap)) as (entry & heap' & Hpop); [done|].
      rewrite <- Hheap in Hpop. rewrite (pq_dequeue_pop _ _ _ _ Hpop).
      split; [done|left]. simpl.
      rewrite Hheap in Hpop.
      apply heappop_perm, Permutation_length in Hpop. simpl in *. lia.
  - split; [done|left; lia].
  - unfold PriorityQueue.remove.
    destruct (PriorityQueue._find_entry item q) as [[i entry]|] eqn:Hfind.
    + apply pq_find_entry_Some in Hfind as [_ Hi]. split; [done|left]. simpl.
      rewrite (Permutation_length (heapify_perm _ _)).
      pose proof (seq_remove_length PriorityItem.__eq__ entry i _
                    (lookup_lt_Some _ _ _ Hi)). lia.
    + split; [done|left]. simpl. lia.
  - unfold PriorityQueue.update_priority.
    destruct (PriorityQueue._find_entry item q) as [[i entry]|] eqn:Hfind.
    + apply pq_find_entry_Some in Hfind as [_ Hi]. split; [done|left]. simpl.
      rewrite (Permutation_length (heappush_perm _ _ _)). simpl.
      pose proof (seq_remove_length PriorityItem.__eq__ entry i _
                    (lookup_lt_Some _ _ _ Hi)). lia.
    + split; [done|left]. simpl. lia.
Qed.

Lemma queue_run_bounded (ops : list (queue_op T C)) q c :
  0 < c -> Queue._capacity q = c -> Queue.__len__ q <= c ->
  Queue.__len__ (queue_run ops q) <= c.
Proof.
  intros Hc. revert q. induction ops as [|o ops IH]; intros q Hcap Hlen;
    simpl; [done|].
  destruct (queue_step_grows o q) as [Hcap' Hgrow].
  apply IH; [congruence|].
  destruct Hgrow as [Hle|[Hfull Hone]]; [lia|].
  unfold Queue.is_full in Hfull. rewrite Hcap in Hfull.
  destruct (c =? 0) eqn:Hz; [lia|]. lia.
Qed.

Lemma pqueue_run_bounded (ops : list (pqueue_op T)) q c :
  0 < c -> PriorityQueue._capacity q = c -> PriorityQueue.__len__ q <= c ->
  PriorityQueue.__len__ (pqueue_run ops q) <= c.
Proof.
  intros Hc. revert q. induction ops as [|o ops IH]; intros q Hcap Hlen;
    simpl; [done|].
  destruct (pqueue_step_grows o q) as [Hcap' Hgrow].
  apply IH; [congruence|].
  destruct Hgrow as [Hle|[Hfull Hone]]; [lia|].
  unfold PriorityQueue.is_full in Hfull. rewrite Hcap in Hfull.
  destruct (c =? 0) eqn:Hz; [lia|]. lia.
Qed.

End capacity.

(** ** Dequeue order of the priority queue *)

Section pqueue_order.
Context {T : Type} `{PyObject T}.
Implicit Types q : PriorityQueue.t T.
Implicit Types heap : list (PriorityItem.t T).

Local Abbreviation lt := (@PriorityItem.__lt__ T).
Local Abbreviation number_priority :=
  (fun w : PriorityItem.t T => PyFloat.is_number (PriorityItem.priority w)).

Lemma pop_all_perm (ltb : PriorityItem.t T -> PriorityItem.t T -> bool) n heap :
  length heap = n -> pop_all ltb n heap ≡ₚ heap.
Proof.
  revert heap. induction n as [|n IH]; intros heap Hlen; simpl.
  - by destruct heap.
  - destruct (heapq.heappop ltb heap) as [[r heap']|] eqn:Hpop.
    + pose proof (heappop_perm _ _ _ _ Hpop) as Hperm.
      rewrite <- Hperm. f_equiv. apply IH.
      apply Permutation_length in Hperm. simpl in Hperm. lia.
    + apply heappop_None in Hpop. by subst.
Qed.

Lemma pop_all_elem_of (ltb : PriorityItem.t T -> PriorityItem.t T -> bool)
    n heap x :
  x ∈ pop_all ltb n heap -> x ∈ heap.
Proof.
  revert heap. induction n as [|n IH]; intros heap; simpl.
  - by intros ?%elem_of_nil.
  - destruct (heapq.heappop ltb heap) as [[r heap']|] eqn:Hpop.
    + pose proof (heappop_perm _ _ _ _ Hpop) as Hperm. rewrite <- Hperm.
      intros [->|Hx]%elem_of_cons; [by left|]. right. by apply IH.
    + by intros ?%elem_of_nil.
Qed.

Lemma pop_all_sorted n heap :
  heap_ordered lt heap -> Forall number_priority heap ->
  StronglySorted (fun a b => lt b a = false) (pop_all lt n heap).
Proof.
  revert heap. induction n as [|n IH]; intros heap Hheap HP; simpl;
    [by constructor|].
  destruct (heapq.heappop lt heap) as [[r heap']|] eqn:Hpop; [|by constructor].
  pose proof (heappop_perm _ _ _ _ Hpop) as Hperm.
  destruct (heappop_ordered _ _ PriorityItem_lt_preorder _ _ _ Hheap HP Hpop)
    as [Hheap' Hmin].
  assert (Forall number_priority heap') as HP'.
  { rewrite <- Hperm in HP. by apply Forall_cons in HP as [_ ?]. }
  constructor; [by apply IH|].
  apply Forall_forall. intros x Hx.
  rewrite Forall_forall in Hmin. apply Hmin. by eapply pop_all_elem_of.
Qed.

Lemma dequeue_all_pop_all nows q :
  (length nows <= length (PriorityQueue._heap q))%nat ->
  (dequeue_all nows q).1
  = (fun w => Some (PriorityItem.item w))
    <$> pop_all lt (length nows) (PriorityQueue._heap q).
Proof.
  revert q. induction nows as [|now nows IH]; intros q Hlen; simpl; [done|].
  destruct (PriorityQueue._heap q) as [|w heap] eqn:Hheap; [simpl in Hlen; lia|].
  destruct (heappop_some (w :: heap)) as (entry & heap' & Hpop); [done|].
  rewrite Hpop. rewrite <- Hheap in Hpop.
  rewrite (pq_dequeue_pop _ _ _ _ Hpop).
  destruct (dequeue_all nows _) as [rs q'] eqn:Hrest. simpl. f_equal.
  change rs with (rs, q').1. rewrite <- Hrest. rewrite IH; [done|].
  simpl. rewrite Hheap in Hpop.
  apply heappop_perm, Permutation_length in Hpop. simpl in *. lia.
Qed.

(** What a run of enqueues leaves in the heap, from any queue on. *)
Lemma enqueue_all_heap (es : list (enq T)) q :
  heap_ordered lt (PriorityQueue._heap q) ->
  Forall number_priority (PriorityQueue._heap q) ->
  Forall (fun e => PyFloat.is_number
                     (priority_of (PriorityQueue._priority_fn q) e)) es ->
  let q' := enqueue_all es q in
  let room := PriorityQueue._capacity q - PriorityQueue.__len__ q in
  heap_ordered lt (PriorityQueue._heap q')
  /\ Forall number_priority (PriorityQueue._heap q')
  /\ PriorityQueue._heap q'
     ≡ₚ PriorityQueue._heap q
        ++ stamped (PriorityQueue._priority_fn q) (PriorityQueue._counter q + 1)
             (if PriorityQueue._capacity q =? 0 then es
              else take (Z.to_nat room) es).
Proof.
  revert q. induction es as [|[[now item] p] es IH]; intros q Hheap HP Hes; simpl.
  { split_and!; [done..|]. destruct (_ =? 0); by rewrite ?take_nil, app_nil_r. }
  apply Forall_cons in Hes as [He Hes].
  destruct (PriorityQueue.is_full q) eqn:Hfull.
  - rewrite pq_enqueue_full by done. simpl.
    destruct (IH q Hheap HP Hes) as (Hheap' & HP' & Hperm).
    split_and!; [done..|]. rewrite Hperm.
    unfold PriorityQueue.is_full in Hfull.
    destruct (PriorityQueue._capacity q =? 0); [done|].
    replace (Z.to_nat (PriorityQueue._capacity q - PriorityQueue.__len__ q))
      with 0%nat by lia. by rewrite !take_0.
  - rewrite pq_enqueue_accepts by done. simpl.
    set (entry := PriorityItem.mk _ _ _ _).
    set (q1 := PriorityQueue.with_content _ _ _ _).
    destruct (IH q1) as (Hheap' & HP' & Hperm).
    + by apply (heappush_ordered _ _ PriorityItem_lt_preorder).
    + simpl. rewrite heappush_perm. by constructor.
    + done.
    + split_and!; [done..|]. rewrite Hperm. simpl.
      rewrite heappush_perm.
      unfold PriorityQueue.is_full in Hfull.
      unfold PriorityQueue.__len__ in *. simpl.
      rewrite (Permutation_length (heappush_perm _ _ _)). simpl.
      destruct (PriorityQueue._capacity q =? 0) eqn:Hcap.
      * simpl. by rewrite Permutation_middle.
      * replace (Z.to_nat (PriorityQueue._capacity q
                           - Z.of_nat (length (PriorityQueue._heap q))))
          with (S (Z.to_nat (PriorityQueue._capacity q
                     - Z.of_nat (S (length (PriorityQueue._heap q)))))) by lia.
        simpl. by rewrite Permutation_middle.
Qed.

Lemma stamped_lower (f : T -> float) k es :
  Forall (fun w => k <= PriorityItem.index w) (stamped f k es).
Proof.
  revert k. induction es as [|e es IH]; intros k; simpl; constructor.
  - simpl. lia.
  - eapply Forall_impl; [apply IH|]. simpl. intros; lia.
Qed.

Lemma stamped_sorted (f : T -> float) k es :
  StronglySorted (fun a b => PriorityItem.index a < PriorityItem.index b)
    (stamped f k es).
Proof.
  revert k. induction es as [|e es IH]; intros k; simpl; constructor.
  - apply IH.
  - eapply Forall_impl; [apply stamped_lower|]. simpl. intros; lia.
Qed.

Lemma stamped_items (f : T -> float) k es :
  PriorityItem.item <$> stamped f k es = (fun e : enq T => e.1.2) <$> es.
Proof. revert k. induction es as [|e es IH]; intros k; simpl; [done|]. by rewrite IH. Qed.

Lemma stamped_length (f : T -> float) k es : length (stamped f k es) = length es.
Proof. revert k. induction es as [|e es IH]; intros k; simpl; [done|]. by rewrite IH. Qed.

Lemma sorted_index_nodup heap :
  StronglySorted (fun a b => PriorityItem.index a < PriorityItem.index b) heap ->
  NoDup (PriorityItem.index <$> heap).
Proof.
  induction 1 as [|w heap Hs IH Hall]; simpl; constructor; [|done].
  intros (w' & Hw' & Hin)%list_elem_of_fmap.
  rewrite Forall_forall in Hall. specialize (Hall _ Hin). lia.
Qed.

Lemma StronglySorted_lookup {A} (R : A -> A -> Prop) (l : list A) i j a b :
  StronglySorted R l -> (i < j)%nat -> l !! i = Some a -> l !! j = Some b ->
  R a b.
Proof.
  intros Hs. revert i j. induction Hs as [|x l Hs IH Hall]; intros i j Hij Hi Hj;
    [done|].
  destruct j as [|j]; [lia|]. simpl in Hj. destruct i as [|i]; simpl in Hi.
  - simplify_eq. rewrite Forall_forall in Hall. apply Hall.
    by eapply list_elem_of_lookup_2.
  - apply (IH i j); [lia|done..].
Qed.

Lemma float_eq_sym x y :
  PyFloat.is_number x -> PyFloat.is_number y ->
  PyFloat.eq x y = PyFloat.eq y x.
Proof.
  intros Hx Hy. rewrite !float_eq_cmp.
  destruct (float_cmp_total x y Hx Hy) as [c Hc].
  rewrite Hc, (float_cmp_opp _ _ _ Hc). by destruct c.
Qed.

Lemma float_eq_not_lt x y : PyFloat.eq x y = true -> PyFloat.lt x y = false.
Proof.
  rewrite float_eq_cmp, float_lt_cmp. by destruct (float_cmp x y) as [[]|].
Qed.

(** What [not (b < a)] says of two wrappers with number priorities. *)
Lemma PriorityItem_le_inv (a b : PriorityItem.t T) :
  number_priority a -> number_priority b ->
  lt b a = false ->
  PyFloat.lt (PriorityItem.priority b) (PriorityItem.priority a) = false
  /\ (PyFloat.eq (PriorityItem.priority a) (PriorityItem.priority b) = true ->
      PriorityItem.index a <= PriorityItem.index b).
Proof.
  intros Ha Hb. unfold PriorityItem.__lt__, PriorityItem.lt_tuple. cbn [orb].
  rewrite (float_eq_sym (PriorityItem.priority a)) by done.
  destruct (PyFloat.eq _ _) eqn:Heq.
  - intros Hidx. split; [by apply float_eq_not_lt|]. lia.
  - by intros ->.
Qed.

Lemma nodup_fmap_elem_of {A B} (f : A -> B) (l : list A) x y :
  NoDup (f <$> l) -> x ∈ l -> y ∈ l -> f x = f y -> x = y.
Proof.
  intros Hnd [i Hi]%list_elem_of_lookup [j Hj]%list_elem_of_lookup Hxy.
  assert (i = j) as ->; [|congruence].
  eapply (NoDup_lookup _ _ _ _ Hnd); rewrite list_lookup_fmap.
  - by rewrite Hi.
  - rewrite Hj. simpl. by rewrite Hxy.
Qed.

(** A heap of wrappers that all have priority [0.0] pops in the order
    of the sequence numbers. *)
Lemma pop_all_zero_priority n heap (stamps : list (PriorityItem.t T)) :
  heap_ordered lt heap ->
  Forall (fun w => PriorityItem.priority w = 0%float) heap ->
  length heap = n ->
  heap ≡ₚ stamps ->
  StronglySorted (fun a b => PriorityItem.index a < PriorityItem.index b) stamps ->
  pop_all lt n heap = stamps.
Proof.
  intros Hheap Hzero Hlen Hperm Hstamps.
  assert (Forall number_priority heap) as HP.
  { eapply Forall_impl; [exact Hzero|]. by intros w ->. }
  pose proof (pop_all_perm lt n heap Hlen) as Hout.
  pose proof (pop_all_sorted n heap Hheap HP) as Hsorted.
  apply (StronglySorted_unique_strong
           (fun a b => PriorityItem.index a <= PriorityItem.index b)).
  - intros x1 x2 Hx1 Hx2 H12 H21.
    apply (nodup_fmap_elem_of PriorityItem.index stamps).
    + by apply sorted_index_nodup.
    + by rewrite <- Hperm, <- Hout.
    + done.
    + lia.
  - assert (Forall (fun w => PriorityItem.priority w = 0%float) (pop_all lt n heap))
      as Hzero' by (by rewrite Hout).
    clear Hout. induction Hsorted as [|w out Hs IH Hall]; [constructor|].
    apply Forall_cons in Hzero' as [Hw Hzero'].
    constructor; [by apply IH|].
    rewrite Forall_forall in Hall, Hzero'. apply Forall_forall. intros x Hx.
    specialize (Hall x Hx). specialize (Hzero' x Hx).
    unfold PriorityItem.__lt__, PriorityItem.lt_tuple in Hall. cbn [orb] in Hall.
    rewrite Hw, Hzero' in Hall.
    change (PyFloat.eq 0 0) with true in Hall. cbn iota in Hall. lia.
  - clear Hperm. induction Hstamps as [|w l Hs IH Hall]; constructor; [done|].
    eapply Forall_impl; [exact Hall|]. simpl. intros; lia.
  - by rewrite Hout.
Qed.

Lemma stamped_default_priority k (xs : list (float * T)) :
  Forall (fun w => PriorityItem.priority w = 0%float)
    (stamped (fun _ : T => 0%float) k ((fun x => (x.1, x.2, None)) <$> xs)).
Proof.
  revert k. induction xs as [|x xs IH]; intros k; simpl; by constructor.
Qed.

Lemma stamped_default_items (f : T -> float) k (xs : list (float * T)) :
  (fun w => Some (PriorityItem.item w))
    <$> stamped f k ((fun x => (x.1, x.2, None)) <$> xs)
  = (fun x => Some x.2) <$> xs.
Proof.
  revert k. induction xs as [|x xs IH]; intros k; simpl; [done|]. by rewrite IH.
Qed.

End pqueue_order.

(** ** Sequence numbers of the priority queue *)

Section pqueue_stamps.
Context {T : Type} `{PyObject T}.
Implicit Types q : PriorityQueue.t T.

Local Abbreviation lt := (@PriorityItem.__lt__ T).

Lemma stamps_ok_perm q heap counter st :
  stamps_ok q ->
  (exists rest, PriorityQueue._heap q ≡ₚ rest ++ heap) ->
  PriorityQueue._counter q <= counter ->
  stamps_ok (PriorityQueue.with_content q heap counter st).
Proof.
  intros [Hnd Hle] [rest Hperm] Hcounter. unfold stamps_ok. simpl.
  rewrite Hperm in Hnd, Hle. rewrite fmap_app in Hnd.
  apply NoDup_app in Hnd as (_ & _ & Hnd). apply Forall_app in Hle as [_ Hle].
  split; [done|]. eapply Forall_impl; [exact Hle|]. simpl. intros; lia.
Qed.

Lemma stamps_ok_push q heap entry st :
  stamps_ok q ->
  (exists rest, PriorityQueue._heap q ≡ₚ rest ++ heap) ->
  PriorityItem.index entry = PriorityQueue._counter q + 1 ->
  stamps_ok (PriorityQueue.with_content q (heapq.heappush lt heap entry)
               (PriorityQueue._counter q + 1) st).
Proof.
  intros Hok Hrest Hidx.
  destruct (stamps_ok_perm q heap (PriorityQueue._counter q) st Hok Hrest)
    as [Hnd Hle]; [lia|]. simpl in Hnd, Hle.
  unfold stamps_ok. simpl. rewrite heappush_perm. split.
  - simpl. constructor; [|done].
    intros (w & Hw & Hin)%list_elem_of_fmap.
    rewrite Forall_forall in Hle. specialize (Hle _ Hin). lia.
  - constructor; [lia|]. eapply Forall_impl; [exact Hle|]. simpl. intros; lia.
Qed.

Lemma seq_remove_rest (heap : list (PriorityItem.t T)) entry i :
  (i < length heap)%nat ->
  exists rest, heap ≡ₚ rest ++ seq_remove PriorityItem.__eq__ entry i heap.
Proof.
  intros Hi.
  destruct (seq_remove_is_delete PriorityItem.__eq__ entry i heap Hi)
    as (j & y & _ & Hy & ->).
  exists [y]. by apply delete_Permutation.
Qed.

Lemma pqueue_step_stamps_ok o q : stamps_ok q -> stamps_ok (pqueue_step o q).
Proof.
  intros Hok. destruct o as [now item p|now| |now item|item p]; cbn [pqueue_step].
  - destruct (PriorityQueue.is_full q) eqn:Hfull.
    + by rewrite pq_enqueue_full.
    + rewrite pq_enqueue_accepts by done. simpl.
      apply stamps_ok_push; [done| |done]. by exists [].
  - destruct (PriorityQueue._heap q) as [|w heap] eqn:Hheap.
    + by rewrite pq_dequeue_empty.
    + destruct (heappop_some (w :: heap)) as (entry & heap' & Hpop); [done|].
      rewrite <- Hheap in Hpop. rewrite (pq_dequeue_pop _ _ _ _ Hpop). simpl.
      apply stamps_ok_perm; [done| |lia].
      exists [entry]. symmetry. by apply heappop_perm in Hpop.
  - done.
  - unfold PriorityQueue.remove.
    destruct (PriorityQueue._find_entry item q) as [[i entry]|] eqn:Hfind; [|done].
    apply pq_find_entry_Some in Hfind as [_ Hi]. simpl.
    apply stamps_ok_perm; [done| |lia].
    destruct (seq_remove_rest (PriorityQueue._heap q) entry i) as [rest Hrest].
    { by eapply lookup_lt_Some. }
    exists rest. by rewrite heapify_perm.
  - unfold PriorityQueue.update_priority.
    destruct (PriorityQueue._find_entry item q) as [[i entry]|] eqn:Hfind; [|done].
    apply pq_find_entry_Some in Hfind as [_ Hi]. simpl.
    apply stamps_ok_push; [done| |done].
    apply seq_remove_rest. by eapply lookup_lt_Some.
Qed.

Lemma pqueue_run_stamps_ok ops q : stamps_ok q -> stamps_ok (pqueue_run ops q).
Proof.
  revert q. induction ops as [|o ops IH]; intros q Hok; simpl; [done|].
  by apply IH, pqueue_step_stamps_ok.
Qed.

Lemma pqueue_init_stamps_ok auto_name priority_fn capacity name :
  stamps_ok (PriorityQueue.__init__ (T:=T) auto_name priority_fn capacity name).
Proof. split; simpl; constructor. Qed.

(** With distinct sequence numbers [list.remove(entry)] takes out the
    wrapper [_find_entry] found. *)
Lemma stamps_ok_remove q i entry :
  stamps_ok q -> PriorityQueue._heap q !! i = Some entry ->
  seq_remove PriorityItem.__eq__ entry i (PriorityQueue._heap q)
  = delete i (PriorityQueue._heap q).
Proof.
  intros [Hnd _] Hi. apply seq_remove_at; [by eapply lookup_lt_Some|].
  intros j y Hj Hy. unfold PriorityItem.__eq__, PriorityItem.eq_tuple. cbn [orb].
  destruct (PriorityItem.index y =? PriorityItem.index entry) eqn:Hidx;
    [|by rewrite andb_false_r].
  assert (j = i); [|lia].
  eapply (NoDup_lookup _ _ _ _ Hnd); rewrite list_lookup_fmap.
  - by rewrite Hy.
  - rewrite Hi. simpl. f_equal. lia.
Qed.

End pqueue_stamps.

(** ** The wrappers of the priority queue and their enqueues *)

Section equal_items.
Context {T : Type} `{PyObject T}.

Lemma equal_only_to_itself_spec (xs : list T) :
  equal_only_to_itself xs
  <-> forall a b, a ∈ xs -> b ∈ xs -> py_is_or_eq a b = true -> a = b.
Proof.
  unfold equal_only_to_itself. rewrite Forall_forall. split.
  - intros Hall a b Ha Hb. specialize (Hall a Ha).
    rewrite Forall_forall in Hall. by apply Hall.
  - intros Hall a Ha. apply Forall_forall. intros b Hb. by apply Hall.
Qed.

Lemma equal_only_to_itself_subseteq (xs ys : list T) :
  xs ⊆ ys -> equal_only_to_itself ys -> equal_only_to_itself xs.
Proof.
  rewrite !equal_only_to_itself_spec. intros Hsub Hall a b Ha Hb.
  apply Hall; by apply Hsub.
Qed.

End equal_items.

Section priority_wrappers.
Context {T : Type} `{PyObject T}.
Implicit Types q : PriorityQueue.t T.

Local Abbreviation lt := (@PriorityItem.__lt__ T).

(** [dequeue] takes the wrapper at index 0. *)
Lemma pq_dequeue_head now q w :
  PriorityQueue._heap q !! 0%nat = Some w ->
  exists heap',
    PriorityQueue.dequeue now q
    = (Some (PriorityItem.item w),
       PriorityQueue.with_content q heap' (PriorityQueue._counter q)
         (QueueStats.record_exit now (now - PriorityItem.entry_time w)
            (PriorityQueue._stats q)))
    /\ w :: heap' ≡ₚ PriorityQueue._heap q.
Proof.
  intros Hw.
  destruct (heappop_some (PriorityQueue._heap q)) as (entry & heap' & Hpop).
  { intros Hnil. by rewrite Hnil in Hw. }
  pose proof (heappop_head _ _ _ _ Hpop) as Hhead.
  rewrite Hw in Hhead. injection Hhead as <-.
  exists heap'. split; [by apply pq_dequeue_pop|by apply heappop_perm in Hpop].
Qed.

Lemma pq_first_match x q i w :
  first_match (PriorityQueue.matches x) (PriorityQueue._heap q) i w
  <-> PriorityQueue._find_entry x q = Some (i, w).
Proof. by rewrite first_match_find_index, pq_find_entry_Some. Qed.

Lemma pq_no_match x q :
  Forall (fun w => PriorityQueue.matches x w = false) (PriorityQueue._heap q)
  <-> PriorityQueue._find_entry x q = None.
Proof. by rewrite pq_find_entry_None, find_index_Forall. Qed.

(** With distinct sequence numbers [remove] takes out the wrapper the
    scan finds. *)
Lemma pq_remove_first_match now x q i w :
  stamps_ok q ->
  first_match (PriorityQueue.matches x) (PriorityQueue._heap q) i w ->
  PriorityQueue.remove now x q
  = (true,
     PriorityQueue.with_content q
       (heapq.heapify lt (delete i (PriorityQueue._heap q)))
       (PriorityQueue._counter q)
       (QueueStats.record_exit now (now - PriorityItem.entry_time w)
          (PriorityQueue._stats q))).
Proof.
  intros Hok Hfirst. pose proof Hfirst as (Hi & _).
  apply pq_first_match in Hfirst. unfold PriorityQueue.remove.
  rewrite Hfirst. by rewrite (stamps_ok_remove q i w Hok Hi).
Qed.

Lemma pq_update_first_match x p q i w :
  stamps_ok q ->
  first_match (PriorityQueue.matches x) (PriorityQueue._heap q) i w ->
  PriorityQueue.update_priority x p q
  = (true,
     PriorityQueue.with_content q
       (heapq.heappush lt (delete i (PriorityQueue._heap q))
          (PriorityItem.mk p (PriorityQueue._counter q + 1) x
             (PriorityItem.entry_time w)))
       (PriorityQueue._counter q + 1)
       (PriorityQueue._stats q)).
Proof.
  intros Hok Hfirst. pose proof Hfirst as (Hi & _).
  apply pq_first_match in Hfirst. unfold PriorityQueue.update_priority.
  rewrite Hfirst. by rewrite (stamps_ok_remove q i w Hok Hi).
Qed.

(** Where a wrapper comes from after one operation: it was there, an
    [enqueue] made it for its item at its time, or [update_priority]
    made it for its item with the time of a wrapper that matched. *)
Lemma pqueue_step_wrapper (o : pqueue_op T) q w :
  w ∈ PriorityQueue._heap (pqueue_step o q) ->
  w ∈ PriorityQueue._heap q
  \/ (exists p, o = PEnqueue (PriorityItem.entry_time w) (PriorityItem.item w) p)
  \/ (exists p old,
        o = PUpdatePriority (PriorityItem.item w) p
        /\ old ∈ PriorityQueue._heap q
        /\ PriorityQueue.matches (PriorityItem.item w) old = true
        /\ PriorityItem.entry_time w = PriorityItem.entry_time old).
Proof.
  destruct o as [now item p|now| |now item|item p]; cbn [pqueue_step].
  - destruct (PriorityQueue.is_full q) eqn:Hfull.
    + rewrite pq_enqueue_full by done. by left.
    + rewrite pq_enqueue_accepts by done. simpl. rewrite heappush_perm.
      intros [->|Hw]%elem_of_cons; [|by left]. right. left. by exists p.
  - destruct (PriorityQueue._heap q) as [|w0 heap] eqn:Hq.
    + rewrite pq_dequeue_empty by done. simpl. rewrite Hq. by left.
    + destruct (heappop_some (w0 :: heap)) as (entry & heap' & Hpop); [done|].
      rewrite <- Hq in Hpop. rewrite (pq_dequeue_pop _ _ _ _ Hpop). simpl.
      intros Hw. left. rewrite <- Hq, <- (heappop_perm _ _ _ _ Hpop). by right.
  - by left.
  - unfold PriorityQueue.remove.
    destruct (PriorityQueue._find_entry item q) as [[i entry]|] eqn:Hfind;
      [|by left].
    apply pq_find_entry_Some in Hfind as [_ Hi]. simpl. rewrite heapify_perm.
    destruct (seq_remove_rest (PriorityQueue._heap q) entry i) as [rest Hrest].
    { by eapply lookup_lt_Some. }
    intros Hw. left. rewrite Hrest. apply elem_of_app. by right.
  - unfold PriorityQueue.update_priority.
    destruct (PriorityQueue._find_entry item q) as [[i entry]|] eqn:Hfind;
      [|by left].
    apply pq_first_match in Hfind as (Hi & Hmatch & _). simpl.
    rewrite heappush_perm.
    destruct (seq_remove_rest (PriorityQueue._heap q) entry i) as [rest Hrest].
    { by eapply lookup_lt_Some. }
    intros [->|Hw]%elem_of_cons.
    + right. right. exists p, entry. simpl.
      split_and!; [done|by eapply list_elem_of_lookup_2|done|done].
    + left. rewrite Hrest. apply elem_of_app. by right.
Qed.

Lemma pq_items_app (ops ops' : list (pqueue_op T)) :
  pq_items (ops ++ ops') = pq_items ops ++ pq_items ops'.
Proof. unfold pq_items. apply omap_app. Qed.

Lemma pq_items_enqueue (ops : list (pqueue_op T)) now x p :
  PEnqueue now x p ∈ ops -> x ∈ pq_items ops.
Proof.
  intros Hin. unfold pq_items. apply list_elem_of_omap.
  by exists (PEnqueue now x p).
Qed.

(** When the items of a run are equal only to themselves, every wrapper
    of the queue carries the time of an [enqueue] of its item. *)
Lemma pqueue_run_enqueued (ops : list (pqueue_op T)) q :
  PriorityQueue._heap q = [] ->
  equal_only_to_itself (pq_items ops) ->
  Forall (fun w => exists p,
            PEnqueue (PriorityItem.entry_time w) (PriorityItem.item w) p ∈ ops)
    (PriorityQueue._heap (pqueue_run ops q)).
Proof.
  intros Hq. induction ops as [|o ops IH] using rev_ind; intros Hown.
  - simpl. rewrite Hq. constructor.
  - unfold pqueue_run in *. rewrite foldl_app. simpl.
    assert (equal_only_to_itself (pq_items ops)) as Hown'.
    { eapply equal_only_to_itself_subseteq; [|exact Hown].
      rewrite pq_items_app. intros x Hx. apply elem_of_app. by left. }
    specialize (IH Hown'). rewrite Forall_forall in IH.
    apply Forall_forall. intros w Hw.
    destruct (pqueue_step_wrapper o _ w Hw)
      as [Hold|[[p ->]|(p & old & -> & Hold & Hmatch & Htime)]].
    + destruct (IH w Hold) as [p Hp]. exists p. apply elem_of_app. by left.
    + exists p. apply elem_of_app. right. by apply list_elem_of_singleton.
    + destruct (IH old Hold) as [p0 Hp0].
      assert (PriorityItem.item old = PriorityItem.item w) as Hitem.
      { pose proof (proj1 (equal_only_to_itself_spec _) Hown) as Hid.
        apply Hid; [| |done].
        - rewrite pq_items_app. apply elem_of_app. left.
          by eapply pq_items_enqueue.
        - rewrite pq_items_app. apply elem_of_app. right. simpl. left. }
      exists p0. apply elem_of_app. left. by rewrite Htime, <- Hitem.
Qed.

End priority_wrappers.


(** ** The matching test *)

Lemma py_is_or_eq_true {T} `{PyObject T} (a b : T) :
  py_is_or_eq a b = true <-> a = b \/ py_eq a b = true.
Proof. unfold py_is_or_eq. by rewrite orb_true_iff, bool_decide_eq_true. Qed.

Lemma py_is_or_eq_false {T} `{PyObject T} (a b : T) :
  py_is_or_eq a b = false <-> a <> b /\ py_eq a b = false.
Proof. unfold py_is_or_eq. by rewrite orb_false_iff, bool_decide_eq_false. Qed.


(* ================================================================= *)
(** * The claims of the specification *)

(** C1, as stated, fails: after one enqueue and a [reset_stats] the
    tracker reports one item and [entries - exits] is zero. *)
Lemma reset_stats_breaks_balance :
  let q := queue_run [QEnqueue 0 job1; QResetStats]
             (Queue.__init__ (C:=string) "Queue_1" 0 "") in
  QueueStats.current_length (Queue.stats q)
  <> entries (Queue.stats q) - exits (Queue.stats q).
Proof. vm_compute. discriminate. Qed.

(** C1 (amended): after any sequence of operations on a new queue the
    tracker's [current_length] is the number of items the container
    holds.  On the FIFO queue [current_length] is [entries - exits] plus
    the number of items held at the last [reset_stats] (zero when there
    was none), [clear] raising and changing nothing; on the priority
    queue, which has neither [clear] nor [reset_stats],
    [current_length] is [entries - exits]. *)
Theorem length_accounting {T C} `{PyObject T} :
  (forall (ops : list (queue_op T C)) auto_name capacity name,
     let q0 := Queue.__init__ auto_name capacity name in
     let q := queue_run ops q0 in
     QueueStats.current_length (Queue.stats q) = Queue.__len__ q
     /\ QueueStats.current_length (Queue.stats q)
        = entries (Queue.stats q) - exits (Queue.stats q)
          + held_at_reset ops q0 0)
  /\ (forall (ops : list (pqueue_op T)) auto_name priority_fn capacity name,
     let q := pqueue_run ops
                (PriorityQueue.__init__ auto_name priority_fn capacity name) in
     QueueStats.current_length (PriorityQueue.stats q) = PriorityQueue.__len__ q
     /\ QueueStats.current_length (PriorityQueue.stats q)
        = entries (PriorityQueue.stats q) - exits (PriorityQueue.stats q)).
Proof.
  split.
  - intros ops auto_name capacity name q0 q.
    apply (queue_run_accounted ops q0 0). apply queue_init_accounted.
  - intros ops auto_name priority_fn capacity name q.
    by apply (pqueue_run_accounted ops).
Qed.

(** C2, as stated, fails: with the priorities 1, NaN, 2, 0 the item of
    priority 1 comes out before the item of priority 0.  (A NaN is not
    smaller than anything and nothing is smaller than it, so the 0 that
    [heappush] puts below the NaN stays there.) *)
Lemma nan_priority_breaks_order :
  let q := enqueue_all enqueues_1_nan_2_0
             (PriorityQueue.__init__ "PriorityQueue_1" None 0 "") in
  (dequeue_all [4; 5; 6; 7]%float q).1
  = [Some job1; Some job4; Some job2; Some job3]
  /\ PriorityItem.priority <$> PriorityQueue._heap q = [1; nan; 2; 0]%float
  /\ PyFloat.lt 0 1 = true.
Proof. split_and!; reflexivity. Qed.

(** C2 (amended): on a priority queue, after any sequence of enqueues
    whose priorities are numbers (none of them a NaN), successive
    dequeues return the items of the wrappers [out]: the accepted
    enqueues, in non-decreasing order of priority, and among equal
    priorities in increasing order of the sequence number, which is the
    order of the enqueues. *)
Theorem priority_dequeue_order {T} `{PyObject T}
    (auto_name : string) (priority_fn : option (T -> float)) (capacity : Z)
    (name : string) (es : list (enq T)) (nows : list float) :
  let q0 := PriorityQueue.__init__ auto_name priority_fn capacity name in
  let q := enqueue_all es q0 in
  let out := pop_all PriorityItem.__lt__ (length nows) (PriorityQueue._heap q) in
  Forall (fun e => PyFloat.is_number
                     (priority_of (PriorityQueue._priority_fn q0) e)) es ->
  length nows = length (accepted_by capacity es) ->
  (dequeue_all nows q).1 = (fun w => Some (PriorityItem.item w)) <$> out
  /\ out ≡ₚ stamped (PriorityQueue._priority_fn q0) 1 (accepted_by capacity es)
  /\ forall i j a b, (i < j)%nat -> out !! i = Some a -> out !! j = Some b ->
       PyFloat.lt (PriorityItem.priority b) (PriorityItem.priority a) = false
       /\ (PyFloat.eq (PriorityItem.priority a) (PriorityItem.priority b) = true ->
           PriorityItem.index a < PriorityItem.index b).
Proof.
  intros q0 q out Hes Hlen.
  destruct (enqueue_all_heap es q0) as (Hheap & HP & Hperm);
    [apply heap_ordered_short; simpl; lia|by constructor|done|].
  fold q in Hheap, HP, Hperm. simpl in Hperm.
  rewrite Z.sub_0_r in Hperm. fold (accepted_by capacity es) in Hperm.
  assert (length nows = length (PriorityQueue._heap q)) as Hlen'.
  { by rewrite Hlen, (Permutation_length Hperm), stamped_length. }
  assert (out ≡ₚ PriorityQueue._heap q) as Hout by (by apply pop_all_perm).
  split_and!.
  - apply dequeue_all_pop_all. lia.
  - by rewrite Hout, Hperm.
  - intros i j a b Hij Ha Hb.
    assert (PyFloat.is_number (PriorityItem.priority a)) as Hna.
    { rewrite <- Hout in HP. by apply (Forall_lookup_1 _ _ _ _ HP Ha). }
    assert (PyFloat.is_number (PriorityItem.priority b)) as Hnb.
    { rewrite <- Hout in HP. by apply (Forall_lookup_1 _ _ _ _ HP Hb). }
    pose proof (pop_all_sorted (length nows) _ Hheap HP) as Hsorted.
    pose proof (StronglySorted_lookup _ _ _ _ _ _ Hsorted Hij Ha Hb) as Hle.
    destruct (PriorityItem_le_inv a b Hna Hnb Hle) as [Hlt Htie].
    split; [done|]. intros Heq. specialize (Htie Heq).
    assert (PriorityItem.index a <> PriorityItem.index b); [|lia].
    intros Hidx.
    assert (NoDup (PriorityItem.index <$> out)) as Hnd.
    { rewrite Hout, Hperm. apply sorted_index_nodup, stamped_sorted. }
    assert (i = j); [|lia].
    eapply (NoDup_lookup _ _ _ _ Hnd); rewrite list_lookup_fmap.
    + by rewrite Ha.
    + rewrite Hb. simpl. by rewrite Hidx.
Qed.

(** Scenario B through the theorem: the priorities 5, 1, 5, 3 come out
    as 1, 3, and the two 5s in the order they came in. *)
Lemma priority_dequeue_order_5_1_5_3 :
  (dequeue_all [4; 5; 6; 7]%float
     (enqueue_all enqueues_5_1_5_3
        (PriorityQueue.__init__ "PriorityQueue_1" None 0 ""))).1
  = [Some job2; Some job4; Some job1; Some job3].
Proof.
  destruct (priority_dequeue_order "PriorityQueue_1" None 0 ""
              enqueues_5_1_5_3 [4; 5; 6; 7]%float) as [Hitems _].
  - repeat constructor.
  - reflexivity.
  - rewrite Hitems. vm_compute. reflexivity.
Defined.

(** C3: with a capacity [c > 0] no sequence of operations on a new queue
    takes its length above [c], and an enqueue on a queue that holds [c]
    items returns [False], leaves the queue as it is and calls no
    callback; the same for the priority queue. *)
Theorem capacity_never_exceeded {T C} `{PyObject T} (c : Z) :
  0 < c ->
  (forall (ops : list (queue_op T C)) auto_name name,
     Queue.__len__ (queue_run ops (Queue.__init__ auto_name c name)) <= c)
  /\ (forall (q : Queue.t T C) now item,
        Queue.capacity q = c -> Queue.__len__ q = c ->
        Queue.enqueue now item q = (false, q, []))
  /\ (forall (ops : list (pqueue_op T)) auto_name priority_fn name,
        PriorityQueue.__len__
          (pqueue_run ops (PriorityQueue.__init__ auto_name priority_fn c name))
        <= c)
  /\ (forall (q : PriorityQueue.t T) now item priority,
        PriorityQueue._capacity q = c -> PriorityQueue.__len__ q = c ->
        PriorityQueue.enqueue now item priority q = (false, q)).
Proof.
  intros Hc. split_and!.
  - intros ops auto_name name.
    apply queue_run_bounded; [done|done|unfold Queue.__len__; simpl; lia].
  - intros q now item Hcap Hlen. apply enqueue_full.
    unfold Queue.is_full, Queue.capacity in *. rewrite Hcap, Hlen.
    destruct (c =? 0) eqn:Hz; lia.
  - intros ops auto_name priority_fn name.
    apply pqueue_run_bounded;
      [done|done|unfold PriorityQueue.__len__; simpl; lia].
  - intros q now item priority Hcap Hlen. apply pq_enqueue_full.
    unfold PriorityQueue.is_full. rewrite Hcap, Hlen.
    destruct (c =? 0) eqn:Hz; lia.
Qed.

(** Scenario A: a FIFO queue of capacity 3 refuses the fourth enqueue
    at time 0 and keeps its three items. *)
Lemma capacity_three_fourth_refused :
  let q := queue_run [QEnqueue 0 job1; QEnqueue 0 job2; QEnqueue 0 job3]
             (Queue.__init__ (C:=string) "Queue_1" 3 "") in
  Queue.enqueue 0 job4 q = (false, q, []) /\ Queue.__len__ q = 3.
Proof.
  intros q. split; [|reflexivity].
  destruct (capacity_never_exceeded (T:=Job) (C:=string) 3) as (_ & Hfull & _);
    [lia|].
  apply Hfull; reflexivity.
Defined.




(** C5: an entry or exit recorded at [t] first adds
    [current_length * (t - last_change_time)] to [area], with the length
    before the change, and then changes the counts; [average_length] is
    [area / last_change_time], and 0 when [last_change_time] is zero;
    two enqueues at time 0 and a dequeue at time 5 give [area] 10 and
    [average_length] 2.0. *)
Theorem occupancy_integral :
  (forall t s,
     let s' := QueueStats.record_entry t s in
     area s' = (area s + PyFloat.of_int (QueueStats.current_length s)
                         * (t - _last_change_time s))%float
     /\ _last_change_time s' = t
     /\ entries s' = entries s + 1 /\ exits s' = exits s
     /\ QueueStats.current_length s' = QueueStats.current_length s + 1
     /\ max_length s' = Z.max (max_length s) (QueueStats.current_length s + 1)
     /\ total_wait_time s' = total_wait_time s)
  /\ (forall t w s,
     let s' := QueueStats.record_exit t w s in
     area s' = (area s + PyFloat.of_int (QueueStats.current_length s)
                         * (t - _last_change_time s))%float
     /\ _last_change_time s' = t
     /\ entries s' = entries s /\ exits s' = exits s + 1
     /\ QueueStats.current_length s' = QueueStats.current_length s - 1
     /\ max_length s' = max_length s
     /\ total_wait_time s' = (total_wait_time s + w)%float)
  /\ (forall s,
     QueueStats.average_length s
     = if PyFloat.eq (_last_change_time s) 0 then 0%float
       else (area s / _last_change_time s)%float)
  /\ (let q := queue_run [QEnqueue 0 job1; QEnqueue 0 job2; QDequeue 5]
                 (Queue.__init__ (C:=string) "Queue_1" 0 "") in
      area (Queue.stats q) = 10%float
      /\ QueueStats.average_length (Queue.stats q) = 2%float
      /\ QueueStats.current_length (Queue.stats q) = 1).
Proof.
  split_and!; intros; split_and?; reflexivity.
Qed.

(** C6 (the code departs from it): [clear] reads [self._items], an
    attribute no [Queue] has, so it raises [AttributeError] before it
    removes anything: no item is returned, no exit is recorded, and a
    queue that holds two items still holds them. *)
Theorem clear_raises_attribute_error {T C} `{PyObject T}
    (now : float) (q : Queue.t T C) :
  Queue.getattr q "_items" = Raise AttributeError
  /\ Queue.clear now q = (Raise AttributeError, q, [])
  /\ (let q2 := queue_run [QEnqueue 0 job1; QEnqueue 1 job2]
                  (Queue.__init__ (C:=string) "Queue_1" 0 "") in
      Queue.clear 2 q2 = (Raise AttributeError, q2, [])
      /\ Queue.is_empty (Queue.clear 2 q2).1.2 = false
      /\ exits (Queue.stats (Queue.clear 2 q2).1.2) = 0).
Proof. split_and!; [reflexivity..|]. intros q2. split_and!; reflexivity. Qed.

(** C7, as stated, fails: [update_priority(twin2, 5)] on a queue that
    holds [twin1] (since 0) and [twin2] (since 1) takes out the wrapper
    of [twin1], which the scan meets first, and queues [twin2] a second
    time with the entry time of [twin1]; and on a queue that holds
    [twin1] only, where [twin2] is not present, it returns [True] and
    puts [twin2] in the place of [twin1]. *)
Lemma update_priority_takes_equal_item :
  let q0 := PriorityQueue.__init__ "PriorityQueue_1" None 0 "" in
  let q := pqueue_run [PEnqueue 0 twin1 (Some 1); PEnqueue 1 twin2 (Some 2)]%float
             q0 in
  let q1 := pqueue_run [PEnqueue 0 twin1 (Some 1)]%float q0 in
  PriorityQueue.update_priority twin2 5 q
  = (true,
     PriorityQueue.with_content q
       [PriorityItem.mk 2 2 twin2 1; PriorityItem.mk 5 3 twin2 0]%float 3
       (PriorityQueue._stats q))
  /\ PriorityItem.item <$> PriorityQueue._heap q1 = [twin1]
  /\ PriorityQueue.update_priority twin2 5 q1
     = (true,
        PriorityQueue.with_content q1 [PriorityItem.mk 5 2 twin2 0]%float 2
          (PriorityQueue._stats q1)).
Proof. split_and!; reflexivity. Qed.

(** C7 (amended): on any priority queue reached from a new one,
    [update_priority(item, p)] returns [False] and changes nothing when
    no wrapper matches [item], that is holds it or an object equal to
    it.  Otherwise it returns [True]; the first wrapper of the heap list
    that matches leaves the heap, and a wrapper for [item] with the
    priority [p], the next sequence number (above all others) and the
    entry time of the wrapper found comes in; the statistics stay; and
    the dequeue that takes the new wrapper returns [item] and records
    the time since that entry time.  When the items of the run are equal
    only to themselves, the wrapper found is the one of [item] and its
    entry time is the time of an [enqueue] of [item]. *)
Theorem update_priority_keeps_entry_time {T} `{PyObject T}
    (ops : list (pqueue_op T)) auto_name priority_fn capacity name
    (item : T) (new_priority : float) :
  let q := pqueue_run ops
             (PriorityQueue.__init__ auto_name priority_fn capacity name) in
  let q' := (PriorityQueue.update_priority item new_priority q).2 in
  (Forall (fun w => PriorityQueue.matches item w = false)
     (PriorityQueue._heap q) ->
   PriorityQueue.update_priority item new_priority q = (false, q))
  /\ (forall i entry,
        first_match (PriorityQueue.matches item) (PriorityQueue._heap q) i entry ->
        let new_entry :=
          PriorityItem.mk new_priority (PriorityQueue._counter q + 1) item
            (PriorityItem.entry_time entry) in
        (PriorityQueue.update_priority item new_priority q).1 = true
        /\ PriorityQueue._heap q' ≡ₚ new_entry :: delete i (PriorityQueue._heap q)
        /\ PriorityQueue._counter q' = PriorityQueue._counter q + 1
        /\ Forall (fun w => PriorityItem.index w < PriorityItem.index new_entry)
             (PriorityQueue._heap q)
        /\ PriorityQueue._stats q' = PriorityQueue._stats q
        /\ (forall now (q'' : PriorityQueue.t T),
              PriorityQueue._heap q'' !! 0%nat = Some new_entry ->
              (PriorityQueue.dequeue now q'').1 = Some item
              /\ new_entry :: PriorityQueue._heap (PriorityQueue.dequeue now q'').2
                 ≡ₚ PriorityQueue._heap q''
              /\ total_wait_time
                   (PriorityQueue.stats (PriorityQueue.dequeue now q'').2)
                 = (total_wait_time (PriorityQueue.stats q'')
                    + (now - PriorityItem.entry_time entry))%float
              /\ exits (PriorityQueue.stats (PriorityQueue.dequeue now q'').2)
                 = exits (PriorityQueue.stats q'') + 1)
        /\ (equal_only_to_itself
              (pq_items (ops ++ [PUpdatePriority item new_priority])) ->
            PriorityItem.item entry = item
            /\ exists p,
                 PEnqueue (PriorityItem.entry_time entry) item p ∈ ops)).
Proof.
  intros q q'.
  assert (stamps_ok q) as Hok.
  { apply pqueue_run_stamps_ok, pqueue_init_stamps_ok. }
  split.
  { intros Hnone%pq_no_match. unfold PriorityQueue.update_priority.
    by rewrite Hnone. }
  intros i entry Hfirst new_entry. unfold q'.
  rewrite (pq_update_first_match item new_priority q i entry Hok Hfirst). simpl.
  split_and!; [done|apply heappush_perm|done| |done| |].
  - destruct Hok as [_ Hle]. eapply Forall_impl; [exact Hle|]. simpl. intros; lia.
  - intros now q'' Hroot.
    destruct (pq_dequeue_head now q'' new_entry Hroot) as (heap' & Heq & Hperm).
    rewrite Heq. by split_and!.
  - intros Hown. destruct Hfirst as (Hi & Hmatch & _).
    assert (equal_only_to_itself (pq_items ops)) as Hown'.
    { eapply equal_only_to_itself_subseteq; [|exact Hown].
      rewrite pq_items_app. intros x Hx. apply elem_of_app. by left. }
    pose proof (pqueue_run_enqueued ops
                  (PriorityQueue.__init__ auto_name priority_fn capacity name)
                  eq_refl Hown') as Hall.
    rewrite Forall_forall in Hall.
    destruct (Hall entry) as [p Hp]; [by eapply list_elem_of_lookup_2|].
    assert (PriorityItem.item entry = item) as Hitem.
    { pose proof (proj1 (equal_only_to_itself_spec _) Hown) as Hid.
      apply Hid; [| |done].
      - rewrite pq_items_app. apply elem_of_app. left. by eapply pq_items_enqueue.
      - rewrite pq_items_app. apply elem_of_app. right. simpl. left. }
    split; [done|]. exists p. by rewrite <- Hitem.
Qed.

(** Scenario E through the theorem: [job1] enters at time 0 with
    priority 5, its priority becomes 0.5 later, and the dequeue at time
    10 hands it out with the wait [10 - 0]; the wrapper found is the
    one of [job1], made by its enqueue at time 0. *)
Lemma update_priority_keeps_entry_time_job1 :
  let ops := [PEnqueue 0 job1 (Some 5); PEnqueue 1 job2 (Some 1)]%float in
  let q := pqueue_run ops (PriorityQueue.__init__ "PriorityQueue_1" None 0 "") in
  let q' := (PriorityQueue.update_priority job1 0.5 q).2 in
  (PriorityQueue.update_priority job1 0.5 q).1 = true
  /\ PriorityQueue._heap q'
     ≡ₚ [PriorityItem.mk 0.5 3 job1 0; PriorityItem.mk 1 2 job2 1]%float
  /\ (PriorityQueue.dequeue 10 q').1 = Some job1
  /\ total_wait_time (PriorityQueue.stats (PriorityQueue.dequeue 10 q').2)
     = (total_wait_time (PriorityQueue.stats q') + (10 - 0))%float
  /\ (exists p, PEnqueue 0%float job1 p ∈ ops).
Proof.
  intros ops q q'.
  destruct (update_priority_keeps_entry_time ops "PriorityQueue_1" None 0 ""
              job1 0.5%float) as [_ Hfound].
  destruct (Hfound 1%nat (PriorityItem.mk 5 1 job1 0))
    as (Hret & Hheap & _ & _ & _ & Hdeq & Hown).
  { split_and!; [reflexivity..|].
    intros [|j] e' Hj He'; [|lia]. by injection He' as <-. }
  destruct (Hdeq 10%float q') as (Hitem & _ & Hwait & _); [reflexivity|].
  destruct Hown as [_ Henq].
  { repeat constructor; intros Heq; done. }
  split_and!; [exact Hret|exact Hheap|exact Hitem|exact Hwait|exact Henq].
Defined.

(** C8, as stated, fails: with [twin1] queued before the equal
    [twin2], [remove(twin2)] takes out [twin1] (and records its wait,
    2.0) and leaves the object [twin2] itself in the queue; the priority
    queue finds the wrapper of [twin1] for [twin2] as well. *)
Lemma earlier_equal_item_is_removed :
  let q := queue_run [QEnqueue 0 twin1; QEnqueue 1 twin2]
             (Queue.__init__ (C:=string) "Queue_1" 0 "") in
  let pq := pqueue_run [PEnqueue 0 twin1 None; PEnqueue 1 twin2 None]
              (PriorityQueue.__init__ "PriorityQueue_1" None 0 "") in
  Queue.__iter__ (Queue.remove 2 twin2 q).2 = [twin2]
  /\ total_wait_time (Queue.stats (Queue.remove 2 twin2 q).2) = 2%float
  /\ (PriorityItem.item ∘ snd <$> PriorityQueue._find_entry twin2 pq) = Some twin1
  /\ (PriorityItem.item <$> PriorityQueue._heap (PriorityQueue.remove 2 twin2 pq).2)
     = [twin2].
Proof. split_and!; reflexivity. Qed.

(** C8 (amended): [contains], [remove] and [_find_entry] test the
    entries in the order of the container with [entry.item is item or
    entry.item == item] and stop at the first entry that passes, whether
    by identity or by equality: identity comes first only within the
    test of one entry.  [remove] records the wait of that entry [e], and
    [deque.remove(e)] then takes out the first entry that is [e] or
    equals it as a wrapper: [e] itself, unless an earlier entry, one
    that failed the test, equals [e], which cannot be when [is or ==]
    is transitive on the items.  When no entry passes, [remove] and
    [contains] return [False] and nothing changes.  On a priority queue
    reached from a new one, where the sequence numbers are distinct,
    [remove] takes out the first wrapper that passes. *)
Theorem first_match_is_taken {T C} `{PyObject T} :
  (forall (x : T) (e : QueueEntry.t T) (w : PriorityItem.t T),
     (Queue.matches x e = true
      <-> QueueEntry.item e = x \/ py_eq (QueueEntry.item e) x = true)
     /\ (PriorityQueue.matches x w = true
         <-> PriorityItem.item w = x \/ py_eq (PriorityItem.item w) x = true))
  /\ (forall (q : Queue.t T C) x,
        Queue.contains x q = true
        <-> Exists (fun e => Queue.matches x e = true) (Queue._entries q))
  /\ (forall (q : Queue.t T C) now x i e,
        first_match (Queue.matches x) (Queue._entries q) i e ->
        exists j, (j <= i)%nat
          /\ Queue.remove now x q
             = (true,
                Queue.with_content q (delete j (Queue._entries q))
                  (QueueStats.record_exit now (now - QueueEntry.entry_time e)
                     (Queue._stats q)))
          /\ (forall k e', (k < j)%nat -> Queue._entries q !! k = Some e' ->
                           QueueEntry.__eq__ e' e = false)
          /\ ((j < i)%nat ->
              exists e', Queue._entries q !! j = Some e'
                         /\ QueueEntry.__eq__ e' e = true)
          /\ ((forall a b c : T,
                 py_is_or_eq a b = true -> py_is_or_eq b c = true ->
                 py_is_or_eq a c = true) ->
              j = i))
  /\ (forall (q : Queue.t T C) now x,
        Forall (fun e => Queue.matches x e = false) (Queue._entries q) ->
        Queue.remove now x q = (false, q) /\ Queue.contains x q = false)
  /\ (forall (ops : list (pqueue_op T)) auto_name priority_fn capacity name
             now x i e,
        let q := pqueue_run ops
                   (PriorityQueue.__init__ auto_name priority_fn capacity name) in
        first_match (PriorityQueue.matches x) (PriorityQueue._heap q) i e ->
        PriorityQueue._find_entry x q = Some (i, e)
        /\ (PriorityQueue.remove now x q).1 = true
        /\ PriorityQueue._heap (PriorityQueue.remove now x q).2
           ≡ₚ delete i (PriorityQueue._heap q)
        /\ PriorityQueue._stats (PriorityQueue.remove now x q).2
           = QueueStats.record_exit now (now - PriorityItem.entry_time e)
               (PriorityQueue._stats q))
  /\ (forall (q : PriorityQueue.t T) now x,
        Forall (fun w => PriorityQueue.matches x w = false)
          (PriorityQueue._heap q) ->
        PriorityQueue._find_entry x q = None
        /\ PriorityQueue.remove now x q = (false, q)).
Proof.
  split_and!.
  - intros x e w. unfold Queue.matches, PriorityQueue.matches.
    split; apply py_is_or_eq_true.
  - intros q x. unfold Queue.contains. apply existsb_Exists.
  - intros q now x i e Hfirst.
    destruct (remove_first_match now x q i e Hfirst)
      as (j & Hj & Heq & Hbefore & Hat).
    exists j. split_and!; [done..|]. intros Htrans.
    destruct (decide (j = i)) as [->|Hne]; [done|].
    destruct Hat as (e' & He' & Hsame); [lia|].
    destruct Hfirst as (Hi & He & Hnone).
    unfold QueueEntry.__eq__ in Hsame. apply andb_true_iff in Hsame as [Hsame _].
    assert (Queue.matches x e' = true) as Hyes.
    { unfold Queue.matches in *. by apply (Htrans _ _ _ Hsame). }
    rewrite (Hnone j e') in Hyes; [done|lia|done].
  - intros q now x Hnone. apply find_index_Forall in Hnone as Hfind. split.
    + by apply remove_absent.
    + unfold Queue.contains. apply not_true_is_false.
      rewrite existsb_Exists. intros Hex.
      apply Exists_exists in Hex as (e & He & Hyes).
      rewrite Forall_forall in Hnone. by rewrite (Hnone e He) in Hyes.
  - intros ops auto_name priority_fn capacity name now x i e q Hfirst.
    assert (stamps_ok q) as Hok.
    { apply pqueue_run_stamps_ok, pqueue_init_stamps_ok. }
    split; [by apply pq_first_match|].
    rewrite (pq_remove_first_match now x q i e Hok Hfirst). simpl.
    split_and!; [done|apply heapify_perm|done].
  - intros q now x Hnone%pq_no_match. split; [done|].
    unfold PriorityQueue.remove. by rewrite Hnone.
Qed.

(** The twins through the theorem: [remove(twin2)] takes out entry 0,
    the wrapper of [twin1]. *)
Lemma first_match_is_taken_twins :
  let q := queue_run [QEnqueue 0 twin1; QEnqueue 1 twin2]
             (Queue.__init__ (C:=string) "Queue_1" 0 "") in
  Queue.remove 2 twin2 q
  = (true,
     Queue.with_content q (delete 0%nat (Queue._entries q))
       (QueueStats.record_exit 2 (2 - 0) (Queue._stats q))).
Proof.
  intros q.
  destruct (first_match_is_taken (T:=Job) (C:=string)) as (_ & _ & Hremove & _).
  destruct (Hremove q 2%float twin2 0%nat (QueueEntry.mk twin1 0))
    as (j & Hj & Heq & _).
  - split_and!; [reflexivity..|]. intros j e' Hj. lia.
  - replace j with 0%nat in Heq by lia. exact Heq.
Defined.

(** Without transitivity the entry taken out need not pass the test:
    with the readings 0 and 6 queued at one time, [remove(12)] finds the
    6 (12 is not equal to 0) and [deque.remove] then takes out the 0,
    which equals the 6; the queue still contains a match for 12. *)
Remark remove_can_take_an_entry_that_fails_the_test :
  let q := queue_run [QEnqueue 0 (mkReading 0); QEnqueue 0 (mkReading 6)]
             (Queue.__init__ (C:=string) "Queue_1" 0 "") in
  Queue.matches (mkReading 12) (QueueEntry.mk (mkReading 0) 0) = false
  /\ (Queue.remove 1 (mkReading 12) q).1 = true
  /\ Queue.__iter__ (Queue.remove 1 (mkReading 12) q).2 = [mkReading 6]
  /\ Queue.contains (mkReading 12) (Queue.remove 1 (mkReading 12) q).2 = true.
Proof. split_and!; reflexivity. Qed.

(** C9, as stated, fails: a priority queue has no [reset_stats] and no
    [on_enqueue] or [on_dequeue], which the FIFO queue has. *)
Lemma priority_queue_lacks_reset_and_callbacks :
  let pq := PriorityQueue.__init__ (T:=Job) "PriorityQueue_1" None 0 "" in
  let q := Queue.__init__ (T:=Job) (C:=string) "Queue_1" 0 "" in
  Forall (fun attr =>
            PriorityQueue.getattr (C:=string) pq attr = Raise AttributeError
            /\ Queue.getattr q attr = Ok (VMethod attr))
    ["reset_stats"; "on_enqueue"; "on_dequeue"].
Proof. repeat constructor. Qed.

(** C9 (amended): a priority queue keeps the statistics tracker of the
    FIFO queue and shows it as [stats]; an enqueue is accepted or
    refused and recorded as on a FIFO queue of the same capacity, length
    and statistics; a dequeue on an empty heap returns [None] and
    records nothing, and otherwise it takes the wrapper at index 0 and
    records an exit at the time of the call with the wait of that
    wrapper, as the FIFO queue does for a head entry of the same entry
    time.  It has no [reset_stats], no [on_enqueue] or [on_dequeue] and
    no callback slot: looking them up raises [AttributeError], and none
    of its attributes holds a callback. *)
Theorem priority_queue_statistics_surface {T C} `{PyObject T}
    (pq : PriorityQueue.t T) :
  PriorityQueue.getattr (C:=C) pq "stats" = Ok (VStats (PriorityQueue._stats pq))
  /\ Forall (fun attr => PriorityQueue.getattr (C:=C) pq attr = Raise AttributeError)
       ["reset_stats"; "on_enqueue"; "on_dequeue"; "_on_enqueue"; "_on_dequeue"]
  /\ Forall (fun kv => forall c, kv.2 <> VCallback c)
       (PriorityQueue.__dict__ (C:=C) pq ++ PriorityQueue.class_attrs pq)
  /\ (forall (q : Queue.t T C) now item priority,
        Queue.capacity q = PriorityQueue._capacity pq ->
        Queue.__len__ q = PriorityQueue.__len__ pq ->
        Queue.stats q = PriorityQueue.stats pq ->
        (Queue.enqueue now item q).1.1
        = (PriorityQueue.enqueue now item priority pq).1
        /\ Queue.stats (Queue.enqueue now item q).1.2
           = PriorityQueue.stats (PriorityQueue.enqueue now item priority pq).2)
  /\ (forall now,
        PriorityQueue._heap pq = [] ->
        PriorityQueue.dequeue now pq = (None, pq))
  /\ (forall now w,
        PriorityQueue._heap pq !! 0%nat = Some w ->
        (PriorityQueue.dequeue now pq).1 = Some (PriorityItem.item w)
        /\ w :: PriorityQueue._heap (PriorityQueue.dequeue now pq).2
           ≡ₚ PriorityQueue._heap pq
        /\ PriorityQueue.stats (PriorityQueue.dequeue now pq).2
           = QueueStats.record_exit now (now - PriorityItem.entry_time w)
               (PriorityQueue.stats pq))
  /\ (forall (q : Queue.t T C) now e w,
        Queue.stats q = PriorityQueue.stats pq ->
        Queue._entries q !! 0%nat = Some e ->
        PriorityQueue._heap pq !! 0%nat = Some w ->
        QueueEntry.entry_time e = PriorityItem.entry_time w ->
        Queue.stats (Queue.dequeue now q).1.2
        = PriorityQueue.stats (PriorityQueue.dequeue now pq).2).
Proof.
  split_and!; [reflexivity|repeat constructor|repeat constructor; done|..].
  - intros q now item priority Hcap Hlen Hstats.
    assert (Queue.is_full q = PriorityQueue.is_full pq) as Hfull.
    { unfold Queue.is_full, PriorityQueue.is_full, Queue.capacity in *.
      by rewrite Hcap, Hlen. }
    destruct (PriorityQueue.is_full pq) eqn:Hpq.
    + by rewrite enqueue_full, pq_enqueue_full.
    + rewrite enqueue_accepts, pq_enqueue_accepts by done.
      unfold Queue.stats, PriorityQueue.stats in *. simpl. by rewrite Hstats.
  - intros now Hheap. by apply pq_dequeue_empty.
  - intros now w Hw.
    destruct (pq_dequeue_head now pq w Hw) as (heap' & Heq & Hperm).
    rewrite Heq. by split_and!.
  - intros q now e w Hstats He Hw Htime.
    destruct (pq_dequeue_head now pq w Hw) as (heap' & Heq & _). rewrite Heq.
    destruct (Queue._entries q) as [|e0 rest] eqn:Hes; [done|].
    simpl in He. injection He as ->.
    rewrite (dequeue_head _ _ _ _ Hes).
    unfold Queue.stats, PriorityQueue.stats in *. simpl.
    by rewrite Hstats, Htime.
Qed.

(** A new priority queue and a new FIFO queue through the theorem: the
    first enqueue is accepted and recorded alike, and so is the dequeue
    that follows it. *)
Lemma priority_queue_statistics_surface_new :
  let pq := PriorityQueue.__init__ (T:=Job) "PriorityQueue_1" None 0 "" in
  let q := Queue.__init__ (T:=Job) (C:=string) "Queue_1" 0 "" in
  let pq1 := (PriorityQueue.enqueue 0 job1 None pq).2 in
  let q1 := (Queue.enqueue 0 job1 q).1.2 in
  (Queue.enqueue 0 job1 q).1.1 = (PriorityQueue.enqueue 0 job1 None pq).1
  /\ Queue.stats q1 = PriorityQueue.stats pq1
  /\ PriorityQueue.stats (PriorityQueue.dequeue 10 pq1).2
     = QueueStats.record_exit 10 (10 - 0) (PriorityQueue.stats pq1)
  /\ Queue.stats (Queue.dequeue 10 q1).1.2
     = PriorityQueue.stats (PriorityQueue.dequeue 10 pq1).2.
Proof.
  intros pq q pq1 q1.
  destruct (priority_queue_statistics_surface (T:=Job) (C:=string) pq)
    as (_ & _ & _ & Henq & _).
  destruct (priority_queue_statistics_surface (T:=Job) (C:=string) pq1)
    as (_ & _ & _ & _ & _ & Hdeq & Hsame).
  split_and!.
  - apply Henq; reflexivity.
  - apply Henq; reflexivity.
  - apply (Hdeq 10%float (PriorityItem.mk 0 1 job1 0)). reflexivity.
  - apply (Hsame q1 10%float (QueueEntry.mk job1 0) (PriorityItem.mk 0 1 job1 0));
      reflexivity.
Defined.

(** C10: a priority queue built without a priority function gives every
    item enqueued without a priority the priority [0.0], and successive
    dequeues return the accepted items in the order of their enqueues. *)
Theorem default_priority_is_fifo {T} `{PyObject T}
    (auto_name : string) (capacity : Z) (name : string)
    (xs : list (float * T)) (nows : list float) :
  let es : list (enq T) := (fun x => (x.1, x.2, None)) <$> xs in
  let q := enqueue_all es (PriorityQueue.__init__ auto_name None capacity name) in
  length nows = length (accepted_by capacity xs) ->
  Forall (fun w => PriorityItem.priority w = 0%float) (PriorityQueue._heap q)
  /\ (dequeue_all nows q).1 = (fun x => Some x.2) <$> accepted_by capacity xs.
Proof.
  intros es q Hlen.
  set (q0 := PriorityQueue.__init__ auto_name None capacity name) in *.
  assert (Forall (fun e : enq T =>
            priority_of (PriorityQueue._priority_fn q0) e = 0%float) es) as Hes.
  { apply Forall_fmap, Forall_true. by intros [now item]. }
  destruct (enqueue_all_heap es q0) as (Hheap & _ & Hperm);
    [apply heap_ordered_short; simpl; lia|by constructor| |].
  { eapply Forall_impl; [exact Hes|]. by intros e ->. }
  fold q in Hheap, Hperm. simpl in Hperm.
  rewrite Z.sub_0_r in Hperm. fold (accepted_by capacity es) in Hperm.
  assert (accepted_by capacity es
          = (fun x => (x.1, x.2, None)) <$> accepted_by capacity xs) as Hadm.
  { unfold accepted_by, es. destruct (capacity =? 0); [done|]. by rewrite fmap_take. }
  assert (Forall (fun w => PriorityItem.priority w = 0%float)
            (stamped (fun _ : T => 0%float) 1 (accepted_by capacity es))) as Hzero.
  { rewrite Hadm. apply stamped_default_priority. }
  assert (length nows = length (PriorityQueue._heap q)) as Hlen'.
  { by rewrite Hlen, (Permutation_length Hperm), stamped_length, Hadm, length_fmap. }
  split; [by rewrite Hperm|].
  rewrite dequeue_all_pop_all by lia.
  rewrite (pop_all_zero_priority (length nows) (PriorityQueue._heap q)
             (stamped (fun _ : T => 0%float) 1 (accepted_by capacity es)) Hheap);
    [|by rewrite Hperm|done|exact Hperm|apply stamped_sorted].
  rewrite Hadm. apply stamped_default_items.
Qed.

(** Four jobs through the theorem: they come out as they came in. *)
Lemma default_priority_is_fifo_four_jobs :
  (dequeue_all [4; 5; 6; 7]%float
     (enqueue_all
        [(0, job3, None); (1, job1, None); (2, job4, None); (3, job2, None)]%float
        (PriorityQueue.__init__ "PriorityQueue_1" None 0 ""))).1
  = [Some job3; Some job1; Some job4; Some job2].
Proof.
  destruct (default_priority_is_fifo "PriorityQueue_1" 0 ""
              [(0, job3); (1, job1); (2, job4); (3, job2)]%float
              [4; 5; 6; 7]%float) as [_ Hitems].
  - reflexivity.
  - exact Hitems.
Defined.

(** Beside the claims: [update_priority] takes the old wrapper out with
    [list.remove] and pushes the new one without a [heapify] (which
    [remove] does call), so the list it leaves need not be in heap
    order.  After enqueues with the priorities 1, 2, 10, 3, 4, 11, 12
    and an update of the first item to priority 100, the dequeues hand
    out the item of priority 10 before the item of priority 4. *)
Remark update_priority_skips_heapify :
  let job n := mkJob n (Z.of_nat n) in
  let q := pqueue_run
             [ PEnqueue 0 (job 1%nat) (Some 1); PEnqueue 0 (job 2%nat) (Some 2);
               PEnqueue 0 (job 10%nat) (Some 10); PEnqueue 0 (job 3%nat) (Some 3);
               PEnqueue 0 (job 4%nat) (Some 4); PEnqueue 0 (job 11%nat) (Some 11);
               PEnqueue 0 (job 12%nat) (Some 12);
               PUpdatePriority (job 1%nat) 100 ]%float
             (PriorityQueue.__init__ "PriorityQueue_1" None 0 "") in
  (PriorityItem.priority <$> PriorityQueue._heap q)
  = [2; 10; 3; 4; 11; 12; 100]%float
  /\ (dequeue_all [1; 1; 1; 1; 1; 1; 1]%float q).1
     = Some <$> [job 2%nat; job 3%nat; job 10%nat; job 4%nat; job 11%nat;
                 job 12%nat; job 1%nat].
Proof. split; reflexivity. Qed.

(* ================================================================= *)
(** * Further properties of the code *)

(** ** heapify builds the heap order *)

Section heapq_heapify.
Context {A : Type} (lt : A -> A -> bool) (P : A -> Prop).
Context (Hord : heap_preorder lt P).
Implicit Types heap : list A.

Lemma heap_below_ge s p : heap_below s p -> (s <= p)%nat.
Proof. induction 1; lia. Qed.

Lemma heap_below_parent s p :
  heap_below s p -> p <> s ->
  heap_below s ((p - 1) / 2) /\ (s <= (p - 1) / 2)%nat /\ (0 < p)%nat.
Proof.
  intros Hbelow Hne. destruct Hbelow as [|q Hq|q Hq]; [done|..].
  - replace ((2 * q + 1 - 1) / 2)%nat with q by lia.
    split_and!; [done|by apply heap_below_ge|lia].
  - replace ((2 * q + 2 - 1) / 2)%nat with q by lia.
    split_and!; [done|by apply heap_below_ge|lia].
Qed.

Lemma heap_ordered_from_0 heap :
  heap_ordered_from lt 0 heap <-> heap_ordered lt heap.
Proof.
  split.
  - intros Hfrom i Hi. apply Hfrom; [done|lia].
  - intros Hheap i Hi _. by apply Hheap.
Qed.

Lemma _siftdown_loop_ordered_from fuel heap x s pos heap' pos' :
  heapq._siftdown_loop lt fuel heap x s pos = (heap', pos') ->
  (pos <= fuel)%nat -> (pos < length heap)%nat -> heap_below s pos ->
  Forall P heap -> P x ->
  (forall i, (0 < i)%nat -> (s <= (i - 1) / 2)%nat -> i <> pos ->
             heap_edge lt (<[pos:=x]> heap) i) ->
  (forall c y z, (0 < pos)%nat -> (s <= (pos - 1) / 2)%nat ->
                 (0 < c)%nat -> ((c - 1) / 2)%nat = pos ->
                 <[pos:=x]> heap !! c = Some y ->
                 <[pos:=x]> heap !! ((pos - 1) / 2)%nat = Some z ->
                 lt y z = false) ->
  heap_ordered_from lt s (<[pos':=x]> heap').
Proof.
  revert heap pos. induction fuel as [|fuel IH];
    intros heap pos Hrun Hfuel Hpos Hbelow HP Hx Hedges Hgrand;
    cbn [heapq._siftdown_loop] in Hrun.
  { simplify_eq. intros i Hi Hreg. apply Hedges; [done|done|lia]. }
  destruct (s <? pos)%nat eqn:Hlt.
  2:{ apply Nat.ltb_ge in Hlt. simplify_eq. intros i Hi Hreg.
      apply Hedges; [done|done|]. intros ->. lia. }
  apply Nat.ltb_lt in Hlt.
  destruct (heap_below_parent s pos Hbelow) as (Hbelow' & Hreg & Hpos0); [lia|].
  destruct (lookup_lt_is_Some_2 heap ((pos - 1) / 2)%nat) as [parent Hpar]; [lia|].
  rewrite Hpar in Hrun.
  assert (P parent) as Hparent by (by eapply Forall_lookup_1).
  assert (<[pos:=x]> heap !! pos = Some x) as Hat by (by apply list_lookup_insert_eq).
  assert (<[pos:=x]> heap !! ((pos - 1) / 2)%nat = Some parent) as Hat'.
  { rewrite list_lookup_insert_ne; [done|lia]. }
  destruct (lt x parent) eqn:Hcmp.
  2:{ simplify_eq. intros i Hi Hregi. destruct (decide (i = pos')) as [->|Hne].
      - intros x' y' Hx' Hy'. by simplify_eq.
      - by apply Hedges. }
  assert (lt parent x = false) as Hle by (by apply (hp_asym _ _ Hord)).
  assert (forall k z, <[pos:=x]> heap !! k = Some z -> P z) as HPL.
  { intros k z Hz. destruct (decide (pos = k)) as [->|Hk].
    - by simplify_eq.
    - rewrite list_lookup_insert_ne in Hz by done. by eapply Forall_lookup_1. }
  eapply IH; [exact Hrun|lia|rewrite length_insert; lia|done
             |by apply Forall_insert|done|..].
  all: set (pp := ((pos - 1) / 2)%nat) in *.
  all: assert (forall k, k <> pp -> k <> pos ->
         <[pp:=x]> (<[pos:=parent]> heap) !! k = <[pos:=x]> heap !! k) as Hother
         by (intros k ? ?; by rewrite !list_lookup_insert_ne).
  all: assert (<[pp:=x]> (<[pos:=parent]> heap) !! pp = Some x) as Hnew
         by (apply list_lookup_insert_eq; rewrite length_insert; lia).
  all: assert (<[pp:=x]> (<[pos:=parent]> heap) !! pos = Some parent) as Hnew'
         by (rewrite list_lookup_insert_ne by lia; by apply list_lookup_insert_eq).
  - intros i Hi Hregi Hne x' y' Hx' Hy'.
    destruct (decide (i = pos)) as [->|Hipos].
    { fold pp in Hy'. rewrite Hnew' in Hx'. rewrite Hnew in Hy'. by simplify_eq. }
    rewrite Hother in Hx' by done.
    destruct (decide (((i - 1) / 2)%nat = pp)) as [Heq|Hneq].
    { rewrite Heq, Hnew in Hy'. injection Hy' as <-.
      apply (hp_trans _ _ Hord x parent x'); eauto.
      apply (Hedges i Hi Hregi Hipos); [done|]. by rewrite Heq. }
    destruct (decide (((i - 1) / 2)%nat = pos)) as [Heq|Hneq'].
    { rewrite Heq, Hnew' in Hy'. injection Hy' as <-.
      apply (Hgrand i x' parent); [lia|done|done|done|done|done]. }
    rewrite Hother in Hy' by done. by apply (Hedges i Hi Hregi Hipos).
  - intros c x' y' Hpp Hregpp Hc Hcp Hx' Hy'.
    rewrite Hother in Hy' by lia.
    assert (lt parent y' = false) as Hup.
    { apply (Hedges pp); [lia|done|lia|done..]. }
    destruct (decide (c = pos)) as [->|Hcpos].
    { rewrite Hnew' in Hx'. by injection Hx' as <-. }
    rewrite Hother in Hx' by lia.
    apply (hp_trans _ _ Hord y' parent x'); eauto.
    apply (Hedges c Hc); [lia|done|done|]. by rewrite Hcp.
Qed.

Lemma _siftup_loop_ordered_from fuel heap s pos heap' pos' :
  heapq._siftup_loop lt fuel heap (length heap) pos = (heap', pos') ->
  (pos < length heap)%nat -> (length heap <= pos + fuel)%nat ->
  heap_below s pos -> Forall P heap ->
  (forall i, (0 < i)%nat -> (s <= (i - 1) / 2)%nat ->
             (((i - 1) / 2)%nat = s -> pos <> s) -> heap_edge lt heap i) ->
  Forall P heap' /\ (length heap <= 2 * pos' + 1)%nat /\ heap_below s pos'
  /\ (pos' <> s -> heap_ordered_from lt s heap')
  /\ (pos' = s -> heap' = heap).
Proof.
  remember (length heap) as endpos eqn:Hend.
  revert heap pos Hend. induction fuel as [|fuel IH];
    intros heap pos Hend Hrun Hpos Hfuel Hbelow HP Hinv;
    cbn [heapq._siftup_loop] in Hrun; [lia|].
  destruct (2 * pos + 1 <? endpos)%nat eqn:Hlt.
  2:{ apply Nat.ltb_ge in Hlt. simplify_eq. split_and!; [done|lia|done| |done].
      intros Hne i Hi Hreg. apply Hinv; [done|done|]. by intros _. }
  apply Nat.ltb_lt in Hlt.
  pose proof (heap_below_ge _ _ Hbelow) as Hsp.
  assert (forall c smaller,
    heap !! c = Some smaller -> (c = 2 * pos + 1 \/ c = 2 * pos + 2)%nat ->
    (forall o z, (2 * pos + 1 <= o <= 2 * pos + 2)%nat -> heap !! o = Some z ->
                 lt z smaller = false) ->
    heapq._siftup_loop lt fuel (<[pos:=smaller]> heap) endpos c = (heap', pos') ->
    Forall P heap' /\ (endpos <= 2 * pos' + 1)%nat /\ heap_below s pos'
    /\ (pos' <> s -> heap_ordered_from lt s heap')
    /\ (pos' = s -> heap' = heap)) as Hstep.
  { intros c smaller Hc Hrange Hmin Hrun'.
    assert (P smaller) as Hsm by (by eapply Forall_lookup_1).
    assert (heap_below s c) as Hbelowc.
    { destruct Hrange as [->| ->]; by constructor. }
    pose proof (_siftup_loop_length _ _ _ _ _ _ _ Hrun') as [_ Hcpos'].
    destruct (IH (<[pos:=smaller]> heap) c) as (HP' & Hleaf & Hbelow' & Hfrom & _);
      [by rewrite length_insert|exact Hrun'| | |done|by apply Forall_insert| |].
    - apply lookup_lt_Some in Hc. lia.
    - lia.
    - intros i Hi Hreg _ x y Hx Hy.
      destruct (decide (((i - 1) / 2)%nat = pos)) as [Hpar|Hpar].
      + rewrite Hpar, list_lookup_insert_eq in Hy by lia. injection Hy as <-.
        rewrite list_lookup_insert_ne in Hx by lia.
        apply (Hmin i); [lia|done].
      + rewrite list_lookup_insert_ne in Hy by done.
        destruct (decide (i = pos)) as [->|Hipos].
        * rewrite list_lookup_insert_eq in Hx by lia. injection Hx as <-.
          destruct (lookup_lt_is_Some_2 heap pos) as [h Hh]; [lia|].
          assert (P h) by (by eapply Forall_lookup_1).
          assert (P y) by (by eapply Forall_lookup_1).
          apply (hp_trans _ _ Hord y h smaller); try done.
          -- apply (Hinv pos); [lia|done|lia|done..].
          -- apply (Hinv c); [lia|lia|lia|done|].
             replace ((c - 1) / 2)%nat with pos by lia. done.
        * rewrite list_lookup_insert_ne in Hx by done.
          apply (Hinv i); [done|done|lia|done..].
    - split_and!; [done|done|done| |intros ->; lia].
      intros _. apply Hfrom. lia. }
  destruct (heap !! (2 * pos + 1)%nat) as [child|] eqn:Hc.
  2:{ apply lookup_ge_None in Hc. lia. }
  assert (P child) by (by eapply Forall_lookup_1).
  destruct (heap !! (2 * pos + 1 + 1)%nat) as [rchild|] eqn:Hr.
  - assert (P rchild) by (by eapply Forall_lookup_1).
    destruct (2 * pos + 1 + 1 <? endpos)%nat eqn:Hrlt.
    2:{ apply Nat.ltb_ge in Hrlt. apply lookup_lt_Some in Hr. lia. }
    destruct (lt child rchild) eqn:Hcmp; cbn [andb negb] in Hrun.
    + rewrite Hc in Hrun. eapply Hstep; [exact Hc|lia| |exact Hrun].
      intros o z Ho Hz.
      destruct (decide (o = 2 * pos + 1)%nat) as [->|Hne].
      * simplify_eq. by apply (hp_irrefl _ _ Hord).
      * replace o with (2 * pos + 1 + 1)%nat in Hz by lia. simplify_eq.
        by apply (hp_asym _ _ Hord).
    + rewrite Hr in Hrun. eapply Hstep; [exact Hr|lia| |exact Hrun].
      intros o z Ho Hz.
      destruct (decide (o = 2 * pos + 1)%nat) as [->|Hne].
      * by simplify_eq.
      * replace o with (2 * pos + 1 + 1)%nat in Hz by lia. simplify_eq.
        by apply (hp_irrefl _ _ Hord).
  - rewrite Hc in Hrun. eapply Hstep; [exact Hc|lia| |exact Hrun].
    intros o z Ho Hz.
    destruct (decide (o = 2 * pos + 1)%nat) as [->|Hne].
    * simplify_eq. by apply (hp_irrefl _ _ Hord).
    * replace o with (2 * pos + 1 + 1)%nat in Hz by lia. simplify_eq.
Qed.

Lemma _siftup_ordered_from heap s :
  Forall P heap ->
  heap_ordered_from lt (S s) heap ->
  heap_ordered_from lt s (heapq._siftup lt heap s).
Proof.
  intros HP Hinv. unfold heapq._siftup.
  destruct (heap !! s) as [x|] eqn:Hx.
  2:{ apply lookup_ge_None in Hx. intros i Hi Hreg y z Hy _.
      apply lookup_lt_Some in Hy. lia. }
  assert (P x) as HPx by (by eapply Forall_lookup_1).
  pose proof (lookup_lt_Some _ _ _ Hx) as Hlen.
  destruct (heapq._siftup_loop _ _ _ _ _) as [heap' pos'] eqn:Hrun.
  pose proof (_siftup_loop_length _ _ _ _ _ _ _ Hrun) as [Hlen' Hge].
  pose proof (_siftup_loop_bound _ _ _ _ _ _ _ Hrun Hlen) as Hbound.
  apply _siftup_loop_ordered_from with (s:=s) in Hrun
    as (HP' & Hleaf & Hbelow & Hfrom & Hsame); [|lia|lia|constructor|done|].
  2:{ intros i Hi Hreg Hroot. apply Hinv; [done|].
      destruct (decide (((i - 1) / 2)%nat = s)) as [Heq|Hne]; [|lia].
      by destruct (Hroot Heq). }
  unfold heapq._siftdown.
  rewrite list_lookup_insert_eq by lia.
  destruct (heapq._siftdown_loop _ _ _ _ _ _) as [heap'' pos''] eqn:Hdown.
  rewrite length_insert in Hdown.
  eapply _siftdown_loop_ordered_from;
    [exact Hdown|lia|rewrite length_insert; lia|done|by apply Forall_insert|done|..].
  - rewrite list_insert_insert_eq.
    intros i Hi Hreg Hne y z Hy Hz.
    rewrite list_lookup_insert_ne in Hy by done.
    assert (i < length heap)%nat by (apply lookup_lt_Some in Hy; lia).
    rewrite list_lookup_insert_ne in Hz by lia.
    destruct (decide (pos' = s)) as [Heq|Hneq].
    + rewrite (Hsame Heq) in Hy, Hz. subst pos'. apply (Hinv i); [done|lia|done..].
    + by apply (Hfrom Hneq i).
  - rewrite list_insert_insert_eq.
    intros c y z _ _ Hc Hcp Hy _. apply lookup_lt_Some in Hy.
    rewrite length_insert in Hy. lia.
Qed.

Lemma heapify_loop_ordered k heap :
  Forall P heap ->
  heap_ordered_from lt k heap ->
  heap_ordered lt (foldl (heapq._siftup lt) heap (reverse (seq 0 k))).
Proof.
  revert heap. induction k as [|k IH]; intros heap HP Hfrom.
  - by apply heap_ordered_from_0.
  - rewrite seq_S, reverse_app. simpl. apply IH.
    + by rewrite _siftup_perm.
    + by apply _siftup_ordered_from.
Qed.

(** [heapify] turns any list into a heap of the same elements. *)
Lemma heapify_ordered heap :
  Forall P heap -> heap_ordered lt (heapq.heapify lt heap).
Proof.
  intros HP. unfold heapq.heapify. apply heapify_loop_ordered; [done|].
  intros i Hi Hreg y z Hy _. apply lookup_lt_Some in Hy. lia.
Qed.

End heapq_heapify.

(** ** The priority queue keeps its heap in order *)

Section pqueue_heap_order.
Context {T : Type} `{PyObject T}.
Implicit Types q : PriorityQueue.t T.

Local Abbreviation lt := (@PriorityItem.__lt__ T).

Lemma pqueue_step_priority_fn (o : pqueue_op T) q :
  PriorityQueue._priority_fn (pqueue_step o q) = PriorityQueue._priority_fn q.
Proof.
  destruct o as [now item p|now| |now item|item p]; cbn [pqueue_step].
  - unfold PriorityQueue.enqueue. by destruct (PriorityQueue.is_full q).
  - unfold PriorityQueue.dequeue. destruct (PriorityQueue.is_empty q); [done|].
    by destruct (heapq.heappop _ _) as [[? ?]|].
  - done.
  - unfold PriorityQueue.remove.
    by destruct (PriorityQueue._find_entry item q) as [[? ?]|].
  - unfold PriorityQueue.update_priority.
    by destruct (PriorityQueue._find_entry item q) as [[? ?]|].
Qed.

Lemma pqueue_step_ordered (o : pqueue_op T) q :
  orderly_op (PriorityQueue._priority_fn q) o ->
  pq_ordered q -> pq_ordered (pqueue_step o q).
Proof.
  intros Ho [Hheap HP].
  destruct o as [now item p|now| |now item|item p]; cbn [pqueue_step];
    [| | |..|done].
  - destruct (PriorityQueue.is_full q) eqn:Hfull.
    + by rewrite pq_enqueue_full.
    + rewrite pq_enqueue_accepts by done. split; simpl.
      * by apply (heappush_ordered _ _ PriorityItem_lt_preorder).
      * rewrite heappush_perm. by constructor.
  - destruct (PriorityQueue._heap q) as [|w heap] eqn:Hq.
    + rewrite pq_dequeue_empty by done. unfold pq_ordered. simpl. rewrite Hq.
      split; [apply heap_ordered_short; simpl; lia|constructor].
    + destruct (heappop_some (w :: heap)) as (entry & heap' & Hpop); [done|].
      rewrite <- Hq in Hpop, Hheap, HP. rewrite (pq_dequeue_pop _ _ _ _ Hpop).
      destruct (heappop_ordered _ _ PriorityItem_lt_preorder _ _ _ Hheap HP Hpop)
        as [Hheap' _].
      split; simpl; [done|].
      rewrite <- (heappop_perm _ _ _ _ Hpop) in HP.
      by apply Forall_cons in HP as [_ ?].
  - done.
  - unfold PriorityQueue.remove.
    destruct (PriorityQueue._find_entry item q) as [[i entry]|] eqn:Hfind; [|done].
    apply pq_find_entry_Some in Hfind as [_ Hi].
    destruct (seq_remove_rest (PriorityQueue._heap q) entry i) as [rest Hrest].
    { by eapply lookup_lt_Some. }
    rewrite Hrest in HP. apply Forall_app in HP as [_ HP'].
    split; simpl.
    + by apply (heapify_ordered _ _ PriorityItem_lt_preorder).
    + by rewrite heapify_perm.
Qed.

Lemma pqueue_run_ordered (ops : list (pqueue_op T)) q :
  Forall (orderly_op (PriorityQueue._priority_fn q)) ops ->
  pq_ordered q -> pq_ordered (pqueue_run ops q).
Proof.
  revert q. induction ops as [|o ops IH]; intros q Hops Hq; simpl; [done|].
  apply Forall_cons in Hops as [Ho Hops].
  apply IH; [by rewrite pqueue_step_priority_fn|by apply pqueue_step_ordered].
Qed.

End pqueue_heap_order.

(** X1: on a new priority queue, any sequence of enqueues with number
    priorities, dequeues, peeks and removals leaves the heap list in
    heap order: [remove] re-establishes it with [heapify] after taking a
    wrapper out of the middle. *)
Theorem remove_keeps_heap_order {T} `{PyObject T}
    (ops : list (pqueue_op T)) auto_name priority_fn capacity name :
  let q0 := PriorityQueue.__init__ auto_name priority_fn capacity name in
  Forall (orderly_op (PriorityQueue._priority_fn q0)) ops ->
  heap_ordered PriorityItem.__lt__ (PriorityQueue._heap (pqueue_run ops q0))
  /\ Forall (fun w => PyFloat.is_number (PriorityItem.priority w))
       (PriorityQueue._heap (pqueue_run ops q0)).
Proof.
  intros q0 Hops. apply (pqueue_run_ordered ops q0 Hops). split.
  - apply heap_ordered_short. simpl. lia.
  - constructor.
Qed.

(** The run with a removal and a dequeue in the middle, through the
    theorem. *)
Lemma remove_keeps_heap_order_jobs :
  heap_ordered PriorityItem.__lt__
    (PriorityQueue._heap
       (pqueue_run enqueues_then_removes
          (PriorityQueue.__init__ "PriorityQueue_1" None 0 ""))).
Proof.
  apply (remove_keeps_heap_order enqueues_then_removes
           "PriorityQueue_1" None 0 "").
  repeat constructor.
Defined.

(** X2: from a priority queue reached by such a sequence, as many
    dequeues as it holds items return all its wrappers in non-decreasing
    order of priority, equal priorities in increasing order of the
    sequence number. *)
Theorem dequeue_order_after_removals {T} `{PyObject T}
    (ops : list (pqueue_op T)) auto_name priority_fn capacity name
    (nows : list float) :
  let q0 := PriorityQueue.__init__ auto_name priority_fn capacity name in
  let q := pqueue_run ops q0 in
  let out := pop_all PriorityItem.__lt__ (length nows) (PriorityQueue._heap q) in
  Forall (orderly_op (PriorityQueue._priority_fn q0)) ops ->
  Z.of_nat (length nows) = PriorityQueue.__len__ q ->
  (dequeue_all nows q).1 = (fun w => Some (PriorityItem.item w)) <$> out
  /\ out ≡ₚ PriorityQueue._heap q
  /\ forall i j a b, (i < j)%nat -> out !! i = Some a -> out !! j = Some b ->
       PyFloat.lt (PriorityItem.priority b) (PriorityItem.priority a) = false
       /\ (PyFloat.eq (PriorityItem.priority a) (PriorityItem.priority b) = true ->
           PriorityItem.index a < PriorityItem.index b).
Proof.
  intros q0 q out Hops Hlen. unfold PriorityQueue.__len__ in Hlen.
  destruct (pqueue_run_ordered ops q0 Hops) as [Hheap HP].
  { split; [apply heap_ordered_short; simpl; lia|constructor]. }
  fold q in Hheap, HP.
  assert (stamps_ok q) as [Hnd _].
  { apply pqueue_run_stamps_ok, pqueue_init_stamps_ok. }
  assert (out ≡ₚ PriorityQueue._heap q) as Hout by (apply pop_all_perm; lia).
  split_and!; [apply dequeue_all_pop_all; lia|done|].
  intros i j a b Hij Ha Hb.
  assert (PyFloat.is_number (PriorityItem.priority a)) as Hna.
  { rewrite <- Hout in HP. by apply (Forall_lookup_1 _ _ _ _ HP Ha). }
  assert (PyFloat.is_number (PriorityItem.priority b)) as Hnb.
  { rewrite <- Hout in HP. by apply (Forall_lookup_1 _ _ _ _ HP Hb). }
  pose proof (pop_all_sorted (length nows) _ Hheap HP) as Hsorted.
  pose proof (StronglySorted_lookup _ _ _ _ _ _ Hsorted Hij Ha Hb) as Hle.
  destruct (PriorityItem_le_inv a b Hna Hnb Hle) as [Hlt Htie].
  split; [done|]. intros Heq. specialize (Htie Heq).
  assert (PriorityItem.index a <> PriorityItem.index b); [|lia].
  intros Hidx. rewrite <- Hout in Hnd.
  assert (i = j); [|lia].
  eapply (NoDup_lookup _ _ _ _ Hnd); rewrite list_lookup_fmap.
  - by rewrite Ha.
  - rewrite Hb. simpl. by rewrite Hidx.
Qed.

(** After the removal of [job2], a dequeue and a new enqueue of [job2]
    with priority 4, the queue hands out priority 4, then the two of
    priority 5 in the order they came in. *)
Lemma dequeue_order_after_removals_jobs :
  (dequeue_all [7; 8; 9]%float
     (pqueue_run enqueues_then_removes
        (PriorityQueue.__init__ "PriorityQueue_1" None 0 ""))).1
  = [Some job2; Some job1; Some job3].
Proof.
  destruct (dequeue_order_after_removals enqueues_then_removes
              "PriorityQueue_1" None 0 "" [7; 8; 9]%float) as [Hitems _].
  - repeat constructor.
  - reflexivity.
  - rewrite Hitems. reflexivity.
Defined.

(** ** peek *)

(** X3: on both queues and in every state, [peek] returns what the next
    [dequeue] returns: the item of the first entry, or of the wrapper at
    index 0 of the heap list, and [None] when there is none.  (An item
    that is itself [None] comes back like any other item, so a [None]
    from [peek] does not tell that the queue is empty.) *)
Theorem peek_is_next_dequeue {T C} `{PyObject T}
    (q : Queue.t T C) (pq : PriorityQueue.t T) (now : float) :
  Queue.peek q = (Queue.dequeue now q).1.1
  /\ PriorityQueue.peek pq = (PriorityQueue.dequeue now pq).1
  /\ Queue.peek q = QueueEntry.item <$> Queue._entries q !! 0%nat
  /\ PriorityQueue.peek pq = PriorityItem.item <$> PriorityQueue._heap pq !! 0%nat.
Proof.
  assert (Queue.peek q = QueueEntry.item <$> Queue._entries q !! 0%nat) as Hq.
  { unfold Queue.peek, Queue.is_empty, Queue.__len__.
    by destruct (Queue._entries q). }
  assert (PriorityQueue.peek pq
          = PriorityItem.item <$> PriorityQueue._heap pq !! 0%nat) as Hpq.
  { unfold PriorityQueue.peek, PriorityQueue.is_empty, PriorityQueue.__len__.
    by destruct (PriorityQueue._heap pq). }
  split_and!; [| |done|done].
  - rewrite Hq. destruct (Queue._entries q) as [|e rest] eqn:Hes.
    + by rewrite dequeue_empty.
    + by rewrite (dequeue_head _ _ _ _ Hes).
  - rewrite Hpq. destruct (PriorityQueue._heap pq !! 0%nat) as [w|] eqn:Hw.
    + destruct (pq_dequeue_head now pq w Hw) as (heap' & Heq & _). by rewrite Heq.
    + rewrite pq_dequeue_empty; [done|].
      by destruct (PriorityQueue._heap pq).
Qed.

(** ** First in, first out *)

Section fifo_order.
Context {T C : Type} `{PyObject T}.
Implicit Types q : Queue.t T C.

Lemma fifo_enqueue_all_iter (xs : list (float * T)) q :
  Queue.__iter__ (fifo_enqueue_all xs q)
  = Queue.__iter__ q
    ++ (snd <$> (if Queue._capacity q =? 0 then xs
                 else take (Z.to_nat (Queue._capacity q - Queue.__len__ q)) xs)).
Proof.
  revert q. induction xs as [|[now x] xs IH]; intros q; simpl.
  { destruct (_ =? 0); by rewrite ?take_nil, app_nil_r. }
  destruct (Queue.is_full q) eqn:Hfull.
  - rewrite enqueue_full by done. simpl. rewrite IH.
    unfold Queue.is_full in Hfull.
    destruct (Queue._capacity q =? 0); [done|].
    replace (Z.to_nat (Queue._capacity q - Queue.__len__ q)) with 0%nat by lia.
    by rewrite !take_0.
  - rewrite enqueue_accepts by done. simpl. rewrite IH.
    unfold Queue.is_full in Hfull. unfold Queue.__iter__, Queue.__len__ in *.
    simpl. rewrite fmap_app, length_app, <- app_assoc. simpl. f_equal.
    destruct (Queue._capacity q =? 0) eqn:Hcap; [done|].
    replace (Z.to_nat (Queue._capacity q
                       - Z.of_nat (length (Queue._entries q))))
      with (S (Z.to_nat (Queue._capacity q
                 - Z.of_nat (length (Queue._entries q) + 1)))) by lia.
    done.
Qed.

Lemma fifo_dequeue_all_iter (nows : list float) q :
  (fifo_dequeue_all nows q).1
  = (fun i => Queue.__iter__ q !! i) <$> seq 0 (length nows)
  /\ Queue.__iter__ (fifo_dequeue_all nows q).2
     = drop (length nows) (Queue.__iter__ q).
Proof.
  revert q. induction nows as [|now nows IH]; intros q; simpl.
  { by rewrite drop_0. }
  destruct (Queue._entries q) as [|entry rest] eqn:Hes.
  - rewrite dequeue_empty by done.
    destruct (IH q) as [IH1 IH2].
    destruct (fifo_dequeue_all nows q) as [rs q'] eqn:Hrest. simpl in *.
    unfold Queue.__iter__ in *. rewrite Hes in *. simpl in *.
    split; [|by rewrite IH2, drop_nil].
    f_equal. rewrite IH1. rewrite <- fmap_S_seq, <- list_fmap_compose.
    by apply list_fmap_ext.
  - rewrite (dequeue_head _ _ _ _ Hes).
    set (q1 := Queue.with_content _ _ _).
    destruct (IH q1) as [IH1 IH2].
    destruct (fifo_dequeue_all nows q1) as [rs q'] eqn:Hrest. simpl in *.
    unfold Queue.__iter__ in *. rewrite Hes. simpl in *.
    split; [|done].
    f_equal. rewrite IH1. rewrite <- fmap_S_seq, <- list_fmap_compose.
    by apply list_fmap_ext.
Qed.

End fifo_order.

(** X4: the FIFO queue hands items out in the order they came in: after
    any enqueues on a new queue it holds the accepted items in the order
    of the enqueues, and on any queue the i-th of a run of dequeues
    returns the i-th item it held ([None] past the end) and the rest
    stays in order. *)
Theorem first_in_first_out {T C} `{PyObject T}
    auto_name capacity name (xs : list (float * T))
    (q : Queue.t T C) (nows : list float) :
  Queue.__iter__ (fifo_enqueue_all xs (Queue.__init__ (C:=C) auto_name capacity name))
  = snd <$> accepted_by capacity xs
  /\ (fifo_dequeue_all nows q).1
     = (fun i => Queue.__iter__ q !! i) <$> seq 0 (length nows)
  /\ Queue.__iter__ (fifo_dequeue_all nows q).2
     = drop (length nows) (Queue.__iter__ q).
Proof.
  split; [|apply fifo_dequeue_all_iter].
  rewrite fifo_enqueue_all_iter. simpl. unfold Queue.__len__. simpl.
  by rewrite Z.sub_0_r.
Qed.

(** ** remove, contains and enqueue *)

Lemma find_index_existsb {A} (p : A -> bool) (l : list A) :
  existsb p l = match find_index p l with Some _ => true | None => false end.
Proof.
  induction l as [|y l IH]; simpl; [done|].
  destruct (p y); [done|]. simpl. rewrite IH. by destruct (find_index p l).
Qed.

(** X5: [remove] returns [True] exactly when [contains] does, and a
    [remove] that returns [False] leaves the queue as it was; on the
    priority queue [remove] and [update_priority] return [True] exactly
    when some wrapper of the heap list matches, and change nothing
    otherwise. *)
Theorem remove_succeeds_iff_contains {T C} `{PyObject T}
    (q : Queue.t T C) (pq : PriorityQueue.t T) (now : float) (x : T)
    (p : float) :
  (Queue.remove now x q).1 = Queue.contains x q
  /\ (Queue.contains x q = false -> Queue.remove now x q = (false, q))
  /\ (PriorityQueue.remove now x pq).1
     = existsb (PriorityQueue.matches x) (PriorityQueue._heap pq)
  /\ (PriorityQueue.update_priority x p pq).1
     = existsb (PriorityQueue.matches x) (PriorityQueue._heap pq)
  /\ (existsb (PriorityQueue.matches x) (PriorityQueue._heap pq) = false ->
      PriorityQueue.remove now x pq = (false, pq)
      /\ PriorityQueue.update_priority x p pq = (false, pq)).
Proof.
  unfold Queue.contains. rewrite !find_index_existsb. split_and!.
  - destruct (find_index _ (Queue._entries q)) as [i|] eqn:Hfind.
    + destruct (find_index_Some _ _ _ Hfind) as (entry & Hentry & _).
      by rewrite (remove_found _ _ _ _ _ Hfind Hentry).
    + by rewrite remove_absent.
  - destruct (find_index _ (Queue._entries q)) as [i|] eqn:Hfind; [done|].
    intros _. by apply remove_absent.
  - unfold PriorityQueue.remove.
    destruct (PriorityQueue._find_entry x pq) as [[i entry]|] eqn:Hfind.
    + apply pq_find_entry_Some in Hfind as [-> _]. done.
    + apply pq_find_entry_None in Hfind as ->. done.
  - unfold PriorityQueue.update_priority.
    destruct (PriorityQueue._find_entry x pq) as [[i entry]|] eqn:Hfind.
    + apply pq_find_entry_Some in Hfind as [-> _]. done.
    + apply pq_find_entry_None in Hfind as ->. done.
  - destruct (find_index _ (PriorityQueue._heap pq)) as [i|] eqn:Hfind; [done|].
    intros _. apply pq_find_entry_None in Hfind.
    unfold PriorityQueue.remove, PriorityQueue.update_priority.
    by rewrite Hfind.
Qed.

(** A queue that holds [twin1] does not hold a job of another size,
    and removing one changes nothing. *)
Lemma remove_succeeds_iff_contains_absent :
  let q := queue_run [QEnqueue 0 twin1]
             (Queue.__init__ (C:=string) "Queue_1" 0 "") in
  Queue.remove 1 job1 q = (false, q).
Proof.
  intros q.
  destruct (remove_succeeds_iff_contains (T:=Job) (C:=string) q
              (PriorityQueue.__init__ "PriorityQueue_1" None 0 "")
              1 job1 0) as (_ & Habsent & _).
  apply Habsent. reflexivity.
Defined.

(** X6: an item that no entry of the queue matches, once enqueued, is
    the entry [remove] finds for it: the removal returns [True], the
    queue holds its former entries again, and the statistics have one
    more entry and one more exit, with the time the item spent in the
    queue added to [total_wait_time]. *)
Theorem enqueue_then_remove_restores {T C} `{PyObject T}
    (q : Queue.t T C) (x : T) (now now' : float) :
  Queue.is_full q = false ->
  Queue.contains x q = false ->
  let q1 := (Queue.enqueue now x q).1.2 in
  let q2 := (Queue.remove now' x q1).2 in
  (Queue.remove now' x q1).1 = true
  /\ Queue._entries q2 = Queue._entries q
  /\ entries (Queue.stats q2) = entries (Queue.stats q) + 1
  /\ exits (Queue.stats q2) = exits (Queue.stats q) + 1
  /\ QueueStats.current_length (Queue.stats q2)
     = QueueStats.current_length (Queue.stats q)
  /\ total_wait_time (Queue.stats q2)
     = (total_wait_time (Queue.stats q) + (now' - now))%float.
Proof.
  intros Hfull Habsent q1 q2. subst q2 q1.
  rewrite enqueue_accepts by done. simpl.
  set (entry := QueueEntry.mk x now).
  set (q1 := Queue.with_content _ _ _).
  assert (forall e, e ∈ Queue._entries q -> Queue.matches x e = false) as Hnone.
  { apply find_index_None. unfold Queue.contains in Habsent.
    rewrite find_index_existsb in Habsent.
    by destruct (find_index _ _). }
  assert (Queue._entries q1 !! length (Queue._entries q) = Some entry) as Hat.
  { simpl. rewrite lookup_app_r by lia. by rewrite Nat.sub_diag. }
  assert (forall j e, (j < length (Queue._entries q))%nat ->
            Queue._entries q1 !! j = Some e -> e ∈ Queue._entries q) as Hbefore.
  { intros j e Hj He. simpl in He. rewrite lookup_app_l in He by done.
    by eapply list_elem_of_lookup_2. }
  assert (find_index (Queue.matches x) (Queue._entries q1)
          = Some (length (Queue._entries q))) as Hfind.
  { apply (find_index_first _ _ _ entry); [done| |].
    - unfold Queue.matches, py_is_or_eq. simpl. by rewrite bool_decide_eq_true_2.
    - intros j e Hj He. apply Hnone. by eapply Hbefore. }
  rewrite (remove_found _ _ _ _ _ Hfind Hat). simpl.
  split_and!.
  - done.
  - rewrite seq_remove_at.
    + rewrite (delete_middle _ [] entry). by rewrite app_nil_r.
    + rewrite length_app. simpl. lia.
    + intros j e Hj He. unfold QueueEntry.__eq__. simpl.
      specialize (Hnone e (Hbefore j e Hj He)).
      unfold Queue.matches in Hnone. by rewrite Hnone.
  - done.
  - done.
  - unfold QueueStats.current_length, Queue.stats. simpl. lia.
  - done.
Qed.

(** [job1] enqueued behind [twin1] and removed again. *)
Lemma enqueue_then_remove_restores_job1 :
  let q := queue_run [QEnqueue 0 twin1]
             (Queue.__init__ (C:=string) "Queue_1" 0 "") in
  Queue._entries (Queue.remove 2 job1 (Queue.enqueue 1 job1 q).1.2).2
  = Queue._entries q.
Proof.
  intros q.
  destruct (enqueue_then_remove_restores (T:=Job) (C:=string) q job1 1 2)
    as (_ & Hentries & _); [reflexivity..|exact Hentries].
Defined.

(** X7: removing an item that the head entry matches does to the queue
    what [dequeue] does, the same content and the same statistics, and
    calls no callback, whereas [dequeue] calls the dequeue callback with
    the item. *)
Theorem remove_head_is_silent_dequeue {T C} `{PyObject T}
    (q : Queue.t T C) (x : T) (now : float) entry rest :
  Queue._entries q = entry :: rest ->
  py_is_or_eq (QueueEntry.item entry) x = true ->
  Queue.remove now x q = (true, (Queue.dequeue now q).1.2)
  /\ (Queue.dequeue now q).2 = fire (Queue._on_dequeue q) (QueueEntry.item entry).
Proof.
  intros Hes Hmatch. rewrite (dequeue_head _ _ _ _ Hes). split; [|done].
  assert (find_index (Queue.matches x) (Queue._entries q) = Some 0%nat) as Hfind.
  { rewrite Hes. simpl. unfold Queue.matches. by rewrite Hmatch. }
  rewrite (remove_found _ _ _ 0%nat entry Hfind); [|by rewrite Hes].
  by rewrite Hes.
Qed.

(** [twin2] removes the head [twin1], as a dequeue would. *)
Lemma remove_head_is_silent_dequeue_twins :
  let q := queue_run [QOnDequeue "log"; QEnqueue 0 twin1; QEnqueue 1 twin2]
             (Queue.__init__ (C:=string) "Queue_1" 0 "") in
  Queue.remove 2 twin2 q = (true, (Queue.dequeue 2 q).1.2)
  /\ (Queue.dequeue 2 q).2 = [Called "log" twin1].
Proof.
  intros q.
  apply (remove_head_is_silent_dequeue (T:=Job) (C:=string) q twin2 2
           (QueueEntry.mk twin1 0) [QueueEntry.mk twin2 1]); reflexivity.
Defined.

(** ** Capacity at the edges *)

Section capacity_edges.
Context {T C : Type} `{PyObject T}.

Lemma queue_run_capacity (ops : list (queue_op T C)) q :
  Queue._capacity (queue_run ops q) = Queue._capacity q.
Proof.
  revert q. induction ops as [|o ops IH]; intros q; simpl; [done|].
  rewrite IH. by destruct (queue_step_grows o q).
Qed.

Lemma pqueue_run_capacity (ops : list (pqueue_op T)) q :
  PriorityQueue._capacity (pqueue_run ops q) = PriorityQueue._capacity q.
Proof.
  revert q. induction ops as [|o ops IH]; intros q; simpl; [done|].
  rewrite IH. by destruct (pqueue_step_grows o q).
Qed.

Lemma queue_run_stays_empty (ops : list (queue_op T C)) q :
  Queue._capacity q < 0 -> Queue.__len__ q = 0 ->
  Queue.__len__ (queue_run ops q) = 0.
Proof.
  revert q. induction ops as [|o ops IH]; intros q Hcap Hlen; simpl; [done|].
  destruct (queue_step_grows o q) as [Hcap' Hgrow].
  apply IH; [lia|].
  assert (0 <= Queue.__len__ (queue_step o q)) by (unfold Queue.__len__; lia).
  destruct Hgrow as [Hle|[Hfull _]]; [lia|].
  unfold Queue.is_full in Hfull.
  destruct (Queue._capacity q =? 0) eqn:Hz; lia.
Qed.

Lemma pqueue_run_stays_empty (ops : list (pqueue_op T)) q :
  PriorityQueue._capacity q < 0 -> PriorityQueue.__len__ q = 0 ->
  PriorityQueue.__len__ (pqueue_run ops q) = 0.
Proof.
  revert q. induction ops as [|o ops IH]; intros q Hcap Hlen; simpl; [done|].
  destruct (pqueue_step_grows o q) as [Hcap' Hgrow].
  apply IH; [lia|].
  assert (0 <= PriorityQueue.__len__ (pqueue_step o q))
    by (unfold PriorityQueue.__len__; lia).
  destruct Hgrow as [Hle|[Hfull _]]; [lia|].
  unfold PriorityQueue.is_full in Hfull.
  destruct (PriorityQueue._capacity q =? 0) eqn:Hz; lia.
Qed.

End capacity_edges.

(** X8: a negative capacity is not rejected by the constructor, and it
    is not "unlimited" either: such a queue counts as full from the
    start, so it refuses every enqueue and stays empty whatever is
    called on it; the same for the priority queue. *)
Theorem negative_capacity_refuses_all {T C} `{PyObject T} (c : Z) :
  c < 0 ->
  (forall (ops : list (queue_op T C)) auto_name name now x,
     let q := queue_run ops (Queue.__init__ auto_name c name) in
     Queue.__len__ q = 0 /\ Queue.enqueue now x q = (false, q, []))
  /\ (forall (ops : list (pqueue_op T)) auto_name priority_fn name now x p,
     let q := pqueue_run ops (PriorityQueue.__init__ auto_name priority_fn c name) in
     PriorityQueue.__len__ q = 0
     /\ PriorityQueue.enqueue now x p q = (false, q)).
Proof.
  intros Hc. split.
  - intros ops auto_name name now x q.
    assert (Queue.__len__ q = 0) as Hlen.
    { apply queue_run_stays_empty; [done|reflexivity]. }
    split; [done|]. apply enqueue_full. unfold Queue.is_full.
    unfold q. rewrite queue_run_capacity. fold q. rewrite Hlen. simpl.
    destruct (c =? 0) eqn:Hz; lia.
  - intros ops auto_name priority_fn name now x p q.
    assert (PriorityQueue.__len__ q = 0) as Hlen.
    { apply pqueue_run_stays_empty; [done|reflexivity]. }
    split; [done|]. apply pq_enqueue_full. unfold PriorityQueue.is_full.
    unfold q. rewrite pqueue_run_capacity. fold q. rewrite Hlen. simpl.
    destruct (c =? 0) eqn:Hz; lia.
Qed.

(** A queue of capacity -1 refuses the first enqueue. *)
Lemma negative_capacity_refuses_all_minus_one :
  let q := Queue.__init__ (T:=Job) (C:=string) "Queue_1" (-1) "" in
  Queue.enqueue 0 job1 q = (false, q, []).
Proof.
  intros q.
  destruct (negative_capacity_refuses_all (T:=Job) (C:=string) (-1))
    as [Hfifo _]; [lia|].
  apply (Hfifo [] "Queue_1" "" 0%float job1).
Defined.

(** X9: a queue with a capacity [c > 0] reports [is_full] exactly when
    it holds [c] items, in every state a sequence of operations on a new
    queue can reach; a queue of capacity 0 never reports it. *)
Theorem is_full_at_capacity {T C} `{PyObject T} (c : Z) :
  0 < c ->
  (forall (ops : list (queue_op T C)) auto_name name,
     let q := queue_run ops (Queue.__init__ auto_name c name) in
     Queue.is_full q = true <-> Queue.__len__ q = c)
  /\ (forall (ops : list (pqueue_op T)) auto_name priority_fn name,
     let q := pqueue_run ops (PriorityQueue.__init__ auto_name priority_fn c name) in
     PriorityQueue.is_full q = true <-> PriorityQueue.__len__ q = c)
  /\ (forall (ops : list (queue_op T C)) auto_name name,
     Queue.is_full (queue_run ops (Queue.__init__ auto_name 0 name)) = false).
Proof.
  intros Hc. split_and!.
  - intros ops auto_name name q.
    assert (Queue.__len__ q <= c) as Hle.
    { apply queue_run_bounded; [done|done|unfold Queue.__len__; simpl; lia]. }
    unfold Queue.is_full, q. rewrite queue_run_capacity. fold q. simpl.
    destruct (c =? 0) eqn:Hz; [lia|]. split; lia.
  - intros ops auto_name priority_fn name q.
    assert (PriorityQueue.__len__ q <= c) as Hle.
    { apply pqueue_run_bounded;
        [done|done|unfold PriorityQueue.__len__; simpl; lia]. }
    unfold PriorityQueue.is_full, q. rewrite pqueue_run_capacity. fold q. simpl.
    destruct (c =? 0) eqn:Hz; [lia|]. split; lia.
  - intros ops auto_name name. unfold Queue.is_full.
    by rewrite queue_run_capacity.
Qed.

(** A queue of capacity 2 is full after two enqueues. *)
Lemma is_full_at_capacity_two :
  Queue.is_full
    (queue_run [QEnqueue 0 job1; QEnqueue 1 job2]
       (Queue.__init__ (C:=string) "Queue_1" 2 "")) = true.
Proof.
  destruct (is_full_at_capacity (T:=Job) (C:=string) 2) as [Hfifo _]; [lia|].
  apply (Hfifo [QEnqueue 0 job1; QEnqueue 1 job2]%float "Queue_1" "").
  reflexivity.
Defined.

(** ** Sequence numbers *)

Section sequence_numbers.
Context {T : Type} `{PyObject T}.
Implicit Types q : PriorityQueue.t T.

Local Abbreviation lt := (@PriorityItem.__lt__ T).

(** Where the wrappers come from after one operation: they were there,
    or the operation made one with the next sequence number. *)
Lemma pqueue_step_origin (o : pqueue_op T) q w :
  w ∈ PriorityQueue._heap (pqueue_step o q) ->
  w ∈ PriorityQueue._heap q
  \/ PriorityItem.index w = PriorityQueue._counter q + 1
     /\ PriorityQueue._counter (pqueue_step o q) = PriorityQueue._counter q + 1.
Proof.
  destruct o as [now item p|now| |now item|item p]; cbn [pqueue_step].
  - destruct (PriorityQueue.is_full q) eqn:Hfull.
    + rewrite pq_enqueue_full by done. by left.
    + rewrite pq_enqueue_accepts by done. simpl. rewrite heappush_perm.
      intros [->|Hw]%elem_of_cons; [by right|by left].
  - destruct (PriorityQueue._heap q) as [|w0 heap] eqn:Hq.
    + rewrite pq_dequeue_empty by done. simpl. rewrite Hq. by left.
    + destruct (heappop_some (w0 :: heap)) as (entry & heap' & Hpop); [done|].
      rewrite <- Hq in Hpop. rewrite (pq_dequeue_pop _ _ _ _ Hpop). simpl.
      intros Hw. left. rewrite <- Hq, <- (heappop_perm _ _ _ _ Hpop). by right.
  - by left.
  - unfold PriorityQueue.remove.
    destruct (PriorityQueue._find_entry item q) as [[i entry]|] eqn:Hfind;
      [|by left].
    apply pq_find_entry_Some in Hfind as [_ Hi]. simpl. rewrite heapify_perm.
    destruct (seq_remove_rest (PriorityQueue._heap q) entry i) as [rest Hrest].
    { by eapply lookup_lt_Some. }
    intros Hw. left. rewrite Hrest. apply elem_of_app. by right.
  - unfold PriorityQueue.update_priority.
    destruct (PriorityQueue._find_entry item q) as [[i entry]|] eqn:Hfind;
      [|by left].
    apply pq_find_entry_Some in Hfind as [_ Hi]. simpl. rewrite heappush_perm.
    destruct (seq_remove_rest (PriorityQueue._heap q) entry i) as [rest Hrest].
    { by eapply lookup_lt_Some. }
    intros [->|Hw]%elem_of_cons; [by right|].
    left. rewrite Hrest. apply elem_of_app. by right.
Qed.

Lemma pqueue_step_counter (o : pqueue_op T) q :
  PriorityQueue._counter q <= PriorityQueue._counter (pqueue_step o q).
Proof.
  destruct o as [now item p|now| |now item|item p]; cbn [pqueue_step].
  - unfold PriorityQueue.enqueue.
    destruct (PriorityQueue.is_full q); simpl; lia.
  - unfold PriorityQueue.dequeue. destruct (PriorityQueue.is_empty q); [simpl; lia|].
    destruct (heapq.heappop _ _) as [[? ?]|]; simpl; lia.
  - lia.
  - unfold PriorityQueue.remove.
    destruct (PriorityQueue._find_entry item q) as [[? ?]|]; simpl; lia.
  - unfold PriorityQueue.update_priority.
    destruct (PriorityQueue._find_entry item q) as [[? ?]|]; simpl; lia.
Qed.

Lemma pqueue_run_positive (ops : list (pqueue_op T)) q :
  0 <= PriorityQueue._counter q ->
  Forall (fun w => 1 <= PriorityItem.index w) (PriorityQueue._heap q) ->
  0 <= PriorityQueue._counter (pqueue_run ops q)
  /\ Forall (fun w => 1 <= PriorityItem.index w)
       (PriorityQueue._heap (pqueue_run ops q)).
Proof.
  revert q. induction ops as [|o ops IH]; intros q Hc Hall; simpl; [done|].
  apply IH.
  - pose proof (pqueue_step_counter o q). lia.
  - apply Forall_forall. intros w Hw. rewrite Forall_forall in Hall.
    destruct (pqueue_step_origin o q w Hw) as [Hold|[Hnew _]]; [by apply Hall|lia].
Qed.

End sequence_numbers.

(** X10: in every state a sequence of operations on a new priority
    queue can reach, the wrappers carry pairwise distinct sequence
    numbers between 1 and the counter; one more operation never lowers
    the counter, and every wrapper after it was either there before or
    is new with a sequence number above the old counter, hence above
    every number in use: no number is handed out twice. *)
Theorem sequence_numbers_are_fresh {T} `{PyObject T}
    (ops : list (pqueue_op T)) auto_name priority_fn capacity name
    (o : pqueue_op T) :
  let q := pqueue_run ops
             (PriorityQueue.__init__ auto_name priority_fn capacity name) in
  NoDup (PriorityItem.index <$> PriorityQueue._heap q)
  /\ Forall (fun w => 1 <= PriorityItem.index w <= PriorityQueue._counter q)
       (PriorityQueue._heap q)
  /\ PriorityQueue._counter q <= PriorityQueue._counter (pqueue_step o q)
  /\ Forall (fun w => w ∈ PriorityQueue._heap q
                      \/ PriorityQueue._counter q < PriorityItem.index w
                         /\ PriorityItem.index w
                            = PriorityQueue._counter (pqueue_step o q))
       (PriorityQueue._heap (pqueue_step o q)).
Proof.
  intros q.
  assert (stamps_ok q) as [Hnd Hle].
  { apply pqueue_run_stamps_ok, pqueue_init_stamps_ok. }
  destruct (pqueue_run_positive ops
              (PriorityQueue.__init__ auto_name priority_fn capacity name))
    as [_ Hpos]; [simpl; lia|constructor|]. fold q in Hpos.
  split_and!; [done| |apply pqueue_step_counter|].
  - rewrite Forall_forall in Hle, Hpos. apply Forall_forall. intros w Hw.
    specialize (Hle w Hw). specialize (Hpos w Hw). lia.
  - apply Forall_forall. intros w Hw.
    destruct (pqueue_step_origin o q w Hw) as [Hold|[Hnew Hc]]; [by left|].
    right. lia.
Qed.

(** ** Bounds of the statistics *)

Section statistics_bounds.
Context {T C : Type} `{PyObject T}.

Lemma stats_step_bounded s s' :
  stats_step s s' -> stats_bounded s -> stats_bounded s'.
Proof.
  unfold stats_bounded, QueueStats.current_length.
  intros [|now|now wait] (He & Hx & Hm & Hcur); simpl; [done|lia|lia].
Qed.

Lemma stats_step_monotone s s' :
  stats_step s s' ->
  entries s <= entries s' /\ exits s <= exits s'
  /\ max_length s <= max_length s'.
Proof. intros [|now|now wait]; simpl; lia. Qed.

Lemma queue_step_stats (o : queue_op T C) q :
  o <> QResetStats -> stats_step (Queue.stats q) (Queue.stats (queue_step o q)).
Proof.
  intros Ho. unfold Queue.stats.
  destruct o as [now item|now| |now item|item|now|cb|cb|];
    cbn [queue_step]; try done; try constructor.
  - destruct (Queue.is_full q) eqn:Hfull.
    + rewrite enqueue_full by done. constructor.
    + rewrite enqueue_accepts by done. simpl. constructor.
  - destruct (Queue._entries q) as [|entry rest] eqn:Hes.
    + rewrite dequeue_empty by done. constructor.
    + rewrite (dequeue_head _ _ _ _ Hes). simpl. constructor.
  - destruct (find_index (Queue.matches item) (Queue._entries q)) as [i|] eqn:Hfind.
    + destruct (find_index_Some _ _ _ Hfind) as (entry & Hentry & _).
      rewrite (remove_found _ _ _ _ _ Hfind Hentry). simpl. constructor.
    + rewrite remove_absent by done. constructor.
Qed.

Lemma pqueue_step_stats (o : pqueue_op T) q :
  stats_step (PriorityQueue.stats q) (PriorityQueue.stats (pqueue_step o q)).
Proof.
  unfold PriorityQueue.stats.
  destruct o as [now item p|now| |now item|item p]; cbn [pqueue_step].
  - destruct (PriorityQueue.is_full q) eqn:Hfull.
    + rewrite pq_enqueue_full by done. constructor.
    + rewrite pq_enqueue_accepts by done. simpl. constructor.
  - unfold PriorityQueue.dequeue. destruct (PriorityQueue.is_empty q); [constructor|].
    destruct (heapq.heappop _ _) as [[? ?]|]; simpl; constructor.
  - constructor.
  - unfold PriorityQueue.remove.
    destruct (PriorityQueue._find_entry item q) as [[? ?]|]; simpl; constructor.
  - unfold PriorityQueue.update_priority.
    destruct (PriorityQueue._find_entry item q) as [[? ?]|]; simpl; constructor.
Qed.

Lemma queue_run_stats_bounded (ops : list (queue_op T C)) q :
  stats_bounded (Queue.stats q) -> stats_bounded (Queue.stats (queue_run ops q)).
Proof.
  revert q. induction ops as [|o ops IH]; intros q Hq; simpl; [done|].
  apply IH.
  destruct o as [now item|now| |now item|item|now|cb|cb|];
    try (by eapply stats_step_bounded; [apply queue_step_stats|]).
  unfold stats_bounded, QueueStats.current_length. simpl. lia.
Qed.

Lemma pqueue_run_stats_bounded (ops : list (pqueue_op T)) q :
  pq_accounted q -> stats_bounded (PriorityQueue.stats q) ->
  max_length (PriorityQueue.stats q) <= entries (PriorityQueue.stats q) ->
  let q' := pqueue_run ops q in
  pq_accounted q' /\ stats_bounded (PriorityQueue.stats q')
  /\ max_length (PriorityQueue.stats q') <= entries (PriorityQueue.stats q').
Proof.
  revert q. induction ops as [|o ops IH]; intros q Hacc Hq Hmax; simpl; [done|].
  assert (pq_accounted (pqueue_step o q)) as Hacc'.
  { apply (pqueue_run_accounted [o] q Hacc). }
  apply IH; [done|by eapply stats_step_bounded; [apply pqueue_step_stats|]|].
  destruct Hacc as [Hlen Hbal]. destruct Hq as (He & Hx & Hm & Hcur).
  unfold QueueStats.current_length in *.
  destruct (pqueue_step_stats o q) as [|now|now wait]; simpl; lia.
Qed.

End statistics_bounds.

(** X11: after any sequence of operations on a new priority queue,
    [0 <= exits <= entries] and
    [0 <= current_length <= max_length <= entries]; one more operation
    lowers none of [entries], [exits] and [max_length]. *)
Theorem priority_queue_statistics_bounds {T} `{PyObject T}
    (ops : list (pqueue_op T)) auto_name priority_fn capacity name
    (o : pqueue_op T) :
  let q := pqueue_run ops
             (PriorityQueue.__init__ auto_name priority_fn capacity name) in
  let s := PriorityQueue.stats q in
  let s' := PriorityQueue.stats (pqueue_step o q) in
  0 <= exits s <= entries s
  /\ 0 <= QueueStats.current_length s <= max_length s
  /\ max_length s <= entries s
  /\ entries s <= entries s' /\ exits s <= exits s'
  /\ max_length s <= max_length s'.
Proof.
  intros q s s'.
  destruct (pqueue_run_stats_bounded ops
              (PriorityQueue.__init__ auto_name priority_fn capacity name))
    as ([Hlen Hbal] & (He & Hx & Hm & Hcur) & Hmax);
    [done|unfold stats_bounded; simpl; lia|simpl; lia|].
  fold q in Hlen, Hbal, He, Hx, Hm, Hcur, Hmax.
  fold s in Hlen, Hbal, He, Hx, Hm, Hcur, Hmax.
  assert (0 <= QueueStats.current_length s).
  { rewrite Hlen. unfold PriorityQueue.__len__. lia. }
  pose proof (stats_step_monotone s s' (pqueue_step_stats o q)).
  unfold QueueStats.current_length in *. lia.
Qed.

(** X12: after any sequence of operations on a new FIFO queue the
    counters [entries], [exits], [max_length] and [current_length] are
    not negative, and [max_length] is at least [current_length] as soon
    as an entry has been recorded since the last [reset_stats] (which
    sets [max_length] to 0 and [current_length] to the number of items
    kept).  An operation other than [reset_stats] lowers none of
    [entries], [exits] and [max_length]. *)
Theorem fifo_statistics_bounds {T C} `{PyObject T}
    (ops : list (queue_op T C)) auto_name capacity name (o : queue_op T C) :
  let q := queue_run ops (Queue.__init__ auto_name capacity name) in
  let s := Queue.stats q in
  let s' := Queue.stats (queue_step o q) in
  0 <= entries s /\ 0 <= exits s /\ 0 <= max_length s
  /\ 0 <= QueueStats.current_length s
  /\ (0 < entries s -> QueueStats.current_length s <= max_length s)
  /\ (o <> QResetStats ->
      entries s <= entries s' /\ exits s <= exits s'
      /\ max_length s <= max_length s')
  /\ (o = QResetStats ->
      entries s' = 0 /\ exits s' = 0 /\ max_length s' = 0
      /\ QueueStats.current_length s' = Queue.__len__ q).
Proof.
  intros q s s'.
  destruct (queue_run_stats_bounded ops (Queue.__init__ auto_name capacity name))
    as (He & Hx & Hm & Hcur); [unfold stats_bounded; simpl; lia|].
  destruct (queue_run_accounted ops (Queue.__init__ auto_name capacity name) 0)
    as [Hlen _]; [apply queue_init_accounted|].
  fold q in He, Hx, Hm, Hcur, Hlen. fold s in He, Hx, Hm, Hcur, Hlen.
  split_and!; try done.
  - rewrite Hlen. unfold Queue.__len__. lia.
  - intros Ho. by apply stats_step_monotone, queue_step_stats.
  - intros ->. by split_and!.
Qed.

(** The first enqueue on a new queue through the theorem: the counters
    do not go down. *)
Lemma fifo_statistics_bounds_enqueue :
  let q := Queue.__init__ (T:=Job) (C:=string) "Queue_1" 0 "" in
  entries (Queue.stats q) <= entries (Queue.stats (Queue.enqueue 0 job1 q).1.2)
  /\ exits (Queue.stats q) <= exits (Queue.stats (Queue.enqueue 0 job1 q).1.2)
  /\ max_length (Queue.stats q)
     <= max_length (Queue.stats (Queue.enqueue 0 job1 q).1.2).
Proof.
  intros q.
  destruct (fifo_statistics_bounds (T:=Job) (C:=string) [] "Queue_1" 0 ""
              (QEnqueue 0 job1)) as (_ & _ & _ & _ & _ & Hmono & _).
  by apply Hmono.
Defined.

(** ** What peek and remove take *)

(** X14: on a priority queue reached by enqueues with number
    priorities, dequeues, peeks and removals, [peek] returns the item of
    a wrapper that no other wrapper precedes: every other wrapper has a
    priority that is not smaller, and a larger sequence number when the
    priorities are equal. *)
Theorem peek_is_least {T} `{PyObject T}
    (ops : list (pqueue_op T)) auto_name priority_fn capacity name :
  let q0 := PriorityQueue.__init__ auto_name priority_fn capacity name in
  let q := pqueue_run ops q0 in
  Forall (orderly_op (PriorityQueue._priority_fn q0)) ops ->
  match PriorityQueue._heap q !! 0%nat with
  | None => PriorityQueue.peek q = None /\ PriorityQueue._heap q = []
  | Some w =>
      PriorityQueue.peek q = Some (PriorityItem.item w)
      /\ forall i w', PriorityQueue._heap q !! i = Some w' -> i <> 0%nat ->
           PyFloat.lt (PriorityItem.priority w') (PriorityItem.priority w) = false
           /\ (PyFloat.eq (PriorityItem.priority w) (PriorityItem.priority w') = true ->
               PriorityItem.index w < PriorityItem.index w')
  end.
Proof.
  intros q0 q Hops.
  destruct (pqueue_run_ordered ops q0 Hops) as [Hheap HP].
  { split; [apply heap_ordered_short; simpl; lia|constructor]. }
  fold q in Hheap, HP.
  assert (stamps_ok q) as [Hnd _].
  { apply pqueue_run_stamps_ok, pqueue_init_stamps_ok. }
  unfold PriorityQueue.peek, PriorityQueue.is_empty, PriorityQueue.__len__.
  destruct (PriorityQueue._heap q !! 0%nat) as [w|] eqn:Hw.
  - split.
    { destruct (PriorityQueue._heap q); [done|]. simpl in *. by simplify_eq. }
    intros i w' Hw' Hi.
    pose proof (heap_root_minimal _ _ PriorityItem_lt_preorder _ _ Hheap HP Hw i w' Hw')
      as Hle.
    assert (PyFloat.is_number (PriorityItem.priority w)) as Hnw.
    { by apply (Forall_lookup_1 _ _ _ _ HP Hw). }
    assert (PyFloat.is_number (PriorityItem.priority w')) as Hnw'.
    { by apply (Forall_lookup_1 _ _ _ _ HP Hw'). }
    destruct (PriorityItem_le_inv w w' Hnw Hnw' Hle) as [Hlt Htie].
    split; [done|]. intros Heq. specialize (Htie Heq).
    assert (PriorityItem.index w <> PriorityItem.index w'); [|lia].
    intros Hidx. apply Hi. symmetry.
    eapply (NoDup_lookup _ _ _ _ Hnd); rewrite list_lookup_fmap.
    + by rewrite Hw.
    + rewrite Hw'. simpl. by rewrite Hidx.
  - destruct (PriorityQueue._heap q); [done|]. by simpl in Hw.
Qed.

(** After the removal of [job2] the queue shows [job4], of priority 3,
    before the jobs of priority 5. *)
Lemma peek_is_least_jobs :
  PriorityQueue.peek
    (pqueue_run [PEnqueue 0 job1 (Some 5); PEnqueue 1 job2 (Some 1);
                 PEnqueue 2 job3 (Some 5); PEnqueue 3 job4 (Some 3);
                 PRemove 4 job2]%float
       (PriorityQueue.__init__ "PriorityQueue_1" None 0 ""))
  = Some job4.
Proof.
  pose proof (peek_is_least
                [PEnqueue 0 job1 (Some 5); PEnqueue 1 job2 (Some 1);
                 PEnqueue 2 job3 (Some 5); PEnqueue 3 job4 (Some 3);
                 PRemove 4 job2]%float
                "PriorityQueue_1" None 0 "") as Hpeek.
  cbv zeta in Hpeek.
  destruct Hpeek as [Hpeek _]; [repeat constructor|exact Hpeek].
Defined.

(** X15: a [remove] that returns [True] takes exactly one entry out of
    the FIFO queue, at or before the first entry that matches, and keeps
    the others in their order; it records exactly one exit and no
    entry. *)
Theorem remove_takes_one_entry {T C} `{PyObject T}
    (q : Queue.t T C) (now : float) (x : T) :
  (Queue.remove now x q).1 = true ->
  exists i j e,
    find_index (Queue.matches x) (Queue._entries q) = Some i
    /\ (j <= i)%nat /\ Queue._entries q !! j = Some e
    /\ Queue._entries (Queue.remove now x q).2 = delete j (Queue._entries q)
    /\ Queue.__len__ (Queue.remove now x q).2 = Queue.__len__ q - 1
    /\ exits (Queue.stats (Queue.remove now x q).2) = exits (Queue.stats q) + 1
    /\ entries (Queue.stats (Queue.remove now x q).2) = entries (Queue.stats q).
Proof.
  destruct (find_index (Queue.matches x) (Queue._entries q)) as [i|] eqn:Hfind.
  2:{ by rewrite remove_absent. }
  destruct (find_index_Some _ _ _ Hfind) as (entry & Hentry & _).
  rewrite (remove_found _ _ _ _ _ Hfind Hentry). intros _. simpl.
  destruct (seq_remove_is_delete QueueEntry.__eq__ entry i (Queue._entries q))
    as (j & e & Hj & He & Heq); [by eapply lookup_lt_Some|].
  exists i, j, e. rewrite Heq. split_and!; try done.
  unfold Queue.__len__. simpl. rewrite length_delete by (by exists e).
  apply lookup_lt_Some in He. lia.
Qed.

(** [twin2] takes entry 0 out of a queue that holds the twins. *)
Lemma remove_takes_one_entry_twins :
  let q := queue_run [QEnqueue 0 twin1; QEnqueue 1 twin2]
             (Queue.__init__ (C:=string) "Queue_1" 0 "") in
  exists i j e,
    find_index (Queue.matches twin2) (Queue._entries q) = Some i
    /\ (j <= i)%nat /\ Queue._entries q !! j = Some e
    /\ Queue._entries (Queue.remove 2 twin2 q).2 = delete j (Queue._entries q)
    /\ Queue.__len__ (Queue.remove 2 twin2 q).2 = Queue.__len__ q - 1
    /\ exits (Queue.stats (Queue.remove 2 twin2 q).2) = exits (Queue.stats q) + 1
    /\ entries (Queue.stats (Queue.remove 2 twin2 q).2) = entries (Queue.stats q).
Proof.
  intros q.
  apply (remove_takes_one_entry (T:=Job) (C:=string) q 2 twin2). reflexivity.
Defined.
